(** * A shallow embedding of [syntax_highlighter/highlighter.py]

    The highlighter masks ("mutes") strings and comments with a filler
    letter, scans the masked text with a rule's regular expression, restores
    the masked spans and splices ANSI colour escapes around the recorded
    matches.  The functions of the Python source are embedded one by one,
    with their names; Python's [re] module, which is not part of the
    repository, is an interface ([RegexEngine]) that the embedding is
    parametric in, with a reference instance for a fragment of the pattern
    syntax at the end of the definitions. *)

From Stdlib Require Import Ascii String.
From Stdlib Require Import List Arith Lia Bool.
Import ListNotations.

(** ** Python values *)

(** A Python [str], as the list of its characters. *)
Definition str := list ascii.

Definition lit (s : string) : str := list_ascii_of_string s.
Arguments lit s%_string.

Definition str_eqb (a b : str) : bool :=
  if list_eq_dec ascii_dec a b then true else false.

Definition ESC : ascii := "027"%char.
Definition NL : ascii := "010"%char.
Definition DQUOTE : ascii := "034"%char.

(** [text[a:b]] for indices [0 <= a], [0 <= b]: both ends are clamped to
    the length, and the slice is empty when [b <= a]. *)
Definition slice (text : str) (a b : nat) : str := firstn (b - a) (skipn a text).

(** ** Exceptions *)

(** The exceptions of the code's own operations.  [ReError] is the
    exception of a failed [re.compile]: [re.error] for a malformed
    pattern (and the [OverflowError] or [ValueError] that [re.compile]
    raises on a few patterns, which the embedding does not tell apart
    from it).  Opening and reading the files is not embedded, so there is
    no [OSError]. *)
Inductive exn := ReError | KeyError | IndexError | NameError.

(** [LookupError] is the common base class of [KeyError] and [IndexError]. *)
Definition is_LookupError (e : exn) : bool :=
  match e with KeyError | IndexError => true | _ => false end.

Inductive result (A : Type) : Type :=
| Ok (a : A)
| Raise (e : exn).
Arguments Ok {A} a.
Arguments Raise {A} e.

Definition bind {A B} (c : result A) (k : A -> result B) : result B :=
  match c with Ok a => k a | Raise e => Raise e end.

Declare Scope py_scope.
Delimit Scope py_scope with py.
Notation "x <- c ;; k" := (bind c (fun x => k))
  (at level 61, c at next level, right associativity) : py_scope.
Notation "' pat <- c ;; k" := (bind c (fun x => match x with pat => k end))
  (at level 61, pat pattern, c at next level, right associativity) : py_scope.
Open Scope py_scope.

(** [l[i]] for [0 <= i]; the indices of the source are loop counters,
    match positions and lengths, never negative. *)
Definition index {A} (l : list A) (i : nat) : result A :=
  match nth_error l i with Some a => Ok a | None => Raise IndexError end.

(** [for i in range(n): s = body(i, s)], started at [i]. *)
Fixpoint for_range {St} (i n : nat) (s : St) (body : nat -> St -> result St) : result St :=
  match n with
  | 0 => Ok s
  | S n' => s' <- body i s ;; for_range (S i) n' s' body
  end.

(** ** The [re] module *)

(** What the highlighter uses of a regular-expression engine: compiling a
    pattern string with or without [re.DOTALL] ([None]: [re.compile] raises), and
    an anchored match attempt at a position of the subject, which gives the
    end of the match.  [must_advance] is the scanner's flag that forbids an
    empty match at that position.  The law is what the scanner relies on: a
    match ends in the subject, not before its start, and is not empty where
    that is forbidden. *)
Class RegexEngine := {
  pattern : Type;
  compile : str -> bool -> option pattern;
  match_at : pattern -> str -> nat -> bool -> option nat;
  match_at_range : forall p text pos must_advance e,
    pos <= length text ->
    match_at p text pos must_advance = Some e ->
    pos <= e <= length text /\ (must_advance = true -> pos < e)
}.

(** A match object: the subject and the span. *)
Record Match := { m_string : str; m_start : nat; m_end : nat }.

(** [m.group()] *)
Definition group (m : Match) : str := slice (m_string m) (m_start m) (m_end m).

Section Scanner.
Context {E : RegexEngine}.

(** The leftmost match at or after [pos]: the first start position,
    among [pos .. pos + n], where an anchored attempt succeeds.  Only the
    attempt at [pos] itself is subject to [must_advance]. *)
Fixpoint search_from (n : nat) (p : pattern) (text : str) (pos : nat)
         (must_advance : bool) : option (nat * nat) :=
  match match_at p text pos must_advance with
  | Some e => Some (pos, e)
  | None =>
      match n with
      | 0 => None
      | S n' => search_from n' p text (S pos) false
      end
  end.

Definition search (p : pattern) (text : str) (pos : nat) (must_advance : bool)
  : option (nat * nat) :=
  if pos <=? length text
  then search_from (length text - pos) p text pos must_advance
  else None.

(** The scanner loop shared by [finditer] and [sub]: after a match the
    scan resumes at its end, and an empty match may not be followed by
    another empty match at the same place. *)
Fixpoint finditer_loop (fuel : nat) (p : pattern) (text : str) (pos : nat)
         (must_advance : bool) : list Match :=
  match fuel with
  | 0 => []
  | S fuel' =>
      match search p text pos must_advance with
      | None => []
      | Some (s, e) =>
          Build_Match text s e :: finditer_loop fuel' p text e (e =? s)
      end
  end.

(** [pattern.finditer(text)], as the list of the match objects it yields.
    The loop runs at most [2 * len(text) + 1] times
    ([finditer_loop_fuel]). *)
Definition finditer (p : pattern) (text : str) : list Match :=
  finditer_loop (2 * length text + 2) p text 0 false.

(** [re.sub(pattern, repl, text)] with a function [repl]: the text between
    the matches is copied and each match is replaced by [repl(match)]. *)
Fixpoint sub_loop (repl : Match -> str) (text : str) (i : nat) (ms : list Match) : str :=
  match ms with
  | [] => slice text i (length text)
  | m :: ms' =>
      slice text i (m_start m) ++ repl m ++ sub_loop repl text (m_end m) ms'
  end.

Definition sub (p : pattern) (repl : Match -> str) (text : str) : str :=
  sub_loop repl text 0 (finditer p text).

(** ** highlighter.py *)

(** [def repl(m): return 'x' * len(m.group())] *)
Definition repl (m : Match) : str := repeat "x"%char (length (group m)).

Definition re_compile (expr : str) (dotall : bool) : result pattern :=
  match compile expr dotall with Some p => Ok p | None => Raise ReError end.

Definition mute_expression (text expr : str) (is_multiline : bool)
  : result (str * list nat * list nat * list str) :=
  p <- (if is_multiline then re_compile expr true else re_compile expr false) ;;
  let ms := finditer p text in
  let expr_start := map m_start ms in
  let expr_end := map m_end ms in
  let expr_match := map group ms in
  let text := sub p repl text in
  Ok (text, expr_start, expr_end, expr_match).

Definition unmute_expression (text : str) (expr_start expr_end : list nat)
           (expr_match : list str) : result str :=
  for_range 0 (length expr_match) text (fun i text =>
    s <- index expr_start i ;;
    m <- index expr_match i ;;
    e <- index expr_end i ;;
    Ok (slice text 0 s ++ m ++ slice text e (length text))).

End Scanner.

Section Colorize.
Context {E : RegexEngine}.

(** The three parallel lists recorded by one masking. *)
Definition mutes := (list nat * list nat * list str)%type.

(** A local variable that is assigned under an [if] only: reading it
    while it is unbound raises. *)
Definition local {A} (v : option A) : result A :=
  match v with Some a => Ok a | None => Raise NameError end.

Definition kind_is (kind : str) (name : string) : bool := str_eqb kind (lit name).

(** [# mute strings and comments if necessary] *)
Definition colorize_mute (text kind strexpr comexpr mlcomexpr : str)
  : result (str * option mutes * option mutes * option mutes) :=
  '(text, ml) <-
    (if negb (kind_is kind "mlcomment")
     then '(text, mlcs, mlce, mlcm) <- mute_expression text mlcomexpr true ;;
          Ok (text, Some (mlcs, mlce, mlcm))
     else Ok (text, None)) ;;
  '(text, s) <-
    (if negb (kind_is kind "string") && negb (kind_is kind "mlcomment")
     then '(text, ss, se, sm) <- mute_expression text strexpr false ;;
          Ok (text, Some (ss, se, sm))
     else Ok (text, None)) ;;
  '(text, c) <-
    (if negb (kind_is kind "comment")
     then '(text, cs, ce, cm) <- mute_expression text comexpr false ;;
          Ok (text, Some (cs, ce, cm))
     else Ok (text, None)) ;;
  Ok (text, ml, s, c).

(** [# find color locations with regex] *)
Definition colorize_find (text regex kind : str) : result mutes :=
  regex <- (if kind_is kind "mlcomment"
            then re_compile regex true
            else re_compile regex false) ;;
  let ms := finditer regex text in
  Ok (map m_start ms, map m_end ms, map group ms).

(** [# unmute strings and comments if necessary], in the order of the
    source: strings, single-line comments, multi-line comments. *)
Definition colorize_unmute (text kind : str) (ml s c : option mutes) : result str :=
  text <-
    (if negb (kind_is kind "string") && negb (kind_is kind "mlcomment")
     then '(ss, se, sm) <- local s ;; unmute_expression text ss se sm
     else Ok text) ;;
  text <-
    (if negb (kind_is kind "comment")
     then '(cs, ce, cm) <- local c ;; unmute_expression text cs ce cm
     else Ok text) ;;
  text <-
    (if negb (kind_is kind "mlcomment")
     then '(mlcs, mlce, mlcm) <- local ml ;; unmute_expression text mlcs mlce mlcm
     else Ok text) ;;
  Ok text.

(** ["\033[{}m".format(c)] and ["\033[0m"] *)
Definition opening (c : str) : str := ESC :: "["%char :: c ++ ["m"%char].
Definition reset : str := [ESC; "["%char; "0"%char; "m"%char].

(** [# color text based on locations and strings found by regex]; the
    loop state is the text and the nudge. *)
Definition paint_step (color : list str) (colorstart colorend : list nat)
           (colorstring : list str) (i : nat) (state : str * nat) : result (str * nat) :=
  let '(text, nudge) := state in
  c <- index color 0 ;;
  m <- index colorstring i ;;
  let highlightedexpr := opening c ++ m ++ reset in
  s <- index colorstart i ;;
  e <- index colorend i ;;
  let text := slice text 0 (s + nudge) ++ highlightedexpr
                ++ slice text (e + nudge) (length text) in
  c <- index color 0 ;;
  Ok (text, nudge + (length (opening c) + length reset)).

Definition colorize_paint (text : str) (color : list str)
           (colorstart colorend : list nat) (colorstring : list str) : result (str * nat) :=
  for_range 0 (length colorstring) (text, 0)
            (paint_step color colorstart colorend colorstring).

Definition colorize (text regex : str) (color : list str)
           (kind strexpr comexpr mlcomexpr : str) : result str :=
  '(text, ml, s, c) <- colorize_mute text kind strexpr comexpr mlcomexpr ;;
  '(colorstart, colorend, colorstring) <- colorize_find text regex kind ;;
  text <- colorize_unmute text kind ml s c ;;
  '(text, _) <- colorize_paint text color colorstart colorend colorstring ;;
  Ok text.

End Colorize.

(** ** [str] methods and containers used by [colorfile] *)

(** [s.replace(c, "")] for a one-character [c]. *)
Definition remove_char (c : ascii) (s : str) : str :=
  filter (fun a => negb (Ascii.eqb a c)) s.

Fixpoint starts_with (sep s : str) : bool :=
  match sep, s with
  | [], _ => true
  | a :: sep', b :: s' => Ascii.eqb a b && starts_with sep' s'
  | _ :: _, [] => false
  end.

(** [s.split(sep)] for a non-empty [sep]: the occurrences of [sep] are
    found from the left and do not overlap.  [skip] counts the characters
    of an occurrence still to be passed over, [cur] is the current piece,
    reversed. *)
Fixpoint split_loop (sep s : str) (skip : nat) (cur : str) : list str :=
  match s with
  | [] => [rev cur]
  | c :: s' =>
      match skip with
      | S k => split_loop sep s' k cur
      | 0 =>
          if starts_with sep s
          then rev cur :: split_loop sep s' (length sep - 1) []
          else split_loop sep s' 0 (c :: cur)
      end
  end.

Definition split (sep s : str) : list str := split_loop sep s 0 [].

(** A [dict] keeps its keys in insertion order; assigning to a key that is
    present keeps its place. *)
Definition dict (V : Type) := list (str * V).

Fixpoint dict_get {V} (d : dict V) (key : str) : result V :=
  match d with
  | [] => Raise KeyError
  | (k, v) :: d' => if str_eqb k key then Ok v else dict_get d' key
  end.

Fixpoint dict_set {V} (d : dict V) (key : str) (v : V) : dict V :=
  match d with
  | [] => [(key, v)]
  | (k, v') :: d' =>
      if str_eqb k key then (k, v) :: d' else (k, v') :: dict_set d' key v
  end.

Definition dict_keys {V} (d : dict V) : list str := map fst d.

(** The list objects: [theme_dict] and [syntax_dict] hold references, and
    [syntax_dict[k] = theme_dict[k]] makes both name one object. *)
Definition heap := list (list str).
Definition ref := nat.

Definition alloc (h : heap) (l : list str) : heap * ref := (h ++ [l], length h).

Definition deref (h : heap) (r : ref) : list str := nth r h [].

Fixpoint heap_update (h : heap) (r : ref) (f : list str -> list str) : heap :=
  match h, r with
  | [], _ => []
  | l :: h', 0 => f l :: h'
  | l :: h', S r' => l :: heap_update h' r' f
  end.

(** [l.append(x)] on the object at [r]. *)
Definition heap_append (h : heap) (r : ref) (x : str) : heap :=
  heap_update h r (fun l => l ++ [x]).

(** [l[len(l)-1]]: on an empty list the index is [-1], out of range. *)
Definition last_item {A} (l : list A) : result A :=
  match length l with
  | 0 => Raise IndexError
  | S n => index l n
  end.

(** [l[:len(l)-1]] *)
Definition but_last {A} (l : list A) : list A := firstn (length l - 1) l.

(** [for x in xs: s = body(x, s)] *)
Fixpoint for_each {A St} (xs : list A) (s : St) (body : A -> St -> result St) : result St :=
  match xs with
  | [] => Ok s
  | x :: xs' => s' <- body x s ;; for_each xs' s' body
  end.

Record store := { objects : heap; theme_dict : dict ref; syntax_dict : dict ref }.

(** The fields of a theme line and of a syntax line. *)
Definition theme_fields (line : str) : list str :=
  split (lit " ") (remove_char NL (remove_char ":"%char line)).

Definition SEP : str := [DQUOTE; ":"%char].

Definition syntax_fields (line : str) : list str :=
  split SEP (remove_char NL (remove_char " "%char line)).

(** [# Build type: color dictionary], the body of the loop and the loop. *)
Definition build_theme_step (line : str) (st : store) : result store :=
  let line := theme_fields line in
  let '(h, r) := alloc (objects st) (tl line) in
  key <- index line 0 ;;
  Ok {| objects := h;
        theme_dict := dict_set (theme_dict st) key r;
        syntax_dict := syntax_dict st |}.

Definition build_theme (theme : list str) (st : store) : result store :=
  for_each theme st build_theme_step.

(** [# Build type: color and regex dictionary], the body of the loop and the
    loop. *)
Definition build_syntax_step (line : str) (st : store) : result store :=
  let line := syntax_fields line in
  key <- index line 1 ;;
  r <- dict_get (theme_dict st) key ;;
  regex <- index line 0 ;;
  let h := heap_append (objects st) r regex in
  key <- index line 1 ;;
  r <- dict_get (theme_dict st) key ;;
  key <- index line 1 ;;
  Ok {| objects := h;
        theme_dict := theme_dict st;
        syntax_dict := dict_set (syntax_dict st) key r |}.

Definition build_syntax (syntax : list str) (st : store) : result store :=
  for_each syntax st build_syntax_step.

Definition empty_store : store := {| objects := []; theme_dict := []; syntax_dict := [] |}.

Definition merge (theme syntax : list str) : result store :=
  st <- build_theme theme empty_store ;;
  build_syntax syntax st.

(** [syntax_dict[key]], the list object itself. *)
Definition syntax_item (st : store) (key : str) : result (list str) :=
  r <- dict_get (syntax_dict st) key ;; Ok (deref (objects st) r).

Section Colorfile.
Context {E : RegexEngine}.

(** The body of [for key in syntax_dict]. *)
Definition colorfile_pass (st : store) (strexpr comexpr mlcomexpr : str)
           (key : str) (text : str) : result str :=
  l <- syntax_item st key ;;
  let color_list := but_last l in
  l <- syntax_item st key ;;
  regex <- last_item l ;;
  colorize text (tl regex) color_list key (tl strexpr) (tl comexpr) (tl mlcomexpr).

(** [# Search and add color-codes to text] *)
Definition colorfile_paint (st : store) (text : str) : result str :=
  strexpr <- (l <- syntax_item st (lit "string") ;; last_item l) ;;
  comexpr <- (l <- syntax_item st (lit "comment") ;; last_item l) ;;
  mlcomexpr <- (l <- syntax_item st (lit "mlcomment") ;; last_item l) ;;
  for_each (dict_keys (syntax_dict st)) text (colorfile_pass st strexpr comexpr mlcomexpr).

(** [colorfile], from the point where the three files have been read
    ([readlines]): its arguments are the lines of the files, not their
    names, and opening the files is not part of the embedding; the result
    is what [print(text)] writes. *)
Definition colorfile (theme syntax source : list str) : result str :=
  let text := concat source in
  st <- merge theme syntax ;;
  text <- colorfile_paint st text ;;
  Ok (text ++ [NL]).

End Colorfile.

(** ** A reference engine

    A backtracking matcher for a fragment of Python's pattern syntax over
    subjects of the code points 0 to 255: literals, [.], escapes
    ([\d \w \s \D \W \S \n \t \r], escaped punctuation), [\b] and [\B],
    character sets with ranges and negation, the repeats [* + ?] and their
    lazy forms on one-character items, groups and alternation.
    Alternatives are tried from the left and repeats give back (greedy) or
    take (lazy) one character at a time, as in [re]; the classes are those
    of [re] on [str] patterns (Unicode, restricted to these code points).

    The instance serves the examples, which stay inside the fragment.  It
    does not compile a pattern outside the fragment (a repeat after a
    group, a counted repeat, an anchor, a flag group), although [re] would
    compile most of them: on such a pattern it says nothing about [re]. *)
Module RefEngine.

Inductive category := Digit | Word | Space.

Inductive item :=
| IChar (c : ascii)
| IRange (lo hi : ascii)
| IClass (negated : bool) (cat : category).

Inductive atom :=
| ALit (c : ascii)
| AAny
| ASet (negated : bool) (items : list item).

Inductive regex :=
| REmpty
| RAtom (a : atom)
| RRepeat (a : atom) (lo : nat) (hi : option nat) (greedy : bool)
| RBoundary (negated : bool)
| RSeq (r1 r2 : regex)
| RAlt (r1 r2 : regex).

Definition between (lo n hi : nat) : bool := (lo <=? n) && (n <=? hi).

Definition in_category (cat : category) (c : ascii) : bool :=
  let n := nat_of_ascii c in
  match cat with
  | Digit => between 48 n 57
  | Word => between 48 n 57 || between 65 n 90 || between 97 n 122 || (n =? 95)
            || (n =? 170) || between 178 n 179 || (n =? 181) || between 185 n 186
            || between 188 n 190 || between 192 n 214 || between 216 n 246
            || between 248 n 255
  | Space => between 9 n 13 || between 28 n 32 || (n =? 133) || (n =? 160)
  end.

Definition item_matches (it : item) (c : ascii) : bool :=
  match it with
  | IChar c' => Ascii.eqb c c'
  | IRange lo hi => between (nat_of_ascii lo) (nat_of_ascii c) (nat_of_ascii hi)
  | IClass negated cat => xorb negated (in_category cat c)
  end.

Section Matcher.
Variable dotall : bool.
Variable text : str.

Definition atom_matches (a : atom) (c : ascii) : bool :=
  match a with
  | ALit c' => Ascii.eqb c c'
  | AAny => dotall || negb (Ascii.eqb c NL)
  | ASet negated items => xorb negated (existsb (fun it => item_matches it c) items)
  end.

Definition atom_at (a : atom) (i : nat) : bool :=
  match nth_error text i with
  | Some c => atom_matches a c
  | None => false
  end.

Definition word_at (i : nat) : bool :=
  match nth_error text i with
  | Some c => in_category Word c
  | None => false
  end.

Definition boundary (i : nat) : bool :=
  xorb (match i with 0 => false | S j => word_at j end) (word_at i).

(** [\b] ([negated] false) and [\B] at [i]; neither matches in an empty
    subject. *)
Definition at_boundary (negated : bool) (i : nat) : bool :=
  match text with
  | [] => false
  | _ :: _ => xorb negated (boundary i)
  end.

(** How many characters from [i] on the atom accepts, up to [n]. *)
Fixpoint run (a : atom) (i n : nat) : nat :=
  match n with
  | 0 => 0
  | S n' => if atom_at a i then S (run a (S i) n') else 0
  end.

(** Greedy: [n] repetitions first, then one fewer, down to [lo]. *)
Fixpoint give_back (k : nat -> option nat) (i lo n : nat) : option nat :=
  match k (i + n) with
  | Some e => Some e
  | None =>
      match n with
      | 0 => None
      | S n' => if lo <=? n' then give_back k i lo n' else None
      end
  end.

(** Lazy: continue at [pos] first, then after one more repetition, at
    most [n] more. *)
Fixpoint take_more (k : nat -> option nat) (pos n : nat) : option nat :=
  match k pos with
  | Some e => Some e
  | None =>
      match n with
      | 0 => None
      | S n' => take_more k (S pos) n'
      end
  end.

(** Match [r] at [i] and continue with [k] at the position reached. *)
Fixpoint matches (r : regex) (i : nat) (k : nat -> option nat) : option nat :=
  match r with
  | REmpty => k i
  | RAtom a => if atom_at a i then k (S i) else None
  | RRepeat a lo hi greedy =>
      let n := run a i (match hi with Some h => h | None => length text end) in
      if n <? lo then None
      else if greedy then give_back k i lo n else take_more k (i + lo) (n - lo)
  | RBoundary negated => if at_boundary negated i then k i else None
  | RSeq r1 r2 => matches r1 i (fun j => matches r2 j k)
  | RAlt r1 r2 =>
      match matches r1 i k with
      | Some e => Some e
      | None => matches r2 i k
      end
  end.

End Matcher.

Definition match_at (p : regex * bool) (text : str) (pos : nat) (must_advance : bool)
  : option nat :=
  matches (snd p) text (fst p) pos
          (fun j => if must_advance && (j =? pos) then None else Some j).

(** *** Parsing patterns *)

Definition is_alnum (c : ascii) : bool :=
  let n := nat_of_ascii c in
  between 48 n 57 || between 65 n 90 || between 97 n 122.

(** The character after a backslash, where it stands for one character
    or a class of characters. *)
Definition escape_item (c : ascii) : option item :=
  match c with
  | "d"%char => Some (IClass false Digit)
  | "D"%char => Some (IClass true Digit)
  | "w"%char => Some (IClass false Word)
  | "W"%char => Some (IClass true Word)
  | "s"%char => Some (IClass false Space)
  | "S"%char => Some (IClass true Space)
  | "n"%char => Some (IChar NL)
  | "t"%char => Some (IChar "009"%char)
  | "r"%char => Some (IChar "013"%char)
  | _ => if is_alnum c then None else Some (IChar c)
  end.

Definition item_atom (it : item) : atom :=
  match it with
  | IChar c => ALit c
  | _ => ASet false [it]
  end.

(** The items of a set, after [[] or [[^], up to the closing bracket. *)
Fixpoint parse_items (s : str) (acc : list item) : option (list item * str) :=
  match s with
  | [] => None
  | "]"%char :: s' => Some (rev acc, s')
  | "\"%char :: s' =>
      match s' with
      | [] => None
      | c :: s'' =>
          match escape_item c with
          | Some it => parse_items s'' (it :: acc)
          | None => None
          end
      end
  | c :: s' =>
      match s' with
      | "-"%char :: h :: s'' =>
          if Ascii.eqb h "]"%char then parse_items s' (IChar c :: acc)
          else if Ascii.eqb h "\"%char then None
          else if nat_of_ascii c <=? nat_of_ascii h
               then parse_items s'' (IRange c h :: acc)
               else None
      | _ => parse_items s' (IChar c :: acc)
      end
  end.

Definition parse_set (s : str) : option (atom * str) :=
  let '(negated, s) :=
    match s with
    | "^"%char :: s' => (true, s')
    | _ => (false, s)
    end in
  match s with
  | "]"%char :: _ => None
  | _ =>
      match parse_items s [] with
      | Some (items, rest) => Some (ASet negated items, rest)
      | None => None
      end
  end.

(** A one-character item. *)
Definition parse_atom (s : str) : option (atom * str) :=
  match s with
  | [] => None
  | "."%char :: s' => Some (AAny, s')
  | "["%char :: s' => parse_set s'
  | "\"%char :: c :: s' =>
      match escape_item c with
      | Some it => Some (item_atom it, s')
      | None => None
      end
  | "\"%char :: [] => None
  | c :: s' =>
      if existsb (Ascii.eqb c) (lit "*+?{^$|()") then None else Some (ALit c, s')
  end.

Definition is_repeat (s : str) : bool :=
  match s with
  | c :: _ => existsb (Ascii.eqb c) (lit "*+?{")
  | [] => false
  end.

(** The repeat after an item, if any. *)
Definition parse_repeat (a : atom) (s : str) : option (regex * str) :=
  let bounds :=
    match s with
    | "*"%char :: s' => Some (0, None, s')
    | "+"%char :: s' => Some (1, None, s')
    | "?"%char :: s' => Some (0, Some 1, s')
    | _ => None
    end in
  match bounds with
  | None => if is_repeat s then None else Some (RAtom a, s)
  | Some (lo, hi, s') =>
      match s' with
      | "?"%char :: s'' =>
          if is_repeat s'' then None else Some (RRepeat a lo hi false, s'')
      | _ => if is_repeat s' then None else Some (RRepeat a lo hi true, s')
      end
  end.

Fixpoint parse_alt (fuel : nat) (s : str) {struct fuel} : option (regex * str) :=
  match fuel with
  | 0 => None
  | S fuel' =>
      match parse_seq fuel' s with
      | Some (r1, "|"%char :: s') =>
          match parse_alt fuel' s' with
          | Some (r2, s'') => Some (RAlt r1 r2, s'')
          | None => None
          end
      | other => other
      end
  end
with parse_seq (fuel : nat) (s : str) {struct fuel} : option (regex * str) :=
  match fuel with
  | 0 => None
  | S fuel' =>
      match s with
      | [] => Some (REmpty, s)
      | "|"%char :: _ => Some (REmpty, s)
      | ")"%char :: _ => Some (REmpty, s)
      | _ =>
          match parse_item fuel' s with
          | Some (r, s') =>
              match parse_seq fuel' s' with
              | Some (rs, s'') => Some (RSeq r rs, s'')
              | None => None
              end
          | None => None
          end
      end
  end
with parse_item (fuel : nat) (s : str) {struct fuel} : option (regex * str) :=
  match fuel with
  | 0 => None
  | S fuel' =>
      match s with
      | "("%char :: "?"%char :: _ => None
      | "("%char :: s' =>
          match parse_alt fuel' s' with
          | Some (r, ")"%char :: s'') => if is_repeat s'' then None else Some (r, s'')
          | _ => None
          end
      | "\"%char :: "b"%char :: s' => if is_repeat s' then None else Some (RBoundary false, s')
      | "\"%char :: "B"%char :: s' => if is_repeat s' then None else Some (RBoundary true, s')
      | _ =>
          match parse_atom s with
          | Some (a, s') => parse_repeat a s'
          | None => None
          end
      end
  end.

Definition parse (expr : str) : option regex :=
  match parse_alt (3 * length expr + 3) expr with
  | Some (r, []) => Some r
  | _ => None
  end.

Definition compile (expr : str) (dotall : bool) : option (regex * bool) :=
  match parse expr with
  | Some r => Some (r, dotall)
  | None => None
  end.

End RefEngine.

(** ** The reference engine is an engine *)

Module RefEngineFacts.
Import RefEngine.

Section Range.
Variable dotall : bool.
Variable text : str.

Lemma atom_at_lt a i : atom_at dotall text a i = true -> i < length text.
Proof.
  unfold atom_at. destruct (nth_error text i) eqn:H; [|discriminate].
  intros _. apply nth_error_Some. congruence.
Qed.

Lemma run_range a n : forall i, i <= length text -> i + run dotall text a i n <= length text.
Proof.
  induction n as [|n IH]; intros i Hi; simpl; [lia|].
  destruct (atom_at dotall text a i) eqn:H; [|lia].
  apply atom_at_lt in H. specialize (IH (S i) H). lia.
Qed.

Lemma give_back_reach k i lo n e :
  give_back k i lo n = Some e -> exists c, c <= n /\ k (i + c) = Some e.
Proof.
  revert e. induction n as [|n IH]; intros e; simpl.
  - destruct (k (i + 0)) eqn:H; [|discriminate]. intros [= <-]. exists 0. auto.
  - destruct (k (i + S n)) eqn:H.
    + intros [= <-]. exists (S n). auto.
    + destruct (lo <=? n); [|discriminate]. intros H'.
      destruct (IH _ H') as (c & Hc1 & Hc2). exists c. split; [lia|assumption].
Qed.

Lemma take_more_reach k n : forall pos e,
  take_more k pos n = Some e -> exists c, c <= n /\ k (pos + c) = Some e.
Proof.
  induction n as [|n IH]; intros pos e; simpl.
  - destruct (k pos) eqn:H; [|discriminate]. intros [= <-]. exists 0.
    rewrite Nat.add_0_r. auto.
  - destruct (k pos) eqn:H.
    + intros [= <-]. exists 0. rewrite Nat.add_0_r. split; [lia|assumption].
    + intros H'. destruct (IH _ _ H') as (c & Hc1 & Hc2). exists (S c).
      split; [lia|]. rewrite <- Hc2. f_equal. lia.
Qed.

(** A successful match continues at a position of the subject that is
    not before its start. *)
Lemma matches_reach r : forall i k e,
  i <= length text ->
  matches dotall text r i k = Some e ->
  exists j, i <= j <= length text /\ k j = Some e.
Proof.
  induction r as [|a|a lo hi greedy|negated|r1 IH1 r2 IH2|r1 IH1 r2 IH2];
    intros i k e Hi; simpl.
  - intros H. exists i. split; [lia|assumption].
  - destruct (atom_at dotall text a i) eqn:Ha; [|discriminate].
    apply atom_at_lt in Ha. intros H. exists (S i). split; [lia|assumption].
  - pose proof (run_range a (match hi with Some h => h | None => length text end) i Hi)
      as Hrun.
    remember (run dotall text a i (match hi with Some h => h | None => length text end))
      as n eqn:Hn. clear Hn.
    destruct (n <? lo) eqn:Hlo; [discriminate|].
    apply Nat.ltb_ge in Hlo.
    destruct greedy; intros H.
    + apply give_back_reach in H. destruct H as (c & Hc & H).
      exists (i + c). split; [lia|assumption].
    + apply take_more_reach in H. destruct H as (c & Hc & H).
      exists (i + lo + c). split; [lia|assumption].
  - destruct (at_boundary text negated i); [|discriminate].
    intros H. exists i. split; [lia|assumption].
  - intros H. apply IH1 in H; [|assumption]. destruct H as (j & Hj & H).
    apply IH2 in H; [|lia]. destruct H as (j' & Hj' & H).
    exists j'. split; [lia|assumption].
  - destruct (matches dotall text r1 i k) eqn:H1.
    + intros [= <-]. apply IH1 in H1; assumption.
    + intros H. apply IH2 in H; assumption.
Qed.

End Range.

Lemma match_at_range p text pos must_advance e :
  pos <= length text ->
  match_at p text pos must_advance = Some e ->
  pos <= e <= length text /\ (must_advance = true -> pos < e).
Proof.
  intros Hpos H. unfold match_at in H.
  apply matches_reach in H; [|assumption]. destruct H as (j & Hj & H).
  destruct must_advance; simpl in H.
  - destruct (j =? pos) eqn:Hjp; [discriminate|]. injection H as <-.
    apply Nat.eqb_neq in Hjp. split; [lia|intros _; lia].
  - injection H as <-. split; [lia|discriminate].
Qed.

End RefEngineFacts.

#[export] Instance reference_engine : RegexEngine := {|
  pattern := (RefEngine.regex * bool)%type;
  compile := RefEngine.compile;
  match_at := RefEngine.match_at;
  match_at_range := RefEngineFacts.match_at_range
|}.

(** * Notions for the properties *)

(** ** Matches, masked texts and painted texts *)

(** Spans that follow each other from position [i] on: each lies within
    [len] and starts no earlier than the previous one ends. *)
Inductive chained (len : nat) : nat -> list Match -> Prop :=
| chained_nil i : i <= len -> chained len i []
| chained_cons i m ms :
    i <= m_start m -> m_start m <= m_end m -> m_end m <= len ->
    chained len (m_end m) ms ->
    chained len i (m :: ms).

(** The matches are matches in [text]. *)
Definition subject (text : str) (ms : list Match) : Prop :=
  Forall (fun m => m_string m = text) ms.

(** The scanner's progress measure: twice the distance to the end, plus
    one while an empty match is still allowed at the position. *)
Definition budget (text : str) (pos : nat) (must_advance : bool) : nat :=
  2 * (length text - pos) + (if must_advance then 0 else 1).

(** Putting one recorded match back. *)
Definition restore (text : str) (m : Match) : str :=
  slice text 0 (m_start m) ++ group m ++ slice text (m_end m) (length text).

(** The text holds the filler letter at every position of [s, e). *)
Definition filled (text : str) (s e : nat) : Prop :=
  forall j, s <= j -> j < e -> nth_error text j = Some "x"%char.

(** Position [j] lies in one of the matches. *)
Definition covered (ms : list Match) (j : nat) : bool :=
  existsb (fun m => (m_start m <=? j) && (j <? m_end m)) ms.

(** What replaces a match when the text is painted. *)
Definition highlight (c : str) (m : Match) : str := opening c ++ group m ++ reset.

(** The painted text in pieces: the text between the matches, and for each
    match an opening sequence, the matched text and a reset sequence. *)
Inductive piece :=
| Plain (s : str)
| Opening (c : str)
| Matched (s : str)
| Reset.

Definition render (p : piece) : str :=
  match p with
  | Plain s => s
  | Opening c => opening c
  | Matched s => s
  | Reset => reset
  end.

Fixpoint pieces (c : str) (text : str) (i : nat) (ms : list Match) : list piece :=
  match ms with
  | [] => [Plain (slice text i (length text))]
  | m :: ms' =>
      Plain (slice text i (m_start m)) :: Opening c :: Matched (group m) :: Reset
        :: pieces c text (m_end m) ms'
  end.

(** The number of places where [pat] occurs in [s]. *)
Fixpoint count_sub (pat s : str) : nat :=
  match s with
  | [] => 0
  | _ :: s' => (if starts_with pat s then 1 else 0) + count_sub pat s'
  end.

(** A text without the escape character. *)
Definition plain (s : str) : Prop := Forall (fun a => a <> ESC) s.

Definition opening_body (c : str) : str := "["%char :: c ++ ["m"%char].
Definition reset_body : str := ["["%char; "0"%char; "m"%char].

Section Notions.
Context {E : RegexEngine}.

(** One gated masking, with the matches [ms] it recorded: when applied it
    is the masking of [text]; when skipped the text is unchanged, nothing
    is recorded and the variables stay unbound. *)
Definition stage (applied : bool) (text expr : str) (dotall : bool)
           (out : str) (rec : option mutes) (ms : list Match) : Prop :=
  if applied
  then exists p, compile expr dotall = Some p /\ ms = finditer p text /\
                 out = sub p repl text /\
                 rec = Some (map m_start ms, map m_end ms, map group ms)
  else out = text /\ rec = None /\ ms = [].

(** Scanning with a pattern compiled with or without [re.DOTALL]. *)
Definition scan_with (dotall : bool) (text regex : str) : result mutes :=
  p <- re_compile regex dotall ;;
  Ok (map m_start (finditer p text), map m_end (finditer p text),
      map group (finditer p text)).

(** Unmuting in the reverse order of masking, as the specification words
    it: single-line comments, then strings, then multi-line comments. *)
Definition colorize_unmute_reversed (text kind : str) (ml s c : option mutes)
  : result str :=
  text <-
    (if negb (kind_is kind "comment")
     then '(cs, ce, cm) <- local c ;; unmute_expression text cs ce cm
     else Ok text) ;;
  text <-
    (if negb (kind_is kind "string") && negb (kind_is kind "mlcomment")
     then '(ss, se, sm) <- local s ;; unmute_expression text ss se sm
     else Ok text) ;;
  text <-
    (if negb (kind_is kind "mlcomment")
     then '(mlcs, mlce, mlcm) <- local ml ;; unmute_expression text mlcs mlce mlcm
     else Ok text) ;;
  Ok text.

End Notions.

(** ** The two files, in the words of the specification *)

(** The text before the first occurrence of [sep], or all of it. *)
Fixpoint before (sep s : str) : str :=
  match s with
  | [] => []
  | c :: s' => if starts_with sep s then [] else c :: before sep s'
  end.

Definition theme_key (line : str) : str := hd [] (theme_fields line).
Definition theme_colors (line : str) : list str := tl (theme_fields line).

(** The colour codes of a category: those of the last theme line for it. *)
Definition colors_of (key : str) (theme : list str) : list str :=
  last (map theme_colors (filter (fun line => str_eqb (theme_key line) key) theme)) [].

(** The rule of a syntax line, in the words of the specification: the
    pattern text is what stands before the first separator once the spaces
    (and the newline) are dropped, the category is the field after it. *)
Definition syntax_rule (line : str) : option (str * str) :=
  let s := remove_char NL (remove_char " "%char line) in
  match split SEP s with
  | _ :: category :: _ => Some (before SEP s, category)
  | _ => None
  end.

(** The pattern texts that the syntax file gives for a category, in the
    order of the file. *)
Definition regexes_of (key : str) (syntax : list str) : list str :=
  flat_map (fun line =>
              match syntax_rule line with
              | Some (reg, k) => if str_eqb k key then [reg] else []
              | None => []
              end) syntax.

(** A line as [readlines] gives it: only its last character can be a
    newline. *)
Definition file_line (line : str) : Prop :=
  exists body, ~ In NL body /\ (line = body \/ line = body ++ [NL]).

(** The pattern text of a category, the last one the syntax file gives for
    it, and the list that [colorize] receives as its colours: the colour
    codes of the theme, followed by the earlier pattern texts when the
    syntax file names the category more than once. *)
Definition pattern_of (key : str) (syntax : list str) : str :=
  last (regexes_of key syntax) [].

Definition color_list_of (key : str) (theme syntax : list str) : list str :=
  colors_of key theme ++ removelast (regexes_of key syntax).

Definition theme_inv (done : list str) (st : store) : Prop :=
  syntax_dict st = [] /\
  (forall r, In r (map snd (theme_dict st)) -> r < length (objects st)) /\
  NoDup (map snd (theme_dict st)) /\
  (forall k, In k (map theme_key done) ->
             exists r, dict_get (theme_dict st) k = Ok r /\
                       deref (objects st) r = colors_of k done) /\
  (forall k, ~ In k (map theme_key done) -> dict_get (theme_dict st) k = Raise KeyError).

Definition syntax_inv (st0 : store) (done : list str) (st : store) : Prop :=
  theme_dict st = theme_dict st0 /\
  length (objects st) = length (objects st0) /\
  (forall k r, dict_get (theme_dict st0) k = Ok r ->
               deref (objects st) r = deref (objects st0) r ++ regexes_of k done) /\
  (forall k, In k (dict_keys (syntax_dict st)) -> regexes_of k done <> []) /\
  (forall k r, dict_get (syntax_dict st) k = Ok r -> dict_get (theme_dict st0) k = Ok r).

(** ** Four claims as they stand *)

(** The reading of [C6] as it stands: no match of any compiled rule
    pattern, other than an empty one, lies inside a span that a masking has
    filled. *)
Definition placeholder_unmatchable (E : RegexEngine) : Prop :=
  forall text expr is_multiline masked expr_start expr_end expr_match
         regex dotall p m i s e,
    mute_expression text expr is_multiline
      = Ok (masked, expr_start, expr_end, expr_match) ->
    compile regex dotall = Some p ->
    In m (finditer p masked) ->
    nth_error expr_start i = Some s -> nth_error expr_end i = Some e ->
    ~ (s <= m_start m /\ m_end m <= e /\ m_start m < m_end m).


(** The reading of [C4] as it stands, for the strings: a span that a pass
    records for a string holds no newline of the text. *)
Definition string_spans_line_oriented (E : RegexEngine) : Prop :=
  forall text kind strexpr comexpr mlcomexpr masked ml ss se sm c i s e j,
    colorize_mute text kind strexpr comexpr mlcomexpr
      = Ok (masked, ml, Some (ss, se, sm), c) ->
    nth_error ss i = Some s -> nth_error se i = Some e ->
    s <= j -> j < e -> nth_error text j <> Some NL.

(** The reading of [C5] as it stands, for the counts: the output of every
    pass holds as many opening sequences of its colour as reset
    sequences. *)
Definition splices_balanced (E : RegexEngine) : Prop :=
  forall text regex c more kind strexpr comexpr mlcomexpr out,
    colorize text regex (c :: more) kind strexpr comexpr mlcomexpr = Ok out ->
    count_sub (opening c) out = count_sub reset out.

(** ** Concrete rules and texts

    The patterns of a C-like syntax file, as they reach [colorize] (without
    the quote that opens them in the file), run on the reference engine. *)
Module Demo.

(** A double quote, any characters but double quotes, a double quote. *)
Definition STRING_RE : str := DQUOTE :: lit "[^" ++ DQUOTE :: lit "]*" ++ [DQUOTE].
(** Two slashes and the rest of the line. *)
Definition COMMENT_RE : str := lit "//.*".
(** From a slash and a star to the nearest star and slash. *)
Definition MLCOMMENT_RE : str := lit "/\*.*?\*/".
(** The word if. *)
Definition KEYWORD_RE : str := lit "\bif\b".

Definition quoted (s : str) : str := DQUOTE :: s ++ [DQUOTE].

(** The compiled keyword pattern. *)
Definition KEYWORD : RefEngine.regex * bool :=
  (RefEngine.RSeq (RefEngine.RBoundary false)
     (RefEngine.RSeq (RefEngine.RAtom (RefEngine.ALit "i"))
        (RefEngine.RSeq (RefEngine.RAtom (RefEngine.ALit "f"))
           (RefEngine.RSeq (RefEngine.RBoundary false) RefEngine.REmpty))),
   false).

Definition paint_keyword (text regex : str) : result str :=
  colorize (E := reference_engine) text regex [lit "31"] (lit "keyword")
           STRING_RE COMMENT_RE MLCOMMENT_RE.

End Demo.

(** ** A theme file and a syntax file *)
Module DemoFiles.

Definition theme_line (s : string) : str := lit s ++ [NL].

(** A line of the syntax file: the pattern between double quotes, the
    colon, a space and the category. *)
Definition syntax_line (regex : str) (category : string) : str :=
  Demo.quoted regex ++ lit ": " ++ lit category ++ [NL].

Definition THEME : list str :=
  [theme_line "keyword: 31 1"; theme_line "string: 33";
   theme_line "comment: 32"; theme_line "mlcomment: 32"].

Definition SYNTAX : list str :=
  [syntax_line Demo.KEYWORD_RE "keyword"; syntax_line Demo.STRING_RE "string";
   syntax_line Demo.COMMENT_RE "comment"; syntax_line Demo.MLCOMMENT_RE "mlcomment"].

Definition STORE : store :=
  Eval vm_compute in
    match merge THEME SYNTAX with Ok st => st | Raise _ => empty_store end.

End DemoFiles.

(** ** Notions for the further properties *)

(** Position [j] lies in one of the spans given by two parallel lists. *)
Definition in_span (starts ends : list nat) (j : nat) : bool :=
  existsb (fun se => (fst se <=? j) && (j <? snd se)) (combine starts ends).

(** Position [j] lies in a span recorded by a masking, if the masking ran. *)
Definition in_spans (rec : option (list nat * list nat * list str)) (j : nat) : bool :=
  match rec with
  | Some (starts, ends, _) => in_span starts ends j
  | None => false
  end.

(** [m] covers position [j]. *)
Definition covers (m : Match) (j : nat) : bool := (m_start m <=? j) && (j <? m_end m).

(** No position lies both in a span recorded for a string and in a span
    recorded for a single-line comment. *)
Definition spans_apart (s c : option (list nat * list nat * list str)) : Prop :=
  forall j, in_spans s j = true -> in_spans c j = true -> False.

(** The three lists that a masking, or the scan of a rule, records for
    the matches [ms]. *)
Definition recorded (ms : list Match) : mutes :=
  (map m_start ms, map m_end ms, map group ms).

(** The keys of a dictionary after an assignment to [key]. *)
Definition add_key (keys : list str) (key : str) : list str :=
  if existsb (fun k => str_eqb k key) keys then keys else keys ++ [key].

(** The elements of a list in the order of their first occurrence. *)
Definition first_occurrences (l : list str) : list str := fold_left add_key l [].

(** The categories that the lines of a syntax file name, in the order of
    the file. *)
Definition categories_of (syntax : list str) : list str :=
  flat_map (fun line =>
              match syntax_rule line with
              | Some (_, k) => [k]
              | None => []
              end) syntax.

(** A line of the syntax file that the merge can take: it has the
    separator, and the theme has a line for its category. *)
Definition rule_ok (theme : list str) (line : str) : bool :=
  match syntax_rule line with
  | Some (_, k) => existsb (str_eqb k) (map theme_key theme)
  | None => false
  end.

(** The three categories whose patterns every pass masks with. *)
Definition SPECIAL : list str := [lit "string"; lit "comment"; lit "mlcomment"].

(** A painted text without its escape sequences. *)
Definition content (ps : list piece) : str :=
  concat (map (fun p => match p with
                        | Plain s | Matched s => s
                        | Opening _ | Reset => []
                        end) ps).

(** * Properties *)

(** ** The files of the example *)

Lemma demo_merged : merge DemoFiles.THEME DemoFiles.SYNTAX = Ok DemoFiles.STORE.
Proof. vm_compute. reflexivity. Qed.

(** The example of the specification: the word if is painted with the
    keyword colour, the comment with the comment colour, and the word if
    inside the comment is left alone. *)
Example demo_end_to_end :
  colorfile (E := reference_engine) DemoFiles.THEME DemoFiles.SYNTAX
            [lit "if (x) { } // if comment"]
  = Ok (ESC :: lit "[31mif" ++ ESC :: lit "[0m (x) { } "
          ++ ESC :: lit "[32m// if comment" ++ ESC :: lit "[0m" ++ [NL]).
Proof. vm_compute. reflexivity. Qed.

(** ** Slices *)

Lemma firstn_add {A} (l : list A) : forall n m,
  firstn (n + m) l = firstn n l ++ firstn m (skipn n l).
Proof.
  induction l as [|a l IH]; intros [|n] m; simpl; try reflexivity.
  - now rewrite firstn_nil.
  - now rewrite IH.
Qed.

Lemma skipn_add {A} (l : list A) : forall n m, skipn (n + m) l = skipn m (skipn n l).
Proof.
  induction l as [|a l IH]; intros [|n] m; simpl; try reflexivity.
  - now rewrite skipn_nil.
  - apply IH.
Qed.

Lemma slice_length text a b : b <= length text -> length (slice text a b) = b - a.
Proof.
  intros H. unfold slice. rewrite length_firstn, length_skipn. lia.
Qed.

Lemma slice_to_end text a : slice text a (length text) = skipn a text.
Proof.
  unfold slice. apply firstn_all2. rewrite length_skipn. lia.
Qed.

Lemma slice_from_0 text b : slice text 0 b = firstn b text.
Proof. unfold slice. now rewrite Nat.sub_0_r. Qed.

Lemma slice_join text a b c :
  a <= b -> b <= c -> slice text a b ++ slice text b c = slice text a c.
Proof.
  intros Hab Hbc. unfold slice.
  replace (c - a) with ((b - a) + (c - b)) by lia.
  rewrite firstn_add. f_equal. f_equal.
  rewrite <- skipn_add. f_equal. lia.
Qed.

Lemma slice_skipn_join text a b :
  a <= b -> slice text a b ++ skipn b text = skipn a text.
Proof.
  intros Hab. unfold slice.
  replace (skipn b text) with (skipn (b - a) (skipn a text)).
  - apply firstn_skipn.
  - rewrite <- skipn_add. f_equal. lia.
Qed.

Lemma firstn_app_exact {A} (l1 l2 : list A) n : length l1 = n -> firstn n (l1 ++ l2) = l1.
Proof.
  intros <-. rewrite firstn_app, Nat.sub_diag, firstn_all. simpl. apply app_nil_r.
Qed.

Lemma skipn_app_exact {A} (l1 l2 : list A) n : length l1 = n -> skipn n (l1 ++ l2) = l2.
Proof.
  intros <-. rewrite skipn_app, Nat.sub_diag, skipn_all. reflexivity.
Qed.

(** ** The scanner *)

Lemma chained_start len i ms : chained len i ms -> i <= len.
Proof. intros Hc; inversion Hc; subst; lia. Qed.

Lemma chained_firstn len ms : forall i k, chained len i ms -> chained len i (firstn k ms).
Proof.
  induction ms as [|m ms IH]; intros i k Hc.
  - now rewrite firstn_nil.
  - destruct k as [|k]; simpl.
    + constructor. now apply chained_start in Hc.
    + inversion Hc as [|? ? ? Hst Hse Hel Hrest]; subst. constructor; auto.
Qed.

Lemma chained_In len ms : forall i m,
  chained len i ms -> In m ms -> i <= m_start m /\ m_start m <= m_end m /\ m_end m <= len.
Proof.
  induction ms as [|m' ms IH]; intros i m Hc Hin; [destruct Hin|].
  inversion Hc as [|? ? ? Hst Hse Hel Hrest]; subst.
  destruct Hin as [->|Hin]; [auto|].
  destruct (IH _ _ Hrest Hin) as (? & ? & ?). repeat split; lia.
Qed.

Section ScannerFacts.
Context {E : RegexEngine}.

Lemma search_from_range n p text : forall pos must_advance s e,
  pos + n <= length text ->
  search_from n p text pos must_advance = Some (s, e) ->
  pos <= s /\ s <= e /\ e <= length text /\ (must_advance = true -> s = pos -> pos < e).
Proof.
  induction n as [|n IH]; intros pos ma s e Hpos; simpl;
    destruct (match_at p text pos ma) eqn:Hm;
    try (intros [= <- <-]; apply match_at_range in Hm; [|lia];
         destruct Hm as [[? ?] ?]; repeat split; auto with arith);
    try discriminate.
  intros H. apply IH in H; [|lia]. destruct H as (? & ? & ? & _).
  repeat split; try lia.
Qed.

Lemma search_range p text pos must_advance s e :
  search p text pos must_advance = Some (s, e) ->
  pos <= s /\ s <= e /\ e <= length text /\ (must_advance = true -> s = pos -> pos < e).
Proof.
  unfold search. destruct (pos <=? length text) eqn:Hpos; [|discriminate].
  apply Nat.leb_le in Hpos. apply search_from_range. lia.
Qed.

Lemma finditer_loop_chained fuel p text : forall pos must_advance,
  pos <= length text ->
  chained (length text) pos (finditer_loop fuel p text pos must_advance).
Proof.
  induction fuel as [|fuel IH]; intros pos ma Hpos; simpl.
  - now constructor.
  - destruct (search p text pos ma) as [[s e]|] eqn:Hs; [|now constructor].
    apply search_range in Hs. destruct Hs as (? & ? & ? & _).
    constructor; simpl; auto.
Qed.

Lemma finditer_loop_subject fuel p text : forall pos must_advance,
  subject text (finditer_loop fuel p text pos must_advance).
Proof.
  induction fuel as [|fuel IH]; intros pos ma; simpl; [constructor|].
  destruct (search p text pos ma) as [[s e]|]; constructor; [reflexivity|apply IH].
Qed.

(** The matches of [finditer] are in ascending order, do not overlap and
    lie in the text. *)
Lemma finditer_chained p text : chained (length text) 0 (finditer p text).
Proof. apply finditer_loop_chained. lia. Qed.

Lemma finditer_subject p text : subject text (finditer p text).
Proof. apply finditer_loop_subject. Qed.

(** With more fuel than the measure the loop ends because the search
    fails, and its result does not depend on the fuel. *)
Lemma finditer_loop_fuel p text : forall f1 f2 pos must_advance,
  pos <= length text ->
  budget text pos must_advance < f1 ->
  budget text pos must_advance < f2 ->
  finditer_loop f1 p text pos must_advance = finditer_loop f2 p text pos must_advance.
Proof.
  induction f1 as [|f1 IH]; intros f2 pos ma Hpos H1 H2; [lia|].
  destruct f2 as [|f2]; [lia|]. simpl.
  destruct (search p text pos ma) as [[s e]|] eqn:Hs; [|reflexivity].
  apply search_range in Hs. destruct Hs as (Hps & Hse & He & Hadv).
  f_equal.
  assert (budget text e (e =? s) < budget text pos ma) as Hlt.
  { unfold budget in *. destruct (Nat.eqb_spec e s) as [->|Hne].
    - destruct ma; [|lia].
      destruct (Nat.eq_dec s pos) as [->|]; [specialize (Hadv eq_refl eq_refl)|]; lia.
    - destruct ma; lia. }
  apply IH; lia.
Qed.

Lemma finditer_fuel p text fuel :
  2 * length text + 2 <= fuel -> finditer p text = finditer_loop fuel p text 0 false.
Proof.
  intros H. unfold finditer. apply finditer_loop_fuel; unfold budget; lia.
Qed.

Lemma group_length text m :
  m_string m = text -> m_end m <= length text ->
  length (group m) = m_end m - m_start m.
Proof. intros <- H. unfold group. now apply slice_length. Qed.

Lemma repl_spec text m :
  m_string m = text -> m_end m <= length text ->
  repl m = repeat "x"%char (m_end m - m_start m).
Proof. intros H1 H2. unfold repl. now rewrite (group_length text m H1 H2). Qed.

(** [sub] keeps the length when every replacement is as long as its
    match. *)
Lemma sub_loop_length (f : Match -> str) text ms : forall i,
  chained (length text) i ms ->
  Forall (fun m => length (f m) = m_end m - m_start m) ms ->
  length (sub_loop f text i ms) = length text - i.
Proof.
  induction ms as [|m ms IH]; intros i Hc Hf; inversion Hc; subst; simpl.
  - rewrite slice_to_end, length_skipn. reflexivity.
  - inversion Hf; subst.
    rewrite !length_app, slice_length by lia.
    rewrite IH by assumption. lia.
Qed.

Lemma repl_lengths text ms i :
  chained (length text) i ms -> subject text ms ->
  Forall (fun m => length (repl m) = m_end m - m_start m) ms.
Proof.
  intros Hc Hs. apply Forall_forall. intros m Hm.
  destruct (chained_In _ _ _ _ Hc Hm) as (_ & _ & He).
  rewrite (repl_spec text), repeat_length; auto.
  exact (proj1 (Forall_forall _ _) Hs m Hm).
Qed.

Lemma unmute_expression_loop (rest : list Match) : forall (pre : list Match) text,
  for_range (length pre) (length rest) text (fun i text =>
    s <- index (map m_start (pre ++ rest)) i ;;
    m <- index (map group (pre ++ rest)) i ;;
    e <- index (map m_end (pre ++ rest)) i ;;
    Ok (slice text 0 s ++ m ++ slice text e (length text)))
  = Ok (fold_left restore rest text).
Proof.
  induction rest as [|m rest IH]; intros pre text; simpl; [reflexivity|].
  unfold index at 1 2 3.
  rewrite !nth_error_map, nth_error_app2, Nat.sub_diag by lia. simpl.
  specialize (IH (pre ++ [m]) (restore text m)).
  rewrite length_app, Nat.add_1_r, <- app_assoc in IH. simpl in IH.
  exact IH.
Qed.

Lemma unmute_expression_matches (ms : list Match) text :
  unmute_expression text (map m_start ms) (map m_end ms) (map group ms)
  = Ok (fold_left restore ms text).
Proof.
  unfold unmute_expression. rewrite length_map.
  apply (unmute_expression_loop ms []).
Qed.

(** Restoring the matches of a masking from the left: once the matches
    before [i] are back, the text is the original up to [i] followed by
    the masked rest. *)
Lemma restore_sub_loop text ms : forall i pre,
  length pre = i -> chained (length text) i ms -> subject text ms ->
  fold_left restore ms (pre ++ sub_loop repl text i ms) = pre ++ skipn i text.
Proof.
  induction ms as [|m ms IH]; intros i pre Hpre Hc Hs; inversion Hc; subst; simpl.
  - now rewrite slice_to_end.
  - pose proof (Forall_inv Hs) as Hm. pose proof (Forall_inv_tail Hs) as Hs'.
    simpl in Hm.
    set (s := m_start m) in *. set (e := m_end m) in *.
    assert (length (slice text (length pre) s) = s - length pre) as Hl1
      by (apply slice_length; lia).
    assert (length (repl m) = e - s) as Hl2
      by (rewrite (repl_spec text m), repeat_length; auto).
    assert (restore (pre ++ slice text (length pre) s ++ repl m
                       ++ sub_loop repl text e ms) m
            = (pre ++ slice text (length pre) s ++ group m)
                ++ sub_loop repl text e ms) as ->.
    { unfold restore. fold s e. rewrite slice_from_0, slice_to_end.
      rewrite (app_assoc pre), firstn_app_exact by (rewrite length_app; lia).
      rewrite (app_assoc _ (repl m)), skipn_app_exact
        by (rewrite !length_app; lia).
      now rewrite <- !app_assoc. }
    rewrite IH; [|rewrite !length_app, Hl1, (group_length text) by auto; fold s e; lia
                 |assumption|assumption].
    rewrite <- !app_assoc. f_equal. unfold group. rewrite Hm. fold s e.
    rewrite app_assoc, slice_join, slice_skipn_join by lia. reflexivity.
Qed.

Lemma fold_restore_sub p text :
  fold_left restore (finditer p text) (sub p repl text) = text.
Proof.
  unfold sub.
  apply (restore_sub_loop text (finditer p text) 0 [] eq_refl
           (finditer_chained p text) (finditer_subject p text)).
Qed.

Lemma sub_length p text : length (sub p repl text) = length text.
Proof.
  unfold sub. rewrite sub_loop_length.
  - lia.
  - apply finditer_chained.
  - apply (repl_lengths text _ 0); [apply finditer_chained|apply finditer_subject].
Qed.

Lemma mute_expression_inv text expr is_multiline r :
  mute_expression text expr is_multiline = Ok r ->
  exists p, compile expr is_multiline = Some p /\
    r = (sub p repl text, map m_start (finditer p text),
         map m_end (finditer p text), map group (finditer p text)).
Proof.
  unfold mute_expression, re_compile.
  destruct is_multiline;
    (destruct (compile expr _) as [p|] eqn:Hc; simpl; [|discriminate]);
    intros [= <-]; exists p; auto.
Qed.

Lemma mute_expression_raise text expr is_multiline e :
  mute_expression text expr is_multiline = Raise e ->
  e = ReError /\ compile expr is_multiline = None.
Proof.
  unfold mute_expression, re_compile.
  destruct is_multiline;
    (destruct (compile expr _) as [p|] eqn:Hc; simpl; [discriminate|]);
    intros [= <-]; auto.
Qed.

End ScannerFacts.

(** [C1] Round trip: whatever the text, the pattern and the flag, when
    [mute_expression] returns, [unmute_expression] applied to the masked
    text and the three lists it returned gives the original text back; and
    [mute_expression] returns unless the pattern does not compile. *)
Theorem unmute_mute_roundtrip `{RegexEngine} (text expr : str) (is_multiline : bool) :
  match mute_expression text expr is_multiline with
  | Ok (masked, expr_start, expr_end, expr_match) =>
      unmute_expression masked expr_start expr_end expr_match = Ok text
  | Raise e => e = ReError /\ compile expr is_multiline = None
  end.
Proof.
  destruct (mute_expression text expr is_multiline) as [[[[masked st] en] ma]|e] eqn:Hm.
  - apply mute_expression_inv in Hm. destruct Hm as (p & _ & [= -> -> -> ->]).
    rewrite unmute_expression_matches. f_equal. apply fold_restore_sub.
  - now apply mute_expression_raise in Hm.
Qed.

(** [C3] Length invariance: the masked text returned by [mute_expression]
    is exactly as long as the input text, for every text, pattern and
    flag. *)
Theorem mute_expression_length `{RegexEngine} (text expr : str) (is_multiline : bool) :
  match mute_expression text expr is_multiline with
  | Ok (masked, _, _, _) => length masked = length text
  | Raise e => e = ReError /\ compile expr is_multiline = None
  end.
Proof.
  destruct (mute_expression text expr is_multiline) as [[[[masked st] en] ma]|e] eqn:Hm.
  - apply mute_expression_inv in Hm. destruct Hm as (p & _ & [= -> -> -> ->]).
    apply sub_length.
  - now apply mute_expression_raise in Hm.
Qed.

(** The masking of a string literal and its round trip, on the reference
    engine. *)
Example mute_string_literal :
  mute_expression (E := reference_engine)
                  (lit "x = " ++ Demo.quoted (lit "if true")) Demo.STRING_RE false
  = Ok (lit "x = xxxxxxxxx", [4], [13], [Demo.quoted (lit "if true")]).
Proof. vm_compute. reflexivity. Qed.

Example unmute_string_literal :
  unmute_expression (lit "x = xxxxxxxxx") [4] [13] [Demo.quoted (lit "if true")]
  = Ok (lit "x = " ++ Demo.quoted (lit "if true")).
Proof. vm_compute. reflexivity. Qed.

(** ** What masking leaves in the text *)

Lemma nth_error_slice text a b j :
  nth_error (slice text a b) j = if j <? b - a then nth_error text (a + j) else None.
Proof. unfold slice. now rewrite nth_error_firstn, nth_error_skipn. Qed.

Lemma filled_slice text s e a b :
  filled text s e -> s <= a -> b <= e -> slice text a b = repeat "x"%char (b - a).
Proof.
  intros Hf Ha Hb. apply nth_error_ext. intros n. rewrite nth_error_slice.
  destruct (Nat.ltb_spec n (b - a)).
  - rewrite nth_error_repeat by assumption. apply Hf; lia.
  - symmetry. apply nth_error_None. now rewrite repeat_length.
Qed.

Lemma covered_before len ms : forall i j,
  chained len i ms -> j < i -> covered ms j = false.
Proof.
  induction ms as [|m ms IH]; intros i j Hc Hj; [reflexivity|].
  inversion Hc as [|? ? ? Hst Hse Hel Hrest]; subst. simpl.
  rewrite (IH (m_end m) j) by (assumption || lia).
  destruct (Nat.leb_spec (m_start m) j); [lia|reflexivity].
Qed.

Lemma covered_In ms m j :
  In m ms -> m_start m <= j -> j < m_end m -> covered ms j = true.
Proof.
  intros Hm Hs He. apply existsb_exists. exists m. split; [assumption|].
  apply andb_true_iff. split; [now apply Nat.leb_le|now apply Nat.ltb_lt].
Qed.

Section MaskFacts.
Context {E : RegexEngine}.

(** The masked text, character by character: the filler inside the
    matches, the original text elsewhere. *)
Lemma sub_loop_nth text ms : forall i j,
  chained (length text) i ms -> subject text ms -> i <= j ->
  nth_error (sub_loop repl text i ms) (j - i)
  = if covered ms j then Some "x"%char else nth_error text j.
Proof.
  induction ms as [|m ms IH]; intros i j Hc Hs Hij;
    inversion Hc as [|? ? ? Hst Hse Hel Hrest]; subst; simpl.
  - rewrite slice_to_end, nth_error_skipn. f_equal. lia.
  - pose proof (Forall_inv Hs) as Hm. pose proof (Forall_inv_tail Hs) as Hs'.
    simpl in Hm.
    assert (length (slice text i (m_start m)) = m_start m - i) as Hl1
      by (apply slice_length; lia).
    assert (repl m = repeat "x"%char (m_end m - m_start m)) as Hr
      by (now apply (repl_spec text)).
    destruct (Nat.ltb_spec j (m_start m)) as [Hlt|Hge].
    + rewrite nth_error_app1 by lia. rewrite nth_error_slice.
      destruct (Nat.ltb_spec (j - i) (m_start m - i)); [|lia].
      destruct (Nat.leb_spec (m_start m) j); [lia|]. simpl.
      rewrite (covered_before _ _ _ _ Hrest) by lia. f_equal. lia.
    + rewrite nth_error_app2 by lia. rewrite Hl1, Hr.
      destruct (Nat.ltb_spec j (m_end m)) as [Hlt'|Hge'].
      * rewrite nth_error_app1 by (rewrite repeat_length; lia).
        rewrite nth_error_repeat by lia.
        destruct (Nat.leb_spec (m_start m) j); [|lia]. reflexivity.
      * rewrite nth_error_app2 by (rewrite repeat_length; lia).
        rewrite repeat_length.
        replace (j - i - (m_start m - i) - (m_end m - m_start m)) with (j - m_end m) by lia.
        rewrite IH by (assumption || lia).
        destruct (Nat.leb_spec (m_start m) j); [|lia]. reflexivity.
Qed.

Lemma sub_nth p text j :
  nth_error (sub p repl text) j
  = if covered (finditer p text) j then Some "x"%char else nth_error text j.
Proof.
  unfold sub. rewrite <- (Nat.sub_0_r j) at 1.
  apply sub_loop_nth; [apply finditer_chained|apply finditer_subject|lia].
Qed.

(** Every recorded match is filled in the masked text. *)
Lemma sub_filled p text m :
  In m (finditer p text) -> filled (sub p repl text) (m_start m) (m_end m).
Proof.
  intros Hm j Hs He. rewrite sub_nth, (covered_In _ m); auto.
Qed.

(** A later masking leaves the filler of an earlier one in place. *)
Lemma sub_keeps_filled p text s e :
  filled text s e -> filled (sub p repl text) s e.
Proof.
  intros Hf j Hs He. rewrite sub_nth. destruct (covered _ j); auto.
Qed.

(** The [i]-th entries of the recorded lists are the ends of the [i]-th
    match. *)
Lemma recorded_span (ms : list Match) i s e :
  nth_error (map m_start ms) i = Some s ->
  nth_error (map m_end ms) i = Some e ->
  exists m, In m ms /\ m_start m = s /\ m_end m = e.
Proof.
  rewrite !nth_error_map. destruct (nth_error ms i) as [m|] eqn:Hm; [|discriminate].
  simpl. intros [= <-] [= <-]. exists m. split; [|auto].
  eapply nth_error_In; eassumption.
Qed.

Lemma finditer_group p text m :
  In m (finditer p text) -> group m = slice text (m_start m) (m_end m).
Proof.
  intros Hm. unfold group.
  now rewrite (proj1 (Forall_forall _ _) (finditer_subject p text) m Hm).
Qed.

End MaskFacts.

(** [C6], amended: the filler is the letter [x]; every span recorded by a
    masking holds only that letter in the masked text, so a match of any
    rule pattern that lies inside such a span is a match on a run of [x]
    (a pattern that matches no run of [x] has no match there). *)
Theorem placeholder_is_filler `{RegexEngine}
        (text expr : str) (is_multiline : bool)
        (masked : str) (expr_start expr_end : list nat) (expr_match : list str)
        (i s e : nat) :
  mute_expression text expr is_multiline = Ok (masked, expr_start, expr_end, expr_match) ->
  nth_error expr_start i = Some s -> nth_error expr_end i = Some e ->
  slice masked s e = repeat "x"%char (e - s) /\
  forall regex dotall p m,
    compile regex dotall = Some p -> In m (finditer p masked) ->
    s <= m_start m -> m_end m <= e ->
    group m = repeat "x"%char (m_end m - m_start m).
Proof.
  intros Hm Hs He. apply mute_expression_inv in Hm.
  destruct Hm as (p0 & _ & [= -> -> -> ->]).
  destruct (recorded_span _ _ _ _ Hs He) as (m0 & Hm0 & <- & <-).
  pose proof (sub_filled _ _ _ Hm0) as Hf.
  split.
  - apply (filled_slice _ _ _ _ _ Hf); lia.
  - intros regex dotall p m _ Hin Hlo Hhi.
    rewrite (finditer_group _ _ _ Hin). apply (filled_slice _ _ _ _ _ Hf); lia.
Qed.

Lemma placeholder_is_filler_witness :
  slice (lit "xxx") 0 3 = repeat "x"%char (3 - 0).
Proof.
  apply (placeholder_is_filler (H := reference_engine)
           (Demo.quoted (lit "a")) Demo.STRING_RE false
           (lit "xxx") [0] [3] [Demo.quoted (lit "a")] 0 0 3);
    reflexivity.
Defined.

(** [C6] fails as it stands: masking the string literal made of the letter
    a between double quotes leaves [xxx], and the rule pattern [\w+] matches
    all of it. *)
Lemma placeholder_matchable : ~ placeholder_unmatchable reference_engine.
Proof.
  intros Hclaim.
  apply (Hclaim (Demo.quoted (lit "a")) Demo.STRING_RE false
                (lit "xxx") [0] [3] [Demo.quoted (lit "a")]
                (lit "\w+") false
                (RefEngine.RSeq
                   (RefEngine.RRepeat
                      (RefEngine.ASet false [RefEngine.IClass false RefEngine.Word])
                      1 None true)
                   RefEngine.REmpty, false)
                {| m_string := lit "xxx"; m_start := 0; m_end := 3 |} 0 0 3);
    try reflexivity.
  - left. reflexivity.
  - simpl. lia.
Qed.

(** ** The passes of [colorize] *)

Lemma firstn_app_ge {A} (l1 l2 : list A) n :
  length l1 <= n -> firstn n (l1 ++ l2) = l1 ++ firstn (n - length l1) l2.
Proof. intros H. now rewrite firstn_app, firstn_all2. Qed.

Lemma skipn_app_ge {A} (l1 l2 : list A) n :
  length l1 <= n -> skipn n (l1 ++ l2) = skipn (n - length l1) l2.
Proof. intros H. now rewrite skipn_app, skipn_all2. Qed.

Section ColorizeFacts.
Context {E : RegexEngine}.

Lemma gated_mute_inv (applied : bool) text expr dotall out rec :
  (if applied
   then '(t, a, b, c) <- mute_expression text expr dotall ;; Ok (t, Some (a, b, c))
   else Ok (text, None)) = Ok (out, rec) ->
  exists ms, stage applied text expr dotall out rec ms.
Proof.
  destruct applied; simpl.
  - destruct (mute_expression text expr dotall) as [[[[t a] b] c]|] eqn:Hm;
      simpl; [|discriminate].
    intros [= <- <-]. apply mute_expression_inv in Hm.
    destruct Hm as (p & Hp & [= -> -> -> ->]).
    exists (finditer p text), p. auto.
  - intros [= <- <-]. exists []. auto.
Qed.

Lemma colorize_mute_inv text kind strexpr comexpr mlcomexpr masked ml s c :
  colorize_mute text kind strexpr comexpr mlcomexpr = Ok (masked, ml, s, c) ->
  exists t1 t2 mls ss cs,
    stage (negb (kind_is kind "mlcomment")) text mlcomexpr true t1 ml mls /\
    stage (negb (kind_is kind "string") && negb (kind_is kind "mlcomment"))
          t1 strexpr false t2 s ss /\
    stage (negb (kind_is kind "comment")) t2 comexpr false masked c cs.
Proof.
  unfold colorize_mute.
  match goal with
  | |- bind ?g _ = _ -> _ => destruct g as [[t1 ml']|] eqn:H1; simpl; [|discriminate]
  end.
  match goal with
  | |- bind ?g _ = _ -> _ => destruct g as [[t2 s']|] eqn:H2; simpl; [|discriminate]
  end.
  match goal with
  | |- bind ?g _ = _ -> _ => destruct g as [[t3 c']|] eqn:H3; simpl; [|discriminate]
  end.
  intros [= <- <- <- <-].
  apply gated_mute_inv in H1, H2, H3.
  destruct H1 as [mls H1], H2 as [ss H2], H3 as [cs H3].
  exists t1, t2, mls, ss, cs. auto.
Qed.

Lemma stage_length applied text expr dotall out rec ms :
  stage applied text expr dotall out rec ms -> length out = length text.
Proof.
  destruct applied; simpl.
  - intros (p & _ & _ & -> & _). apply sub_length.
  - now intros (-> & _).
Qed.

Lemma stage_chained applied text expr dotall out rec ms :
  stage applied text expr dotall out rec ms ->
  chained (length text) 0 ms /\ subject text ms.
Proof.
  destruct applied; simpl.
  - intros (p & _ & -> & _). split; [apply finditer_chained|apply finditer_subject].
  - intros (_ & _ & ->). split; constructor. lia.
Qed.

(** The masked text of a stage with its matches put back is the text the
    stage started from. *)
Lemma stage_restore applied text expr dotall out rec ms :
  stage applied text expr dotall out rec ms -> fold_left restore ms out = text.
Proof.
  destruct applied; simpl.
  - intros (p & _ & -> & -> & _). apply fold_restore_sub.
  - now intros (-> & _ & ->).
Qed.

Lemma stage_keeps_filled applied text expr dotall out rec ms s e :
  stage applied text expr dotall out rec ms -> filled text s e -> filled out s e.
Proof.
  destruct applied; simpl.
  - intros (p & _ & _ & -> & _). apply sub_keeps_filled.
  - now intros (-> & _).
Qed.

(** The gated unmute of a stage puts its matches back, whatever the text
    it is applied to; its variables are bound whenever it reads them. *)
Lemma stage_unmute applied text expr dotall out rec ms t :
  stage applied text expr dotall out rec ms ->
  (if applied
   then '(a, b, c) <- local rec ;; unmute_expression t a b c
   else Ok t) = Ok (fold_left restore ms t).
Proof.
  destruct applied; simpl.
  - intros (p & _ & _ & _ & ->). simpl. apply unmute_expression_matches.
  - now intros (_ & _ & ->).
Qed.

Lemma restore_length t m :
  m_start m <= m_end m -> m_end m <= length t ->
  length (group m) = m_end m - m_start m ->
  length (restore t m) = length t.
Proof.
  intros Hse He Hg. unfold restore.
  rewrite !length_app, Hg, !slice_length by lia. lia.
Qed.

Lemma fold_restore_length ms : forall t len i,
  length t = len -> chained len i ms ->
  Forall (fun m => length (group m) = m_end m - m_start m) ms ->
  length (fold_left restore ms t) = len.
Proof.
  induction ms as [|m ms IH]; intros t len i Ht Hc Hg; simpl; [assumption|].
  inversion Hc as [|? ? ? Hst Hse Hel Hrest]; subst.
  apply (IH _ _ (m_end m)); [|assumption|exact (Forall_inv_tail Hg)].
  apply restore_length; [assumption..|exact (Forall_inv Hg)].
Qed.

Lemma group_lengths text ms i :
  chained (length text) i ms -> subject text ms ->
  Forall (fun m => length (group m) = m_end m - m_start m) ms.
Proof.
  intros Hc Hs. apply Forall_forall. intros m Hm.
  destruct (chained_In _ _ _ _ Hc Hm) as (_ & _ & He).
  apply (group_length text); [|assumption].
  exact (proj1 (Forall_forall _ _) Hs m Hm).
Qed.

Lemma stage_unmute_length applied text expr dotall out rec ms t :
  stage applied text expr dotall out rec ms ->
  length t = length text -> length (fold_left restore ms t) = length text.
Proof.
  intros Hst Ht. destruct (stage_chained _ _ _ _ _ _ _ Hst) as [Hc Hs].
  apply (fold_restore_length ms t _ 0 Ht Hc). now apply (group_lengths text _ 0).
Qed.

(** After a successful masking phase the unmute phase succeeds: it puts
    back the strings, then the comments, then the multi-line comments,
    and the text keeps its length. *)
Lemma colorize_unmute_run text kind strexpr comexpr mlcomexpr masked ml s c :
  colorize_mute text kind strexpr comexpr mlcomexpr = Ok (masked, ml, s, c) ->
  exists t1 t2 mls ss cs,
    stage (negb (kind_is kind "mlcomment")) text mlcomexpr true t1 ml mls /\
    stage (negb (kind_is kind "string") && negb (kind_is kind "mlcomment"))
          t1 strexpr false t2 s ss /\
    stage (negb (kind_is kind "comment")) t2 comexpr false masked c cs /\
    colorize_unmute masked kind ml s c
    = Ok (fold_left restore mls (fold_left restore cs (fold_left restore ss masked))) /\
    length (fold_left restore mls (fold_left restore cs (fold_left restore ss masked)))
    = length masked.
Proof.
  intros Hm. apply colorize_mute_inv in Hm.
  destruct Hm as (t1 & t2 & mls & ss & cs & H1 & H2 & H3).
  exists t1, t2, mls, ss, cs. repeat (split; [assumption|]).
  pose proof (stage_length _ _ _ _ _ _ _ H1) as L1.
  pose proof (stage_length _ _ _ _ _ _ _ H2) as L2.
  pose proof (stage_length _ _ _ _ _ _ _ H3) as L3.
  split.
  - unfold colorize_unmute.
    rewrite (stage_unmute _ _ _ _ _ _ _ masked H2). simpl.
    rewrite (stage_unmute _ _ _ _ _ _ _ _ H3). simpl.
    rewrite (stage_unmute _ _ _ _ _ _ _ _ H1). reflexivity.
  - assert (length (fold_left restore ss masked) = length masked) as La
      by (rewrite (stage_unmute_length _ _ _ _ _ _ _ masked H2); lia).
    assert (length (fold_left restore cs (fold_left restore ss masked)) = length masked)
      as Lb by (rewrite (stage_unmute_length _ _ _ _ _ _ _ _ H3); lia).
    rewrite (stage_unmute_length _ _ _ _ _ _ _ _ H1); lia.
Qed.

End ColorizeFacts.

(** ** Painting *)

#[local] Arguments opening : simpl never.
#[local] Arguments reset : simpl never.

Lemma render_pieces c text ms : forall i,
  concat (map render (pieces c text i ms)) = sub_loop (highlight c) text i ms.
Proof.
  induction ms as [|m ms IH]; intros i; simpl.
  - apply app_nil_r.
  - rewrite IH. unfold highlight. now rewrite <- !app_assoc.
Qed.

Section PaintFacts.
Context {E : RegexEngine}.

(** The painting loop on the matches [rest], entered with the matches
    before them painted: [W] is the painted text up to [i], followed by
    the unpainted rest of the text, and the nudge is what [W] has gained. *)
Lemma paint_loop c more text (rest : list Match) : forall pre post W i nudge,
  length W = i + nudge ->
  chained (length text) i rest ->
  Forall (fun m => length (group m) = m_end m - m_start m) rest ->
  for_range (length pre) (length rest) (W ++ skipn i text, nudge)
            (paint_step (c :: more)
                        (map m_start (pre ++ rest ++ post))
                        (map m_end (pre ++ rest ++ post))
                        (map group (pre ++ rest ++ post)))
  = Ok (W ++ sub_loop (highlight c) text i rest,
        nudge + length rest * (length (opening c) + length reset)).
Proof.
  induction rest as [|m rest IH]; intros pre post W i nudge HW Hc Hg;
    inversion Hc as [|? ? ? Hst Hse Hel Hrest]; subst.
  - cbn. rewrite slice_to_end, Nat.add_0_r. reflexivity.
  - pose proof (Forall_inv Hg) as Hgm. cbn beta in Hgm.
    specialize (IH (pre ++ [m]) post
                   (W ++ slice text i (m_start m) ++ highlight c m) (m_end m)
                   (nudge + (length (opening c) + length reset))).
    replace (length (pre ++ [m])) with (S (length pre)) in IH
      by (rewrite length_app; cbn; lia).
    replace ((pre ++ [m]) ++ rest ++ post) with (pre ++ (m :: rest) ++ post) in IH
      by (now rewrite <- app_assoc).
    cbn [length for_range sub_loop]. unfold paint_step at 1. unfold index.
    rewrite !nth_error_map, nth_error_app2, Nat.sub_diag by lia.
    cbn [app nth_error option_map bind].
    rewrite slice_from_0, slice_to_end.
    rewrite firstn_app_ge, skipn_app_ge by lia.
    replace (m_start m + nudge - length W) with (m_start m - i) by lia.
    replace (m_end m + nudge - length W) with (m_end m - i) by lia.
    rewrite <- skipn_add. replace (i + (m_end m - i)) with (m_end m) by lia.
    fold (slice text i (m_start m)). fold (highlight c m).
    replace ((W ++ slice text i (m_start m)) ++ highlight c m ++ skipn (m_end m) text)
      with ((W ++ slice text i (m_start m) ++ highlight c m) ++ skipn (m_end m) text)
      by (now rewrite <- !app_assoc).
    cbn [app] in IH. rewrite IH.
    + rewrite <- !app_assoc. f_equal. f_equal. lia.
    + unfold highlight. rewrite !length_app, slice_length, Hgm by lia. lia.
    + assumption.
    + exact (Forall_inv_tail Hg).
Qed.

(** The state of the painting loop after [k] rounds: the first [k]
    matches are wrapped, the rest of the text is untouched, and the nudge
    is the length of the [k] opening and [k] reset sequences. *)
Lemma paint_rounds c more text (ms : list Match) k :
  k <= length ms ->
  chained (length text) 0 ms ->
  Forall (fun m => length (group m) = m_end m - m_start m) ms ->
  for_range 0 k (text, 0)
            (paint_step (c :: more) (map m_start ms) (map m_end ms) (map group ms))
  = Ok (sub_loop (highlight c) text 0 (firstn k ms),
        k * (length (opening c) + length reset)).
Proof.
  intros Hk Hc Hg.
  pose proof (paint_loop c more text (firstn k ms) [] (skipn k ms) [] 0 0 eq_refl) as H.
  simpl in H. rewrite firstn_skipn, length_firstn, Nat.min_l in H by assumption.
  apply H.
  - now apply chained_firstn.
  - apply Forall_forall. intros m Hm. apply (proj1 (Forall_forall _ _) Hg).
    rewrite <- (firstn_skipn k ms). apply in_or_app. now left.
Qed.

Lemma colorize_paint_run c more text (ms : list Match) :
  chained (length text) 0 ms ->
  Forall (fun m => length (group m) = m_end m - m_start m) ms ->
  colorize_paint text (c :: more) (map m_start ms) (map m_end ms) (map group ms)
  = Ok (sub_loop (highlight c) text 0 ms,
        length ms * (length (opening c) + length reset)).
Proof.
  intros Hc Hg. unfold colorize_paint.
  pose proof (paint_rounds c more text ms (length ms) (le_n _) Hc Hg) as H.
  rewrite firstn_all in H. rewrite length_map. exact H.
Qed.

Lemma colorize_find_run text regex kind p :
  compile regex (kind_is kind "mlcomment") = Some p ->
  colorize_find text regex kind
  = Ok (map m_start (finditer p text), map m_end (finditer p text),
        map group (finditer p text)).
Proof.
  intros Hp. unfold colorize_find, re_compile.
  destruct (kind_is kind "mlcomment"); rewrite Hp; reflexivity.
Qed.

End PaintFacts.

(** ** Counting the sequences in a painted text *)

Lemma plain_app u v : plain (u ++ v) <-> plain u /\ plain v.
Proof. apply Forall_app. Qed.

Lemma plain_slice text a b : plain text -> plain (slice text a b).
Proof.
  intros H. unfold slice.
  rewrite <- (firstn_skipn a text) in H. apply plain_app in H. destruct H as [_ H].
  rewrite <- (firstn_skipn (b - a) (skipn a text)) in H. now apply plain_app in H.
Qed.

Lemma plain_repeat_x n : plain (repeat "x"%char n).
Proof. apply Forall_forall. intros a Ha. apply repeat_spec in Ha. now subst a. Qed.

Lemma starts_with_refl_app q rest : starts_with q (q ++ rest) = true.
Proof.
  induction q as [|a q IH]; simpl; [reflexivity|].
  now rewrite Ascii.eqb_refl, IH.
Qed.

Lemma count_sub_plain q u v : plain u -> count_sub (ESC :: q) (u ++ v) = count_sub (ESC :: q) v.
Proof.
  induction u as [|a u IH]; intros Hu; [reflexivity|].
  inversion Hu as [|? ? Ha Hu']; subst. cbn [app count_sub starts_with].
  destruct (Ascii.eqb_spec ESC a) as [Heq|_]; [congruence|].
  cbn [andb]. now rewrite IH.
Qed.

Lemma count_sub_plain_all q u : plain u -> count_sub (ESC :: q) u = 0.
Proof.
  intros Hu. rewrite <- (app_nil_r u). now rewrite count_sub_plain.
Qed.

(** An escape sequence [ESC :: qa] with a plain body in front of [rest]. *)
Lemma count_sub_sequence q qa rest :
  plain qa ->
  count_sub (ESC :: q) ((ESC :: qa) ++ rest)
  = (if starts_with q (qa ++ rest) then 1 else 0) + count_sub (ESC :: q) rest.
Proof.
  intros Hqa. cbn [app count_sub starts_with]. rewrite Ascii.eqb_refl. cbn [andb].
  now rewrite count_sub_plain.
Qed.

(** A colour code without the letter m is no prefix of the reset sequence,
    and the reset sequence is no prefix of its opening sequence, unless the
    code is [0]. *)
Lemma opening_not_reset c rest :
  ~ In "m"%char c -> c <> ["0"%char] ->
  starts_with (opening_body c) (reset_body ++ rest) = false /\
  starts_with reset_body (opening_body c ++ rest) = false.
Proof.
  intros Hm H0. unfold opening_body, reset_body.
  destruct c as [|a c]; [split; reflexivity|].
  cbn [app starts_with]. rewrite Ascii.eqb_refl. cbn [andb].
  destruct (Ascii.eqb_spec a "0"%char) as [->|Ha].
  - destruct c as [|b c]; [congruence|].
    cbn [app starts_with]. rewrite Ascii.eqb_refl. cbn [andb].
    assert (b <> "m"%char) as Hb by (intros ->; apply Hm; right; now left).
    destruct (Ascii.eqb_spec b "m"%char) as [Heq|_]; [congruence|].
    destruct (Ascii.eqb_spec "m"%char b) as [Heq|_]; [congruence|].
    split; reflexivity.
  - destruct (Ascii.eqb_spec "0"%char a) as [Heq|_]; [congruence|].
    split; reflexivity.
Qed.

Lemma plain_opening_body c : plain c -> plain (opening_body c).
Proof.
  intros Hc. unfold opening_body. constructor; [discriminate|].
  apply plain_app. split; [assumption|]. constructor; [discriminate|constructor].
Qed.

Lemma plain_reset_body : plain reset_body.
Proof. repeat constructor; discriminate. Qed.

(** In a painted plain text every opening sequence and every reset
    sequence is one that the painting inserted. *)
Lemma count_sub_painted c text ms : forall i,
  plain text -> Forall (fun m => plain (group m)) ms ->
  plain c -> ~ In "m"%char c -> c <> ["0"%char] ->
  count_sub (opening c) (sub_loop (highlight c) text i ms) = length ms /\
  count_sub reset (sub_loop (highlight c) text i ms) = length ms.
Proof.
  intros i Ht Hg Hc Hm H0. revert i.
  induction ms as [|m ms IH]; intros i; cbn [sub_loop length].
  - split; apply count_sub_plain_all; now apply plain_slice.
  - pose proof (Forall_inv Hg) as Hgm. cbn beta in Hgm.
    destruct (IH (Forall_inv_tail Hg) (m_end m)) as [IHo IHr].
    pose proof (plain_slice text i (m_start m) Ht) as Hs.
    pose proof (plain_opening_body c Hc) as Ho.
    unfold highlight.
    change (opening c) with (ESC :: opening_body c) in *.
    change reset with (ESC :: reset_body) in *.
    rewrite <- !app_assoc.
    set (rest := sub_loop _ text (m_end m) ms) in *.
    destruct (opening_not_reset c rest Hm H0) as [Hor _].
    destruct (opening_not_reset c (group m ++ (ESC :: reset_body) ++ rest) Hm H0)
      as [_ Hro].
    split.
    + rewrite count_sub_plain by assumption.
      rewrite count_sub_sequence by assumption.
      rewrite starts_with_refl_app.
      rewrite count_sub_plain by assumption.
      rewrite count_sub_sequence by apply plain_reset_body.
      rewrite Hor, IHo. reflexivity.
    + rewrite count_sub_plain by assumption.
      rewrite count_sub_sequence by assumption.
      rewrite Hro.
      rewrite count_sub_plain by assumption.
      rewrite count_sub_sequence by apply plain_reset_body.
      rewrite starts_with_refl_app, IHr. reflexivity.
Qed.

Section PlainFacts.
Context {E : RegexEngine}.

Lemma plain_sub_loop text ms : forall i,
  plain text -> plain (sub_loop repl text i ms).
Proof.
  induction ms as [|m ms IH]; intros i Ht; cbn [sub_loop].
  - now apply plain_slice.
  - apply plain_app. split; [now apply plain_slice|].
    apply plain_app. split; [apply plain_repeat_x|now apply IH].
Qed.

Lemma plain_groups text ms :
  plain text -> subject text ms -> Forall (fun m => plain (group m)) ms.
Proof.
  intros Ht Hs. apply Forall_forall. intros m Hm. unfold group.
  rewrite (proj1 (Forall_forall _ _) Hs m Hm). now apply plain_slice.
Qed.

Lemma plain_fold_restore ms : forall t,
  plain t -> Forall (fun m => plain (group m)) ms -> plain (fold_left restore ms t).
Proof.
  induction ms as [|m ms IH]; intros t Ht Hg; cbn [fold_left]; [assumption|].
  apply IH; [|exact (Forall_inv_tail Hg)]. unfold restore.
  apply plain_app. split; [now apply plain_slice|].
  apply plain_app. split; [exact (Forall_inv Hg)|now apply plain_slice].
Qed.

Lemma stage_plain applied text expr dotall out rec ms :
  stage applied text expr dotall out rec ms -> plain text ->
  plain out /\ Forall (fun m => plain (group m)) ms.
Proof.
  destruct applied; cbn [stage].
  - intros (p & _ & -> & -> & _) Ht. split.
    + now apply plain_sub_loop.
    + apply (plain_groups text); [assumption|apply finditer_subject].
  - intros (-> & _ & ->) Ht. split; [assumption|constructor].
Qed.

End PlainFacts.

(** ** The category of a pass *)

Lemma str_eqb_eq a b : str_eqb a b = true <-> a = b.
Proof.
  unfold str_eqb. destruct (list_eq_dec ascii_dec a b); split; congruence.
Qed.

Lemma kind_is_other kind name : kind <> lit name -> kind_is kind name = false.
Proof.
  intros Hne. unfold kind_is. destruct (str_eqb kind (lit name)) eqn:H; [|reflexivity].
  apply str_eqb_eq in H. contradiction.
Qed.

(** ** Strings and comments in a keyword pass *)

(** The two sources of the specification: the word if inside a string and
    inside a single-line comment; the keyword pass leaves both texts as
    they are. *)
Example keyword_in_string_not_painted :
  Demo.paint_keyword (lit "x = " ++ Demo.quoted (lit "if true")) Demo.KEYWORD_RE
  = Ok (lit "x = " ++ Demo.quoted (lit "if true")).
Proof. vm_compute. reflexivity. Qed.

Example keyword_in_comment_not_painted :
  Demo.paint_keyword (lit "// if x") Demo.KEYWORD_RE = Ok (lit "// if x").
Proof. vm_compute. reflexivity. Qed.


(** What the pass prints on that text: three painted letters x, the quotes
    gone. *)
Example painted_in_string_output :
  Demo.paint_keyword (Demo.quoted (lit "x")) (lit "x")
  = Ok (concat (repeat (ESC :: lit "[31mx" ++ ESC :: lit "[0m") 3)).
Proof. vm_compute. reflexivity. Qed.

(** ** The order of unmuting *)

Section UnmuteOrder.
Context {E : RegexEngine}.

(** In the reverse order of masking every pass gets its text back. *)
Lemma reversed_unmute_restores text kind strexpr comexpr mlcomexpr masked ml s c :
  colorize_mute text kind strexpr comexpr mlcomexpr = Ok (masked, ml, s, c) ->
  colorize_unmute_reversed masked kind ml s c = Ok text.
Proof.
  intros Hm. apply colorize_mute_inv in Hm.
  destruct Hm as (t1 & t2 & mls & ss & cs & H1 & H2 & H3).
  unfold colorize_unmute_reversed.
  rewrite (stage_unmute _ _ _ _ _ _ _ masked H3). simpl.
  rewrite (stage_restore _ _ _ _ _ _ _ H3).
  rewrite (stage_unmute _ _ _ _ _ _ _ t2 H2). simpl.
  rewrite (stage_restore _ _ _ _ _ _ _ H2).
  rewrite (stage_unmute _ _ _ _ _ _ _ t1 H1). simpl.
  now rewrite (stage_restore _ _ _ _ _ _ _ H1).
Qed.

End UnmuteOrder.

(** [C7] The pass unmutes the strings first, then the single-line comments,
    then the multi-line comments, which is not the reverse of the masking
    order.  On a single-line comment that holds a string (two slashes, a
    space, and the letter s between double quotes) the comment's recorded
    text, taken when the string was masked, overwrites the restored string:
    the pass returns the comment with [xxx] for the string, where the
    reverse order returns the source. *)
Theorem unmute_order_loses_string :
  let text := lit "// " ++ Demo.quoted (lit "s") in
  let kind := lit "keyword" in
  exists masked ml s c,
    colorize_mute (E := reference_engine) text kind
                  Demo.STRING_RE Demo.COMMENT_RE Demo.MLCOMMENT_RE
      = Ok (masked, ml, s, c) /\
    colorize_unmute masked kind ml s c = Ok (lit "// xxx") /\
    colorize_unmute_reversed masked kind ml s c = Ok text /\
    Demo.paint_keyword text Demo.KEYWORD_RE = Ok (lit "// xxx").
Proof.
  eexists _, _, _, _. split; [lazy; reflexivity|].
  repeat split; vm_compute; reflexivity.
Qed.

(** ** Splitting, dictionaries and the heap *)

Lemma for_each_app {A St} (xs ys : list A) (body : A -> St -> result St) : forall s,
  for_each (xs ++ ys) s body = (s' <- for_each xs s body ;; for_each ys s' body).
Proof.
  induction xs as [|x xs IH]; intros s; simpl; [reflexivity|].
  destruct (body x s); simpl; [apply IH|reflexivity].
Qed.

Lemma for_each_invariant {A St} (P : list A -> St -> Prop) (body : A -> St -> result St) :
  (forall done x s s', P done s -> body x s = Ok s' -> P (done ++ [x]) s') ->
  forall xs done s s', P done s -> for_each xs s body = Ok s' -> P (done ++ xs) s'.
Proof.
  intros Hstep. induction xs as [|x xs IH]; intros done s s' HP; simpl.
  - intros [= <-]. now rewrite app_nil_r.
  - destruct (body x s) as [s1|] eqn:Hb; simpl; [|discriminate].
    intros H. replace (done ++ x :: xs) with ((done ++ [x]) ++ xs)
      by (now rewrite <- app_assoc).
    eapply IH; [|eassumption]. eapply Hstep; eassumption.
Qed.

Lemma for_each_ext {A St} (xs : list A) (f g : A -> St -> result St) :
  (forall x s, In x xs -> f x s = g x s) ->
  forall s, for_each xs s f = for_each xs s g.
Proof.
  induction xs as [|x xs IH]; intros Hfg s; simpl; [reflexivity|].
  rewrite (Hfg x s) by now left.
  destruct (g x s); simpl; [|reflexivity].
  apply IH. intros y s' Hy. apply Hfg. now right.
Qed.

Lemma split_loop_nonempty sep s : forall skip cur, split_loop sep s skip cur <> [].
Proof.
  induction s as [|c s IH]; intros skip cur; simpl; [discriminate|].
  destruct skip; [destruct (starts_with sep (c :: s))|]; try discriminate; apply IH.
Qed.

Lemma split_nonempty sep s : split sep s <> [].
Proof. apply split_loop_nonempty. Qed.

Lemma split_loop_head sep s : forall cur,
  hd [] (split_loop sep s 0 cur) = rev cur ++ before sep s.
Proof.
  induction s as [|c s IH]; intros cur; simpl.
  - now rewrite app_nil_r.
  - destruct (starts_with sep (c :: s)); simpl.
    + now rewrite app_nil_r.
    + rewrite IH. simpl. now rewrite <- app_assoc.
Qed.

(** The first field of a split is the text before the first separator. *)
Lemma split_head sep s : hd [] (split sep s) = before sep s.
Proof. apply (split_loop_head sep s []). Qed.

Lemma starts_with_app sep s : starts_with sep s = true -> exists rest, s = sep ++ rest.
Proof.
  revert s. induction sep as [|a sep IH]; intros s; simpl.
  - intros _. now exists s.
  - destruct s as [|b s]; [discriminate|].
    intros H. apply andb_true_iff in H. destruct H as [Hab H].
    apply Ascii.eqb_eq in Hab. subst b.
    destruct (IH _ H) as [rest ->]. now exists rest.
Qed.

Lemma split_loop_second sep s : forall cur reg key more,
  split_loop sep s 0 cur = reg :: key :: more ->
  exists rest, s = before sep s ++ sep ++ rest.
Proof.
  induction s as [|c s IH]; intros cur reg key more; simpl; [discriminate|].
  destruct (starts_with sep (c :: s)) eqn:Hst.
  - intros _. apply starts_with_app in Hst. destruct Hst as [rest Hrest].
    exists rest. now rewrite Hrest.
  - intros H. apply IH in H. destruct H as [rest H]. exists rest.
    simpl. now rewrite <- H.
Qed.

(** When there is a second field, the separator stands right after the
    first one. *)
Lemma split_second sep s reg key more :
  split sep s = reg :: key :: more ->
  reg = before sep s /\ exists rest, s = reg ++ sep ++ rest.
Proof.
  intros H. pose proof (split_head sep s) as Hh. rewrite H in Hh. simpl in Hh.
  split; [assumption|]. subst reg. eapply split_loop_second. exact H.
Qed.

Lemma dict_get_set {V} (d : dict V) key v key' :
  dict_get (dict_set d key v) key' = if str_eqb key key' then Ok v else dict_get d key'.
Proof.
  induction d as [|[k w] d IH]; simpl.
  - destruct (str_eqb key key'); reflexivity.
  - destruct (str_eqb k key) eqn:Hk; simpl.
    + apply str_eqb_eq in Hk. subst k. destruct (str_eqb key key'); reflexivity.
    + destruct (str_eqb k key') eqn:Hk'.
      * destruct (str_eqb key key') eqn:Hkk'; [|reflexivity].
        apply str_eqb_eq in Hk', Hkk'. subst.
        assert (str_eqb key' key' = true) as Hr by now apply str_eqb_eq.
        congruence.
      * apply IH.
Qed.

Lemma dict_get_In {V} (d : dict V) key v : dict_get d key = Ok v -> In (key, v) d.
Proof.
  induction d as [|[k w] d IH]; simpl; [discriminate|].
  destruct (str_eqb k key) eqn:Hk.
  - apply str_eqb_eq in Hk. intros [= ->]. left. now subst.
  - intros H. right. now apply IH.
Qed.

Lemma dict_get_keys {V} (d : dict V) key :
  In key (dict_keys d) -> exists v, dict_get d key = Ok v.
Proof.
  induction d as [|[k w] d IH]; simpl; [intros []|].
  destruct (str_eqb k key) eqn:Hk; [now exists w|].
  intros [->|Hin]; [|now apply IH].
  assert (str_eqb key key = true) by now apply str_eqb_eq. congruence.
Qed.

Lemma dict_get_error {V} (d : dict V) key e : dict_get d key = Raise e -> e = KeyError.
Proof.
  induction d as [|[k w] d IH]; simpl; [now intros [= <-]|].
  destruct (str_eqb k key); [discriminate|assumption].
Qed.

Lemma dict_set_values {V} (d : dict V) key v x :
  In x (map snd (dict_set d key v)) -> x = v \/ In x (map snd d).
Proof.
  induction d as [|[k w] d IH]; simpl.
  - intros [<-|[]]. now left.
  - destruct (str_eqb k key); simpl.
    + intros [<-|H]; auto.
    + intros [<-|H]; auto. destruct (IH H); auto.
Qed.

Lemma dict_set_NoDup (d : dict nat) key n :
  (forall r, In r (map snd d) -> r < n) -> NoDup (map snd d) ->
  NoDup (map snd (dict_set d key n)).
Proof.
  induction d as [|[k w] d IH]; simpl; intros Hlt Hnd.
  - constructor; [intros []|constructor].
  - inversion Hnd as [|? ? Hw Hnd']; subst.
    destruct (str_eqb k key); simpl.
    + constructor; [|assumption]. intros Hin. specialize (Hlt n (or_intror Hin)). lia.
    + constructor.
      * intros Hin. apply dict_set_values in Hin. destruct Hin as [->|Hin]; [|auto].
        specialize (Hlt n (or_introl eq_refl)). lia.
      * apply IH; auto.
Qed.

(** References that are all different name different keys. *)
Lemma dict_get_injective (d : dict nat) k1 k2 r :
  NoDup (map snd d) -> dict_get d k1 = Ok r -> dict_get d k2 = Ok r -> k1 = k2.
Proof.
  intros Hnd H1 H2. apply dict_get_In in H1, H2.
  induction d as [|[k w] d IH]; [destruct H1|].
  simpl in Hnd. inversion Hnd as [|? ? Hw Hnd']; subst.
  destruct H1 as [E1|H1], H2 as [E2|H2].
  - congruence.
  - injection E1 as -> ->. exfalso. apply Hw.
    change r with (snd (k2, r)). now apply in_map.
  - injection E2 as -> ->. exfalso. apply Hw.
    change r with (snd (k1, r)). now apply in_map.
  - auto.
Qed.

Lemma deref_alloc_old h l r : r < length h -> deref (fst (alloc h l)) r = deref h r.
Proof. intros H. unfold deref, alloc. simpl. now apply app_nth1. Qed.

Lemma deref_alloc_new h l : deref (fst (alloc h l)) (snd (alloc h l)) = l.
Proof.
  unfold deref, alloc. simpl. rewrite app_nth2 by lia. now rewrite Nat.sub_diag.
Qed.

Lemma heap_update_length h f : forall r, length (heap_update h r f) = length h.
Proof.
  induction h as [|l h IH]; intros [|r]; simpl; auto.
Qed.

Lemma deref_update_same h f : forall r,
  r < length h -> deref (heap_update h r f) r = f (deref h r).
Proof.
  induction h as [|l h IH]; intros [|r] Hr; simpl in *; try lia; [reflexivity|].
  apply IH. lia.
Qed.

Lemma deref_update_other h f : forall r r',
  r <> r' -> deref (heap_update h r f) r' = deref h r'.
Proof.
  induction h as [|l h IH]; intros [|r] [|r'] Hne; simpl; auto; try contradiction.
  apply IH. lia.
Qed.

Lemma last_item_app {A} (l : list A) x : last_item (l ++ [x]) = Ok x.
Proof.
  unfold last_item, index. rewrite length_app, Nat.add_1_r.
  rewrite nth_error_app2, Nat.sub_diag by lia. reflexivity.
Qed.

Lemma but_last_app {A} (l : list A) x : but_last (l ++ [x]) = l.
Proof.
  unfold but_last. rewrite length_app, Nat.add_1_r. simpl. rewrite Nat.sub_0_r.
  now apply firstn_app_exact.
Qed.

(** ** The merged rules *)

Lemma str_eqb_refl a : str_eqb a a = true.
Proof. now apply str_eqb_eq. Qed.

Lemma str_eqb_neq a b : a <> b -> str_eqb a b = false.
Proof.
  intros H. destruct (str_eqb a b) eqn:Hab; [|reflexivity].
  apply str_eqb_eq in Hab. contradiction.
Qed.

Lemma colors_of_snoc_same done line :
  colors_of (theme_key line) (done ++ [line]) = theme_colors line.
Proof.
  unfold colors_of. rewrite filter_app, map_app. simpl.
  rewrite str_eqb_refl. simpl. apply last_last.
Qed.

Lemma colors_of_snoc_other k done line :
  theme_key line <> k -> colors_of k (done ++ [line]) = colors_of k done.
Proof.
  intros H. unfold colors_of. rewrite filter_app. simpl.
  rewrite (str_eqb_neq _ _ H). now rewrite app_nil_r.
Qed.

Lemma build_theme_step_run done line st :
  theme_inv done st ->
  exists st', build_theme_step line st = Ok st' /\ theme_inv (done ++ [line]) st'.
Proof.
  intros (Hsd & Hlt & Hnd & Hin & Hout).
  unfold build_theme_step. fold (theme_key line) (theme_colors line).
  destruct (theme_fields line) as [|key cols] eqn:Hf;
    [now destruct (split_nonempty _ _ Hf)|].
  assert (theme_key line = key) as Hkey by (unfold theme_key; now rewrite Hf).
  assert (theme_colors line = cols) as Hcols by (unfold theme_colors; now rewrite Hf).
  simpl. eexists. split; [reflexivity|].
  unfold theme_inv. simpl. repeat split.
  - assumption.
  - intros r Hr. rewrite length_app. simpl.
    apply dict_set_values in Hr. destruct Hr as [->|Hr]; [lia|].
    specialize (Hlt r Hr). lia.
  - now apply dict_set_NoDup.
  - intros k Hk. rewrite dict_get_set.
    destruct (str_eqb key k) eqn:Hkk.
    + apply str_eqb_eq in Hkk. subst k. eexists. split; [reflexivity|].
      rewrite <- Hkey, colors_of_snoc_same.
      apply (deref_alloc_new (objects st) (theme_colors line)).
    + assert (key <> k) as Hne by (intros ->; rewrite str_eqb_refl in Hkk; discriminate).
      rewrite map_app in Hk. apply in_app_or in Hk. simpl in Hk.
      destruct Hk as [Hk|[Hk|[]]]; [|congruence].
      destruct (Hin k Hk) as (r & Hr & Hd). exists r. split; [assumption|].
      rewrite colors_of_snoc_other by congruence. rewrite <- Hd.
      apply (deref_alloc_old (objects st) (theme_colors line)).
      apply Hlt. apply dict_get_In in Hr.
      change r with (snd (k, r)). now apply in_map.
  - intros k Hk. rewrite dict_get_set.
    rewrite map_app in Hk. simpl in Hk.
    destruct (str_eqb key k) eqn:Hkk.
    + apply str_eqb_eq in Hkk. subst k. exfalso. apply Hk.
      apply in_or_app. right. left. assumption.
    + apply Hout. intros H. apply Hk. apply in_or_app. now left.
Qed.

Lemma build_theme_loop theme : forall done st,
  theme_inv done st ->
  exists st', for_each theme st build_theme_step = Ok st' /\ theme_inv (done ++ theme) st'.
Proof.
  induction theme as [|line theme IH]; intros done st Hinv; simpl.
  - exists st. now rewrite app_nil_r.
  - destruct (build_theme_step_run done line st Hinv) as (st1 & -> & Hinv1). simpl.
    destruct (IH _ _ Hinv1) as (st' & Hrun & Hinv').
    exists st'. split; [assumption|]. now rewrite <- app_assoc in Hinv'.
Qed.

(** Building the theme dictionary never fails. *)
Lemma build_theme_run theme :
  exists st0, build_theme theme empty_store = Ok st0 /\ theme_inv theme st0.
Proof.
  apply (build_theme_loop theme [] empty_store).
  unfold theme_inv, empty_store. simpl. repeat split; auto.
  - intros r [].
  - constructor.
  - intros k [].
Qed.

Lemma syntax_rule_fields line reg key more :
  syntax_fields line = reg :: key :: more -> syntax_rule line = Some (reg, key).
Proof.
  unfold syntax_fields, syntax_rule. intros H. rewrite H.
  now destruct (split_second _ _ _ _ _ H) as [<- _].
Qed.

Lemma syntax_rule_inv line reg key :
  syntax_rule line = Some (reg, key) ->
  exists more, syntax_fields line = reg :: key :: more.
Proof.
  unfold syntax_fields, syntax_rule.
  destruct (split SEP _) as [|r [|k more]] eqn:H; try discriminate.
  intros [= <- <-]. exists more.
  now destruct (split_second _ _ _ _ _ H) as [<- _].
Qed.

Lemma regexes_of_snoc k done line reg key :
  syntax_rule line = Some (reg, key) ->
  regexes_of k (done ++ [line]) = regexes_of k done ++ (if str_eqb key k then [reg] else []).
Proof.
  intros H. unfold regexes_of. rewrite flat_map_app. simpl. rewrite H.
  now rewrite app_nil_r.
Qed.

Lemma dict_keys_set {V} (d : dict V) key v k :
  In k (dict_keys (dict_set d key v)) -> k = key \/ In k (dict_keys d).
Proof.
  unfold dict_keys. induction d as [|[k0 w] d IH]; simpl.
  - intros [<-|[]]. now left.
  - destruct (str_eqb k0 key); simpl.
    + intros [<-|H]; auto.
    + intros [<-|H]; auto. destruct (IH H); auto.
Qed.

(** What a successful round of the syntax loop did. *)
Lemma build_syntax_step_inv line st st' :
  build_syntax_step line st = Ok st' ->
  exists reg key r,
    syntax_rule line = Some (reg, key) /\
    dict_get (theme_dict st) key = Ok r /\
    st' = {| objects := heap_append (objects st) r reg;
             theme_dict := theme_dict st;
             syntax_dict := dict_set (syntax_dict st) key r |}.
Proof.
  unfold build_syntax_step.
  destruct (syntax_fields line) as [|reg [|key more]] eqn:Hf; try discriminate.
  unfold index. simpl.
  destruct (dict_get (theme_dict st) key) as [r|] eqn:Hr; simpl; [|discriminate].
  intros [= <-]. exists reg, key, r.
  split; [now apply (syntax_rule_fields line reg key more)|auto].
Qed.

(** A round of the syntax loop fails with a lookup error only: an
    [IndexError] on a line without separator, a [KeyError] on a category
    that the theme does not have. *)
Lemma build_syntax_step_raise line st e :
  build_syntax_step line st = Raise e ->
  (syntax_rule line = None /\ e = IndexError) \/
  (exists reg key, syntax_rule line = Some (reg, key) /\
                   dict_get (theme_dict st) key = Raise KeyError /\ e = KeyError).
Proof.
  unfold build_syntax_step.
  destruct (syntax_fields line) as [|reg [|key more]] eqn:Hf; unfold index; simpl.
  - intros [= <-]. left. unfold syntax_rule. unfold syntax_fields in Hf.
    now rewrite Hf.
  - intros [= <-]. left. unfold syntax_rule. unfold syntax_fields in Hf.
    now rewrite Hf.
  - destruct (dict_get (theme_dict st) key) as [r|e'] eqn:Hr; simpl; [discriminate|].
    intros [= <-]. right. exists reg, key.
    pose proof (dict_get_error _ _ _ Hr) as ->.
    split; [now apply (syntax_rule_fields line reg key more)|auto].
Qed.

Lemma build_syntax_step_keeps st0 done line st st' :
  theme_inv done st0 ->
  syntax_inv st0 [] st0 ->
  forall processed, syntax_inv st0 processed st ->
  build_syntax_step line st = Ok st' ->
  syntax_inv st0 (processed ++ [line]) st'.
Proof.
  intros (_ & Hlt & Hnd & _ & _) _ processed (Htd & Hlen & Hobj & Hkeys & Hsd) Hstep.
  apply build_syntax_step_inv in Hstep.
  destruct Hstep as (reg & key & r & Hrule & Hr & ->).
  rewrite Htd in Hr.
  assert (r < length (objects st)) as Hr_lt.
  { rewrite Hlen. apply Hlt. apply dict_get_In in Hr.
    change r with (snd (key, r)). now apply in_map. }
  unfold syntax_inv. simpl. repeat split.
  - assumption.
  - unfold heap_append. now rewrite heap_update_length, Hlen.
  - intros k r0 Hk. rewrite (regexes_of_snoc k processed line reg key Hrule).
    destruct (str_eqb key k) eqn:Hkk.
    + apply str_eqb_eq in Hkk. subst k.
      assert (r0 = r) as -> by congruence.
      unfold heap_append. rewrite deref_update_same by assumption.
      rewrite (Hobj key r Hr). now rewrite <- app_assoc.
    + assert (r <> r0) as Hne.
      { intros ->. rewrite (dict_get_injective _ _ _ _ Hnd Hr Hk) in Hkk.
        rewrite str_eqb_refl in Hkk. discriminate. }
      unfold heap_append. rewrite deref_update_other by assumption.
      rewrite app_nil_r. now apply Hobj.
  - intros k Hk. rewrite (regexes_of_snoc k processed line reg key Hrule).
    apply dict_keys_set in Hk. destruct Hk as [->|Hk].
    + rewrite str_eqb_refl. now destruct (regexes_of key processed).
    + specialize (Hkeys k Hk). destruct (regexes_of k processed); [contradiction|].
      discriminate.
  - intros k r0. rewrite dict_get_set. destruct (str_eqb key k) eqn:Hkk.
    + apply str_eqb_eq in Hkk. subst k. now intros [= <-].
    + apply Hsd.
Qed.

Lemma syntax_inv_start theme st0 : theme_inv theme st0 -> syntax_inv st0 [] st0.
Proof.
  intros (Hsd & _). unfold syntax_inv. rewrite Hsd. simpl. repeat split; auto.
  - intros k r _. now rewrite app_nil_r.
  - intros k r [=].
Qed.

(** The store after a successful merge, in terms of the two files. *)
Lemma merge_run theme syntax st :
  merge theme syntax = Ok st ->
  exists st0, build_theme theme empty_store = Ok st0 /\
              theme_inv theme st0 /\ syntax_inv st0 syntax st.
Proof.
  unfold merge. destruct (build_theme_run theme) as (st0 & Hrun & Hinv).
  rewrite Hrun. simpl. intros Hs. exists st0.
  split; [reflexivity|]. split; [assumption|].
  pose proof (syntax_inv_start theme st0 Hinv) as Hstart.
  apply (for_each_invariant (syntax_inv st0) build_syntax_step
           (fun processed x s s' Hp Hb =>
              build_syntax_step_keeps st0 theme x s s' Hinv Hstart processed Hp Hb)
           syntax [] st0 st Hstart Hs).
Qed.

Lemma merged_item theme syntax st key :
  merge theme syntax = Ok st ->
  In key (dict_keys (syntax_dict st)) ->
  regexes_of key syntax <> [] /\
  syntax_item st key = Ok (colors_of key theme ++ regexes_of key syntax).
Proof.
  intros Hm Hkey. apply merge_run in Hm.
  destruct Hm as (st0 & _ & (_ & _ & _ & Hin & Hout) & (_ & _ & Hobj & Hkeys & Hsd)).
  split; [now apply Hkeys|].
  destruct (dict_get_keys _ _ Hkey) as [r Hr].
  unfold syntax_item. rewrite Hr. simpl. f_equal.
  specialize (Hsd _ _ Hr). rewrite (Hobj _ _ Hsd). f_equal.
  destruct (in_dec (list_eq_dec ascii_dec) key (map theme_key theme)) as [Hk|Hk].
  - destruct (Hin key Hk) as (r' & Hr' & Hd). congruence.
  - rewrite (Hout key Hk) in Hsd. discriminate.
Qed.

Lemma remove_char_absent c l : ~ In c l -> remove_char c l = l.
Proof.
  intros H. unfold remove_char. induction l as [|a l IH]; simpl; [reflexivity|].
  destruct (Ascii.eqb_spec a c) as [->|_]; simpl.
  - exfalso. apply H. now left.
  - f_equal. apply IH. intros Hin. apply H. now right.
Qed.

Lemma remove_char_In a c l : In a (remove_char c l) -> In a l.
Proof. unfold remove_char. intros H. apply filter_In in H. tauto. Qed.

Lemma starts_with_app_long sep : forall s t,
  length sep <= length s -> starts_with sep (s ++ t) = starts_with sep s.
Proof.
  induction sep as [|a sep IH]; intros [|b s] t; simpl; try lia; try reflexivity.
  intros H. rewrite IH by lia. reflexivity.
Qed.

(** What follows a text that holds the separator does not change what
    stands before the separator. *)
Lemma before_app sep b t :
  (exists rest, b = before sep b ++ sep ++ rest) ->
  before sep (b ++ t) = before sep b.
Proof.
  induction b as [|c b IH]; intros [rest Hrest].
  - simpl in Hrest. destruct sep; [|discriminate]. destruct t; reflexivity.
  - assert (length sep <= length (c :: b)) as Hlen.
    { pose proof (f_equal (@length ascii) Hrest) as Hl.
      rewrite !length_app in Hl. lia. }
    cbn [app before]. change (c :: b ++ t) with ((c :: b) ++ t).
    rewrite (starts_with_app_long sep (c :: b) t Hlen).
    destruct (starts_with sep (c :: b)) eqn:Hst; [reflexivity|].
    f_equal. apply IH. simpl in Hrest. rewrite Hst in Hrest.
    injection Hrest as Hrest. now exists rest.
Qed.

(** On a line of a file the newline is past the separator, so the pattern
    text is the text before the separator with just the spaces removed. *)
Lemma syntax_rule_spaces line reg key :
  file_line line -> syntax_rule line = Some (reg, key) ->
  reg = before SEP (remove_char " "%char line).
Proof.
  intros (body & Hnl & Hline). unfold syntax_rule.
  assert (~ In NL (remove_char " "%char body)) as Hnl'
    by (intros H; apply Hnl; eapply remove_char_In; exact H).
  destruct Hline as [-> | ->].
  - rewrite (remove_char_absent NL _ Hnl').
    destruct (split SEP _) as [|r [|k more]]; try discriminate. now intros [= <- _].
  - assert (remove_char " "%char (body ++ [NL]) = remove_char " "%char body ++ [NL]) as ->.
    { unfold remove_char. now rewrite filter_app. }
    assert (remove_char NL (remove_char " "%char body ++ [NL]) = remove_char " "%char body)
      as ->.
    { unfold remove_char at 1. rewrite filter_app. simpl. rewrite app_nil_r.
      now apply remove_char_absent. }
    destruct (split SEP (remove_char " "%char body)) as [|r [|k more]] eqn:Hsp;
      try discriminate.
    intros [= <- _]. symmetry. apply before_app.
    destruct (split_second _ _ _ _ _ Hsp) as [-> Hrest]. exact Hrest.
Qed.

Lemma pattern_of_line key syntax :
  regexes_of key syntax <> [] ->
  exists line, In line syntax /\ syntax_rule line = Some (pattern_of key syntax, key) /\
               (file_line line ->
                pattern_of key syntax = before SEP (remove_char " "%char line)).
Proof.
  intros Hne. unfold pattern_of.
  assert (In (last (regexes_of key syntax) []) (regexes_of key syntax)) as Hin.
  { rewrite (app_removelast_last [] Hne) at 2. apply in_or_app. right. now left. }
  unfold regexes_of in Hin at 2. apply in_flat_map in Hin.
  destruct Hin as (line & Hline & Hin). exists line. split; [assumption|].
  destruct (syntax_rule line) as [[reg k]|] eqn:Hrule; [|destruct Hin].
  destruct (str_eqb k key) eqn:Hk; [|destruct Hin].
  apply str_eqb_eq in Hk. subst k. destruct Hin as [<-|[]].
  split; [reflexivity|]. intros Hfile. now apply (syntax_rule_spaces line reg key).
Qed.

Lemma merged_item_split theme syntax st key :
  merge theme syntax = Ok st ->
  In key (dict_keys (syntax_dict st)) ->
  syntax_item st key = Ok (color_list_of key theme syntax ++ [pattern_of key syntax]).
Proof.
  intros Hm Hkey. destruct (merged_item _ _ _ _ Hm Hkey) as [Hne ->].
  unfold color_list_of, pattern_of. rewrite <- app_assoc.
  f_equal. f_equal. now apply app_removelast_last.
Qed.

Section ColorfileFacts.
Context {E : RegexEngine}.

Lemma colorfile_pass_run theme syntax st key text strexpr comexpr mlcomexpr :
  merge theme syntax = Ok st ->
  In key (dict_keys (syntax_dict st)) ->
  colorfile_pass st strexpr comexpr mlcomexpr key text
  = colorize text (tl (pattern_of key syntax)) (color_list_of key theme syntax) key
             (tl strexpr) (tl comexpr) (tl mlcomexpr).
Proof.
  intros Hm Hkey. unfold colorfile_pass.
  rewrite (merged_item_split _ _ _ _ Hm Hkey). simpl.
  rewrite last_item_app, but_last_app. reflexivity.
Qed.

Lemma special_regex_run theme syntax st key :
  merge theme syntax = Ok st ->
  In key (dict_keys (syntax_dict st)) ->
  (l <- syntax_item st key ;; last_item l) = Ok (pattern_of key syntax).
Proof.
  intros Hm Hkey. rewrite (merged_item_split _ _ _ _ Hm Hkey). simpl.
  apply last_item_app.
Qed.

End ColorfileFacts.

(** [C10] The pattern of every category: after a successful merge, for
    every category of the syntax dictionary the regex that [colorfile] takes
    from the merged list is the pattern text of a syntax line of that
    category (the last one), that is the line's text before the separator
    with the spaces and the newline removed, which on a line of a file is
    the text before the separator with the spaces removed; the pass compiles
    it without its first character, and the string, comment and
    multi-line-comment patterns it masks with are taken the same way and
    lose their first character too. *)
Theorem colorfile_patterns `{RegexEngine} (theme syntax : list str) (st : store) :
  merge theme syntax = Ok st ->
  (forall key, In key (dict_keys (syntax_dict st)) ->
     (exists line, In line syntax /\
                   syntax_rule line = Some (pattern_of key syntax, key) /\
                   (file_line line ->
                    pattern_of key syntax = before SEP (remove_char " "%char line))) /\
     (l <- syntax_item st key ;; last_item l) = Ok (pattern_of key syntax) /\
     forall text strexpr comexpr mlcomexpr,
       colorfile_pass st strexpr comexpr mlcomexpr key text
       = colorize text (tl (pattern_of key syntax)) (color_list_of key theme syntax) key
                  (tl strexpr) (tl comexpr) (tl mlcomexpr)) /\
  (forall text,
     In (lit "string") (dict_keys (syntax_dict st)) ->
     In (lit "comment") (dict_keys (syntax_dict st)) ->
     In (lit "mlcomment") (dict_keys (syntax_dict st)) ->
     colorfile_paint st text
     = for_each (dict_keys (syntax_dict st)) text
         (fun key text =>
            colorize text (tl (pattern_of key syntax)) (color_list_of key theme syntax) key
                     (tl (pattern_of (lit "string") syntax))
                     (tl (pattern_of (lit "comment") syntax))
                     (tl (pattern_of (lit "mlcomment") syntax)))).
Proof.
  intros Hm. split.
  - intros key Hkey. split; [|split].
    + apply pattern_of_line. now destruct (merged_item _ _ _ _ Hm Hkey).
    + now apply (special_regex_run theme).
    + intros. now apply colorfile_pass_run.
  - intros text Hs Hc Hml. unfold colorfile_paint.
    rewrite (special_regex_run theme syntax st _ Hm Hs). cbn [bind].
    rewrite (special_regex_run theme syntax st _ Hm Hc). cbn [bind].
    rewrite (special_regex_run theme syntax st _ Hm Hml). cbn [bind].
    apply for_each_ext. intros key s Hkey. now apply colorfile_pass_run.
Qed.

Lemma colorfile_patterns_witness :
  (l <- syntax_item DemoFiles.STORE (lit "keyword") ;; last_item l)
  = Ok (DQUOTE :: Demo.KEYWORD_RE) /\
  colorfile_pass (E := reference_engine) DemoFiles.STORE [] [] [] (lit "keyword") (lit "if")
  = colorize (lit "if") Demo.KEYWORD_RE [lit "31"; lit "1"] (lit "keyword") [] [] [].
Proof.
  destruct (proj1 (colorfile_patterns (H := reference_engine)
                     DemoFiles.THEME DemoFiles.SYNTAX DemoFiles.STORE demo_merged)
                  (lit "keyword"))
    as (_ & Hreg & Hpass).
  - vm_compute. left. reflexivity.
  - split; [exact Hreg|]. exact (Hpass (lit "if") [] [] []).
Defined.

(** ** A category that the theme does not have *)

Lemma for_each_raise {A St} (xs : list A) (body : A -> St -> result St) : forall s e,
  for_each xs s body = Raise e -> exists x s', In x xs /\ body x s' = Raise e.
Proof.
  induction xs as [|x xs IH]; intros s e; simpl; [discriminate|].
  destruct (body x s) as [s1|e1] eqn:Hb; simpl.
  - intros H. destruct (IH _ _ H) as (y & s' & Hy & Hby). exists y, s'. auto.
  - intros [= <-]. exists x, s. auto.
Qed.

Lemma build_syntax_inv theme st0 syntax st :
  theme_inv theme st0 ->
  for_each syntax st0 build_syntax_step = Ok st ->
  syntax_inv st0 syntax st.
Proof.
  intros Hinv Hs. pose proof (syntax_inv_start theme st0 Hinv) as Hstart.
  apply (for_each_invariant (syntax_inv st0) build_syntax_step
           (fun processed x s s' Hp Hb =>
              build_syntax_step_keeps st0 theme x s s' Hinv Hstart processed Hp Hb)
           syntax [] st0 st Hstart Hs).
Qed.

(** [C8] Merge-time error: when a line of the syntax file names a category
    for which the theme file has no line, the merge raises a lookup error
    and [colorfile] ends with it, whatever the source text; the error is the
    [KeyError] of the theme lookup when every syntax line has the
    separator (a line without it raises an [IndexError] first). *)
Theorem missing_category_is_fatal `{RegexEngine}
        (theme syntax source : list str) (line reg category : str) :
  In line syntax ->
  syntax_rule line = Some (reg, category) ->
  ~ In category (map theme_key theme) ->
  exists e,
    merge theme syntax = Raise e /\
    is_LookupError e = true /\
    colorfile theme syntax source = Raise e /\
    (Forall (fun l => syntax_rule l <> None) syntax -> e = KeyError).
Proof.
  intros Hline Hrule Habsent.
  destruct (build_theme_run theme) as (st0 & Hrun & Hinv).
  assert (exists e, build_syntax syntax st0 = Raise e /\ is_LookupError e = true /\
                    (Forall (fun l => syntax_rule l <> None) syntax -> e = KeyError))
    as (e & He & Hlook & Hkey).
  { destruct (in_split _ _ Hline) as (l1 & l2 & ->).
    unfold build_syntax. rewrite for_each_app.
    destruct (for_each l1 st0 build_syntax_step) as [st1|e] eqn:H1; simpl.
    - exists KeyError. split; [|auto].
      destruct (build_syntax_inv theme st0 l1 st1 Hinv H1) as (Htd & _).
      destruct (syntax_rule_inv _ _ _ Hrule) as [more Hf].
      unfold build_syntax_step. rewrite Hf. unfold index. simpl.
      rewrite Htd.
      destruct Hinv as (_ & _ & _ & _ & Hout). rewrite (Hout _ Habsent). reflexivity.
    - exists e. split; [reflexivity|].
      destruct (for_each_raise _ _ _ _ H1) as (x & s' & Hx & Hb).
      apply build_syntax_step_raise in Hb.
      destruct Hb as [[Hnone ->]|(r & k & _ & _ & ->)]; split; auto.
      intros Hall. exfalso.
      apply (proj1 (Forall_forall _ _) Hall x); [|assumption].
      apply in_or_app. now left. }
  exists e. unfold colorfile, merge. rewrite Hrun. simpl. rewrite He. auto.
Qed.

Lemma missing_category_is_fatal_witness :
  exists e,
    merge [DemoFiles.theme_line "keyword: 31"]
          [DemoFiles.syntax_line Demo.KEYWORD_RE "keyword";
           DemoFiles.syntax_line (lit "\d+") "number"] = Raise e /\
    is_LookupError e = true /\
    colorfile (E := reference_engine)
              [DemoFiles.theme_line "keyword: 31"]
              [DemoFiles.syntax_line Demo.KEYWORD_RE "keyword";
               DemoFiles.syntax_line (lit "\d+") "number"]
              [lit "if 1"] = Raise e /\
    (Forall (fun l => syntax_rule l <> None)
            [DemoFiles.syntax_line Demo.KEYWORD_RE "keyword";
             DemoFiles.syntax_line (lit "\d+") "number"] -> e = KeyError).
Proof.
  apply (missing_category_is_fatal (H := reference_engine)
           [DemoFiles.theme_line "keyword: 31"]
           [DemoFiles.syntax_line Demo.KEYWORD_RE "keyword";
            DemoFiles.syntax_line (lit "\d+") "number"]
           [lit "if 1"]
           (DemoFiles.syntax_line (lit "\d+") "number")
           (DQUOTE :: lit "\d+") (lit "number")).
  - right. left. reflexivity.
  - vm_compute. reflexivity.
  - vm_compute. intros [H|[]]. discriminate.
Defined.

(** What the merge does on these two files. *)
Example missing_category_raises_KeyError :
  merge [DemoFiles.theme_line "keyword: 31"]
        [DemoFiles.syntax_line Demo.KEYWORD_RE "keyword";
         DemoFiles.syntax_line (lit "\d+") "number"] = Raise KeyError.
Proof. vm_compute. reflexivity. Qed.

(** * Further properties of the code *)

(** ** The spans that a masking records *)

Lemma chained_order len ms : forall k i j a b,
  chained len k ms -> nth_error ms i = Some a -> nth_error ms j = Some b ->
  i < j -> m_end a <= m_start b.
Proof.
  induction ms as [|m ms IH]; intros k i j a b Hc Hi Hj Hij;
    [destruct i; discriminate|].
  inversion Hc as [|? ? ? Hst Hse Hel Hrest]; subst.
  destruct j as [|j]; [lia|]. destruct i as [|i]; simpl in Hi, Hj.
  - injection Hi as <-. apply nth_error_In in Hj.
    now destruct (chained_In _ _ _ _ Hrest Hj).
  - apply (IH _ i j a b Hrest Hi Hj). lia.
Qed.

Lemma in_span_covered (ms : list Match) j :
  in_span (map m_start ms) (map m_end ms) j = covered ms j.
Proof.
  unfold in_span, covered. induction ms as [|m ms IH]; simpl; [reflexivity|].
  now rewrite IH.
Qed.

(** [X1] The three lists that [mute_expression] returns are equally long;
    the spans they give are in the text, in ascending order and do not
    overlap, and each recorded match is the text of its span. *)
Theorem mute_expression_spans `{RegexEngine}
        (text expr : str) (is_multiline : bool)
        (masked : str) (expr_start expr_end : list nat) (expr_match : list str) :
  mute_expression text expr is_multiline = Ok (masked, expr_start, expr_end, expr_match) ->
  length expr_start = length expr_match /\
  length expr_end = length expr_match /\
  (forall i s e, nth_error expr_start i = Some s -> nth_error expr_end i = Some e ->
                 s <= e /\ e <= length text /\
                 nth_error expr_match i = Some (slice text s e)) /\
  (forall i j e s, i < j -> nth_error expr_end i = Some e ->
                   nth_error expr_start j = Some s -> e <= s).
Proof.
  intros Hm. apply mute_expression_inv in Hm.
  destruct Hm as (p & _ & [= -> -> -> ->]).
  pose proof (finditer_chained p text) as Hc.
  rewrite !length_map. split; [reflexivity|]. split; [reflexivity|]. split.
  - intros i s e Hs He. rewrite nth_error_map in Hs, He. rewrite nth_error_map.
    destruct (nth_error (finditer p text) i) as [m|] eqn:Hm; [|discriminate].
    injection Hs as <-. injection He as <-.
    apply nth_error_In in Hm.
    destruct (chained_In _ _ _ _ Hc Hm) as (_ & Hse & Hel).
    repeat split; auto. simpl. f_equal. now apply (finditer_group p).
  - intros i j e s Hij He Hs. rewrite nth_error_map in He, Hs.
    destruct (nth_error (finditer p text) i) as [a|] eqn:Ha; [|discriminate].
    destruct (nth_error (finditer p text) j) as [b|] eqn:Hb; [|discriminate].
    injection He as <-. injection Hs as <-.
    exact (chained_order _ _ _ _ _ _ _ Hc Ha Hb Hij).
Qed.

Lemma mute_expression_spans_witness :
  length [4] = length [Demo.quoted (lit "if true")] /\
  length [13] = length [Demo.quoted (lit "if true")] /\
  (forall i s e, nth_error [4] i = Some s -> nth_error [13] i = Some e ->
                 s <= e /\ e <= length (lit "x = " ++ Demo.quoted (lit "if true")) /\
                 nth_error [Demo.quoted (lit "if true")] i
                 = Some (slice (lit "x = " ++ Demo.quoted (lit "if true")) s e)) /\
  (forall i j e s, i < j -> nth_error [13] i = Some e ->
                   nth_error [4] j = Some s -> e <= s).
Proof.
  apply (mute_expression_spans (H := reference_engine)
           (lit "x = " ++ Demo.quoted (lit "if true")) Demo.STRING_RE false
           (lit "x = xxxxxxxxx")).
  vm_compute. reflexivity.
Defined.

(** [X2] Masking changes nothing but the matches: a character of the
    masked text is the letter x inside a recorded span and the character of
    the input text everywhere else. *)
Theorem mute_expression_pointwise `{RegexEngine}
        (text expr : str) (is_multiline : bool)
        (masked : str) (expr_start expr_end : list nat) (expr_match : list str) (j : nat) :
  mute_expression text expr is_multiline = Ok (masked, expr_start, expr_end, expr_match) ->
  nth_error masked j
  = if in_span expr_start expr_end j then Some "x"%char else nth_error text j.
Proof.
  intros Hm. apply mute_expression_inv in Hm.
  destruct Hm as (p & _ & [= -> -> -> ->]).
  rewrite in_span_covered. apply sub_nth.
Qed.

Lemma mute_expression_pointwise_witness :
  nth_error (lit "x = xxxxxxxxx") 2
  = if in_span [4] [13] 2 then Some "x"%char
    else nth_error (lit "x = " ++ Demo.quoted (lit "if true")) 2.
Proof.
  apply (mute_expression_pointwise (H := reference_engine)
           (lit "x = " ++ Demo.quoted (lit "if true")) Demo.STRING_RE false
           (lit "x = xxxxxxxxx") [4] [13] [Demo.quoted (lit "if true")] 2).
  vm_compute. reflexivity.
Defined.

(** ** Restoring, character by character *)

Lemma restore_nth text t m j :
  length t = length text -> m_string m = text ->
  m_start m <= m_end m -> m_end m <= length text ->
  nth_error (restore t m) j
  = if covers m j then nth_error text j else nth_error t j.
Proof.
  intros Ht Hm Hse He. unfold restore, covers, group. rewrite Hm.
  destruct (Nat.leb_spec (m_start m) j) as [Hs|Hs]; simpl.
  - rewrite nth_error_app2 by (rewrite slice_length; lia).
    rewrite slice_length by lia. rewrite Nat.sub_0_r.
    destruct (Nat.ltb_spec j (m_end m)) as [Hj|Hj].
    + rewrite nth_error_app1 by (rewrite slice_length; lia).
      rewrite nth_error_slice.
      destruct (Nat.ltb_spec (j - m_start m) (m_end m - m_start m)); [|lia].
      f_equal. lia.
    + rewrite nth_error_app2 by (rewrite slice_length; lia).
      rewrite slice_length by lia. rewrite nth_error_slice.
      destruct (Nat.ltb_spec (j - m_start m - (m_end m - m_start m)) (length t - m_end m)).
      * f_equal. lia.
      * symmetry. apply nth_error_None. lia.
  - rewrite nth_error_app1 by (rewrite slice_length; lia).
    rewrite nth_error_slice.
    destruct (Nat.ltb_spec j (m_start m - 0)); [reflexivity|lia].
Qed.

(** Putting back matches of [text], in whatever order and however often:
    the covered positions hold the characters of [text], the others are
    untouched. *)
Lemma fold_restore_nth text ms : forall t j,
  length t = length text ->
  Forall (fun m => m_string m = text /\ m_start m <= m_end m /\ m_end m <= length text) ms ->
  nth_error (fold_left restore ms t) j
  = if covered ms j then nth_error text j else nth_error t j.
Proof.
  induction ms as [|m ms IH]; intros t j Ht Hall; [reflexivity|].
  pose proof (Forall_inv Hall) as (Hm & Hse & He).
  pose proof (Forall_inv_tail Hall) as Hall'.
  cbn [fold_left]. rewrite IH; [|rewrite <- Ht|assumption].
  - rewrite (restore_nth text) by assumption.
    change (covered (m :: ms) j) with (covers m j || covered ms j).
    destruct (covers m j), (covered ms j); reflexivity.
  - apply restore_length; [assumption|lia|].
    apply (group_length text); assumption.
Qed.

Lemma chained_subject_all text ms i :
  chained (length text) i ms -> subject text ms ->
  Forall (fun m => m_string m = text /\ m_start m <= m_end m /\ m_end m <= length text) ms.
Proof.
  intros Hc Hs. apply Forall_forall. intros m Hm.
  destruct (chained_In _ _ _ _ Hc Hm) as (_ & ? & ?).
  split; [exact (proj1 (Forall_forall _ _) Hs m Hm)|auto].
Qed.

(** ** Unmuting with any three lists *)

Lemma index_Some {A} (l : list A) i a : nth_error l i = Some a -> index l i = Ok a.
Proof. unfold index. now intros ->. Qed.

Lemma index_None {A} (l : list A) i : nth_error l i = None -> index l i = Raise IndexError.
Proof. unfold index. now intros ->. Qed.

Lemma unmute_expression_rounds (expr_start expr_end : list nat) (expr_match : list str) :
  forall n i text,
    i <= length expr_start -> i <= length expr_end -> i + n = length expr_match ->
    match for_range i n text (fun i text =>
            s <- index expr_start i ;;
            m <- index expr_match i ;;
            e <- index expr_end i ;;
            Ok (slice text 0 s ++ m ++ slice text e (length text))) with
    | Ok _ => length expr_match <= length expr_start /\
              length expr_match <= length expr_end
    | Raise e => e = IndexError /\
                 (length expr_start < length expr_match \/
                  length expr_end < length expr_match)
    end.
Proof.
  induction n as [|n IH]; intros i text Hs He Hn; cbn [for_range].
  - split; lia.
  - destruct (nth_error expr_start i) as [s|] eqn:Es.
    2:{ rewrite (index_None _ _ Es). cbn [bind].
        apply nth_error_None in Es. split; [reflexivity|left; lia]. }
    destruct (nth_error expr_match i) as [m|] eqn:Em.
    2:{ apply nth_error_None in Em. lia. }
    rewrite (index_Some _ _ _ Es), (index_Some _ _ _ Em). cbn [bind].
    destruct (nth_error expr_end i) as [e|] eqn:Ee.
    2:{ rewrite (index_None _ _ Ee). cbn [bind].
        apply nth_error_None in Ee. split; [reflexivity|right; lia]. }
    rewrite (index_Some _ _ _ Ee). cbn [bind].
    assert (i < length expr_start) by (apply nth_error_Some; congruence).
    assert (i < length expr_end) by (apply nth_error_Some; congruence).
    apply IH; lia.
Qed.

(** [X3] [unmute_expression] runs one round for every recorded text and
    reads the start and the end of the same index: it returns exactly when
    neither position list is shorter than the list of texts, and raises
    [IndexError] otherwise; spans that reach beyond the text raise nothing
    (slices clamp). *)
Theorem unmute_expression_outcome (text : str) (expr_start expr_end : list nat)
        (expr_match : list str) :
  match unmute_expression text expr_start expr_end expr_match with
  | Ok _ => length expr_match <= length expr_start /\
            length expr_match <= length expr_end
  | Raise e => e = IndexError /\
               (length expr_start < length expr_match \/
                length expr_end < length expr_match)
  end.
Proof.
  unfold unmute_expression. apply unmute_expression_rounds; lia.
Qed.

Lemma covered_exists ms j :
  covered ms j = true -> exists m, In m ms /\ covers m j = true.
Proof. unfold covered. intros H. apply existsb_exists in H. exact H. Qed.

Lemma covered_covers ms m j : In m ms -> covers m j = true -> covered ms j = true.
Proof. intros Hm Hc. apply existsb_exists. exists m. auto. Qed.

(** [X4] Within one masking the order of restoring does not matter: when
    the recorded spans and texts of a masking are put back in the order of
    any list of indices that names each of them at least once, the result
    is the text that was masked. *)
Theorem unmute_any_order `{RegexEngine}
        (text expr : str) (is_multiline : bool)
        (masked : str) (expr_start expr_end : list nat) (expr_match : list str)
        (order : list nat) :
  mute_expression text expr is_multiline = Ok (masked, expr_start, expr_end, expr_match) ->
  (forall i, i < length expr_match -> In i order) ->
  (forall i, In i order -> i < length expr_match) ->
  unmute_expression masked
                    (map (fun i => nth i expr_start 0) order)
                    (map (fun i => nth i expr_end 0) order)
                    (map (fun i => nth i expr_match []) order)
  = Ok text.
Proof.
  intros Hm Hall Hin. apply mute_expression_inv in Hm.
  destruct Hm as (p & _ & [= -> -> -> ->]).
  rewrite length_map in Hall, Hin.
  set (ms := finditer p text) in *.
  set (d := {| m_string := []; m_start := 0; m_end := 0 |}).
  set (ms' := map (fun i => nth i ms d) order).
  assert (map (fun i => nth i (map m_start ms) 0) order = map m_start ms') as ->.
  { unfold ms'. rewrite map_map. apply map_ext. intros i.
    now rewrite <- (map_nth m_start). }
  assert (map (fun i => nth i (map m_end ms) 0) order = map m_end ms') as ->.
  { unfold ms'. rewrite map_map. apply map_ext. intros i.
    now rewrite <- (map_nth m_end). }
  assert (map (fun i => nth i (map group ms) []) order = map group ms') as ->.
  { unfold ms'. rewrite map_map. apply map_ext. intros i.
    now rewrite <- (map_nth group). }
  rewrite unmute_expression_matches. f_equal.
  assert (forall m, In m ms' -> In m ms) as Hsub.
  { intros m Hm. unfold ms' in Hm. apply in_map_iff in Hm.
    destruct Hm as (i & <- & Hi). apply nth_In. auto. }
  apply nth_error_ext. intros j.
  rewrite (fold_restore_nth text).
  - rewrite sub_nth. fold ms.
    destruct (covered ms' j) eqn:Hc'; [reflexivity|].
    destruct (covered ms j) eqn:Hc; [|reflexivity].
    destruct (covered_exists _ _ Hc) as (m & Hm & Hcov).
    destruct (In_nth _ _ d Hm) as (i & Hi & Hnth).
    assert (In m ms') as Hm'.
    { unfold ms'. apply in_map_iff. exists i. auto. }
    rewrite (covered_covers _ _ _ Hm' Hcov) in Hc'. discriminate.
  - apply sub_length.
  - pose proof (chained_subject_all text ms 0 (finditer_chained p text)
                  (finditer_subject p text)) as Hf.
    apply Forall_forall. intros m Hm.
    exact (proj1 (Forall_forall _ _) Hf m (Hsub m Hm)).
Qed.

Lemma unmute_any_order_witness :
  unmute_expression (lit "xxx + xxx")
                    (map (fun i => nth i [0; 6] 0) [1; 0; 1])
                    (map (fun i => nth i [3; 9] 0) [1; 0; 1])
                    (map (fun i => nth i [Demo.quoted (lit "a"); Demo.quoted (lit "b")] [])
                         [1; 0; 1])
  = Ok (Demo.quoted (lit "a") ++ lit " + " ++ Demo.quoted (lit "b")).
Proof.
  apply (unmute_any_order (H := reference_engine)
           (Demo.quoted (lit "a") ++ lit " + " ++ Demo.quoted (lit "b"))
           Demo.STRING_RE false (lit "xxx + xxx") [0; 6] [3; 9]
           [Demo.quoted (lit "a"); Demo.quoted (lit "b")] [1; 0; 1]).
  - vm_compute. reflexivity.
  - intros i Hi. cbn in Hi. destruct i as [|[|i]]; cbn; auto. lia.
  - intros i Hi. cbn in Hi. cbn. destruct Hi as [<-|[<-|[<-|[]]]]; lia.
Defined.

(** ** What a pass gives back *)

Section PassFacts.
Context {E : RegexEngine}.

Lemma colorize_find_inv text regex kind r :
  colorize_find text regex kind = Ok r ->
  exists p, compile regex (kind_is kind "mlcomment") = Some p /\
            r = (map m_start (finditer p text), map m_end (finditer p text),
                 map group (finditer p text)).
Proof.
  unfold colorize_find, re_compile.
  destruct (kind_is kind "mlcomment");
    (destruct (compile regex _) as [p|]; simpl; [|discriminate]);
    intros [= <-]; exists p; auto.
Qed.

(** Without a colour code the first round of the painting loop raises. *)
Lemma colorize_paint_no_colour text (colorstart colorend : list nat)
      (colorstring : list str) :
  colorize_paint text [] colorstart colorend colorstring
  = match colorstring with
    | [] => Ok (text, 0)
    | _ :: _ => Raise IndexError
    end.
Proof. destruct colorstring; reflexivity. Qed.

(** A pass whose maskings and pattern compile, up to the painting. *)
Lemma colorize_run text regex color kind strexpr comexpr mlcomexpr masked ml s cm p :
  colorize_mute text kind strexpr comexpr mlcomexpr = Ok (masked, ml, s, cm) ->
  compile regex (kind_is kind "mlcomment") = Some p ->
  exists restored,
    colorize_unmute masked kind ml s cm = Ok restored /\
    length restored = length text /\
    colorize text regex color kind strexpr comexpr mlcomexpr
    = ('(t, _) <- colorize_paint restored color
                    (map m_start (finditer p masked)) (map m_end (finditer p masked))
                    (map group (finditer p masked)) ;;
       Ok t).
Proof.
  intros Hmute Hp.
  destruct (colorize_unmute_run _ _ _ _ _ _ _ _ _ Hmute)
    as (t1 & t2 & mls & ss & cs & H1 & H2 & H3 & Hun & Hlen).
  eexists. split; [exact Hun|]. split.
  - rewrite Hlen.
    rewrite (stage_length _ _ _ _ _ _ _ H3), (stage_length _ _ _ _ _ _ _ H2).
    apply (stage_length _ _ _ _ _ _ _ H1).
  - unfold colorize. rewrite Hmute. cbn [bind].
    rewrite (colorize_find_run _ _ _ _ Hp). cbn [bind]. rewrite Hun. reflexivity.
Qed.

Lemma highlight_length c text ms : forall i,
  chained (length text) i ms ->
  Forall (fun m => length (group m) = m_end m - m_start m) ms ->
  length (sub_loop (highlight c) text i ms)
  = (length text - i) + length ms * (length c + 7).
Proof.
  induction ms as [|m ms IH]; intros i Hc Hg;
    inversion Hc as [|? ? ? Hst Hse Hel Hrest]; subst; cbn [sub_loop length].
  - rewrite slice_to_end, length_skipn. lia.
  - pose proof (Forall_inv Hg) as Hm. cbn beta in Hm.
    rewrite !length_app, slice_length by lia.
    rewrite (IH _ Hrest (Forall_inv_tail Hg)).
    unfold highlight, opening, reset. cbn [length].
    rewrite !length_app. cbn [length]. rewrite length_app, Hm. cbn [length]. lia.
Qed.

Lemma stage_nth applied text expr dotall out rec ms j :
  stage applied text expr dotall out rec ms ->
  nth_error out j = if covered ms j then Some "x"%char else nth_error text j.
Proof.
  destruct applied; simpl.
  - intros (p & _ & -> & -> & _). apply sub_nth.
  - now intros (-> & _ & ->).
Qed.

Lemma stage_in_spans applied text expr dotall out rec ms j :
  stage applied text expr dotall out rec ms -> in_spans rec j = covered ms j.
Proof.
  destruct applied; simpl.
  - intros (p & _ & _ & _ & ->). apply in_span_covered.
  - now intros (_ & -> & ->).
Qed.

(** The unmuting order of the source restores the text when no string span
    and comment span share a position. *)
Lemma colorize_unmute_apart text kind strexpr comexpr mlcomexpr masked ml s cm :
  colorize_mute text kind strexpr comexpr mlcomexpr = Ok (masked, ml, s, cm) ->
  spans_apart s cm ->
  colorize_unmute masked kind ml s cm = Ok text.
Proof.
  intros Hmute Hapart.
  destruct (colorize_unmute_run _ _ _ _ _ _ _ _ _ Hmute)
    as (t1 & t2 & mls & ss & cs & H1 & H2 & H3 & Hun & Hlen).
  rewrite Hun. f_equal.
  assert (fold_left restore cs (fold_left restore ss masked) = t1) as ->;
    [|exact (stage_restore _ _ _ _ _ _ _ H1)].
  pose proof (stage_length _ _ _ _ _ _ _ H2) as L2.
  pose proof (stage_length _ _ _ _ _ _ _ H3) as L3.
  destruct (stage_chained _ _ _ _ _ _ _ H2) as [Hc2 Hs2].
  destruct (stage_chained _ _ _ _ _ _ _ H3) as [Hc3 Hs3].
  apply nth_error_ext. intros j.
  rewrite (fold_restore_nth t2 cs);
    [|rewrite L2; apply (stage_unmute_length _ _ _ _ _ _ _ _ H2); lia
     |exact (chained_subject_all _ _ _ Hc3 Hs3)].
  rewrite (fold_restore_nth t1 ss);
    [|lia|exact (chained_subject_all _ _ _ Hc2 Hs2)].
  rewrite (stage_nth _ _ _ _ _ _ _ j H3), (stage_nth _ _ _ _ _ _ _ j H2).
  pose proof (Hapart j) as Hj.
  rewrite (stage_in_spans _ _ _ _ _ _ _ j H2), (stage_in_spans _ _ _ _ _ _ _ j H3) in Hj.
  destruct (covered cs j), (covered ss j); try reflexivity.
  exfalso. now apply Hj.
Qed.

End PassFacts.

(** [X6] With an empty colour list a pass still masks, scans and unmutes:
    it returns the unmuted text when the pattern has no match in the masked
    text, and raises [IndexError] in the first round of the painting loop
    when it has one. *)
Theorem colorize_no_colour `{RegexEngine}
        (text regex kind strexpr comexpr mlcomexpr masked : str)
        (ml s cm : option mutes) (p : pattern) :
  colorize_mute text kind strexpr comexpr mlcomexpr = Ok (masked, ml, s, cm) ->
  compile regex (kind_is kind "mlcomment") = Some p ->
  colorize text regex [] kind strexpr comexpr mlcomexpr
  = match finditer p masked with
    | [] => colorize_unmute masked kind ml s cm
    | _ :: _ => Raise IndexError
    end.
Proof.
  intros Hmute Hp.
  destruct (colorize_run text regex [] _ _ _ _ _ _ _ _ _ Hmute Hp)
    as (restored & Hun & _ & ->).
  rewrite colorize_paint_no_colour, Hun.
  destruct (finditer p masked); reflexivity.
Qed.

Lemma colorize_no_colour_witness :
  colorize (E := reference_engine) (lit "if x") Demo.KEYWORD_RE [] (lit "keyword")
           Demo.STRING_RE Demo.COMMENT_RE Demo.MLCOMMENT_RE
  = match finditer (E := reference_engine) Demo.KEYWORD (lit "if x") with
    | [] => colorize_unmute (lit "if x") (lit "keyword")
                            (Some ([], [], [])) (Some ([], [], [])) (Some ([], [], []))
    | _ :: _ => Raise IndexError
    end.
Proof.
  apply (colorize_no_colour (H := reference_engine)
           (lit "if x") Demo.KEYWORD_RE (lit "keyword")
           Demo.STRING_RE Demo.COMMENT_RE Demo.MLCOMMENT_RE (lit "if x")
           (Some ([], [], [])) (Some ([], [], [])) (Some ([], [], [])) Demo.KEYWORD);
    vm_compute; reflexivity.
Defined.

(** [X7] The length of the output of a pass: each match that the pattern
    has in the masked text makes the text longer by the length of the
    first colour code and the seven characters of the two escape sequences
    around it; nothing else changes the length. *)
Theorem colorize_length `{RegexEngine}
        (text regex c : str) (more : list str) (kind strexpr comexpr mlcomexpr masked : str)
        (ml s cm : option mutes) (p : pattern) :
  colorize_mute text kind strexpr comexpr mlcomexpr = Ok (masked, ml, s, cm) ->
  compile regex (kind_is kind "mlcomment") = Some p ->
  exists out,
    colorize text regex (c :: more) kind strexpr comexpr mlcomexpr = Ok out /\
    length out = length text + length (finditer p masked) * (length c + 7).
Proof.
  intros Hmute Hp.
  destruct (colorize_run text regex (c :: more) _ _ _ _ _ _ _ _ _ Hmute Hp)
    as (restored & Hun & Hlen & ->).
  assert (length masked = length restored) as Hlm.
  { destruct (colorize_unmute_run _ _ _ _ _ _ _ _ _ Hmute)
      as (t1 & t2 & mls & ss & cs & _ & _ & _ & Hun' & Hl).
    rewrite Hun in Hun'. injection Hun' as ->. now rewrite Hl. }
  assert (chained (length restored) 0 (finditer p masked)) as Hc
    by (rewrite <- Hlm; apply finditer_chained).
  assert (Forall (fun m => length (group m) = m_end m - m_start m) (finditer p masked))
    as Hg by (apply (group_lengths masked _ 0);
              [apply finditer_chained|apply finditer_subject]).
  rewrite (colorize_paint_run _ _ _ _ Hc Hg). cbn [bind].
  eexists. split; [reflexivity|].
  rewrite (highlight_length _ _ _ _ Hc Hg). lia.
Qed.

Lemma colorize_length_witness :
  exists out,
    colorize (E := reference_engine) (lit "if x") Demo.KEYWORD_RE [lit "31"] (lit "keyword")
             Demo.STRING_RE Demo.COMMENT_RE Demo.MLCOMMENT_RE = Ok out /\
    length out
    = length (lit "if x")
      + length (finditer (E := reference_engine) Demo.KEYWORD (lit "if x"))
        * (length (lit "31") + 7).
Proof.
  apply (colorize_length (H := reference_engine)
           (lit "if x") Demo.KEYWORD_RE (lit "31") [] (lit "keyword")
           Demo.STRING_RE Demo.COMMENT_RE Demo.MLCOMMENT_RE (lit "if x")
           (Some ([], [], [])) (Some ([], [], [])) (Some ([], [], [])) Demo.KEYWORD);
    vm_compute; reflexivity.
Defined.

(** [X8] The passes for [string], [comment] and [mlcomment] unmute what
    they masked in the reverse order: the text they paint is exactly the
    text they were given. *)
Theorem special_pass_restores `{RegexEngine}
        (text kind strexpr comexpr mlcomexpr masked : str) (ml s cm : option mutes) :
  kind = lit "string" \/ kind = lit "comment" \/ kind = lit "mlcomment" ->
  colorize_mute text kind strexpr comexpr mlcomexpr = Ok (masked, ml, s, cm) ->
  colorize_unmute masked kind ml s cm = Ok text.
Proof.
  intros Hkind Hmute. apply (colorize_unmute_apart _ _ _ _ _ _ _ _ _ Hmute).
  destruct (colorize_mute_inv _ _ _ _ _ _ _ _ _ Hmute)
    as (t1 & t2 & mls & ss & cs & _ & H2 & H3).
  intros j Hs Hc.
  rewrite (stage_in_spans _ _ _ _ _ _ _ j H2) in Hs.
  rewrite (stage_in_spans _ _ _ _ _ _ _ j H3) in Hc.
  destruct Hkind as [ -> | [ -> | -> ] ].
  - change (kind_is (lit "string") "string") with true in H2.
    cbn [negb andb stage] in H2. destruct H2 as (_ & _ & ->). discriminate.
  - change (kind_is (lit "comment") "comment") with true in H3.
    cbn [negb stage] in H3. destruct H3 as (_ & _ & ->). discriminate.
  - change (kind_is (lit "mlcomment") "mlcomment") with true in H2.
    rewrite andb_false_r in H2.
    cbn [negb andb stage] in H2. destruct H2 as (_ & _ & ->). discriminate.
Qed.

Lemma special_pass_restores_witness :
  colorize_unmute (lit "xxxxxx") (lit "string")
                  (Some ([], [], [])) None
                  (Some ([0], [6], [lit "// " ++ Demo.quoted (lit "s")]))
  = Ok (lit "// " ++ Demo.quoted (lit "s")).
Proof.
  apply (special_pass_restores (H := reference_engine)
           (lit "// " ++ Demo.quoted (lit "s")) (lit "string")
           Demo.STRING_RE Demo.COMMENT_RE Demo.MLCOMMENT_RE).
  - left. reflexivity.
  - vm_compute. reflexivity.
Defined.

(** [X9] A pass for any category paints the text it was given whenever no
    position lies both in a recorded string span and in a recorded comment
    span: unmuting then gives the input text back, the output is the input
    with the highlights spliced in, and a pass whose pattern has no match
    in the masked text returns its input unchanged, whatever the colour
    list. *)
Theorem pass_paints_input `{RegexEngine}
        (text regex kind strexpr comexpr mlcomexpr masked : str)
        (ml s cm : option mutes) (p : pattern) :
  colorize_mute text kind strexpr comexpr mlcomexpr = Ok (masked, ml, s, cm) ->
  spans_apart s cm ->
  compile regex (kind_is kind "mlcomment") = Some p ->
  colorize_unmute masked kind ml s cm = Ok text /\
  (forall c more,
     colorize text regex (c :: more) kind strexpr comexpr mlcomexpr
     = Ok (concat (map render (pieces c text 0 (finditer p masked))))) /\
  (finditer p masked = [] ->
   forall color, colorize text regex color kind strexpr comexpr mlcomexpr = Ok text).
Proof.
  intros Hmute Hapart Hp.
  pose proof (colorize_unmute_apart _ _ _ _ _ _ _ _ _ Hmute Hapart) as Hun.
  split; [assumption|]. split.
  - intros c more.
    destruct (colorize_run text regex (c :: more) _ _ _ _ _ _ _ _ _ Hmute Hp)
      as (restored & Hun' & Hlen & ->).
    rewrite Hun in Hun'. injection Hun' as <-.
    rewrite colorize_paint_run.
    + cbn [bind]. now rewrite render_pieces.
    + destruct (colorize_mute_inv _ _ _ _ _ _ _ _ _ Hmute)
        as (t1 & t2 & mls & ss & cs & H1 & H2 & H3).
      rewrite <- (stage_length _ _ _ _ _ _ _ H1), <- (stage_length _ _ _ _ _ _ _ H2),
        <- (stage_length _ _ _ _ _ _ _ H3).
      apply finditer_chained.
    + apply (group_lengths masked _ 0); [apply finditer_chained|apply finditer_subject].
  - intros Hnone color.
    destruct (colorize_run text regex color _ _ _ _ _ _ _ _ _ Hmute Hp)
      as (restored & Hun' & Hlen & ->).
    rewrite Hun in Hun'. injection Hun' as <-.
    rewrite Hnone. reflexivity.
Qed.

Lemma pass_paints_input_witness :
  colorize_unmute (lit "if xxx xxxx") (lit "keyword")
                  (Some ([], [], []))
                  (Some ([3], [6], [Demo.quoted (lit "a")]))
                  (Some ([7], [11], [lit "// c"]))
  = Ok (lit "if " ++ Demo.quoted (lit "a") ++ lit " // c").
Proof.
  refine (proj1 (pass_paints_input (H := reference_engine)
           (lit "if " ++ Demo.quoted (lit "a") ++ lit " // c") Demo.KEYWORD_RE
           (lit "keyword") Demo.STRING_RE Demo.COMMENT_RE Demo.MLCOMMENT_RE
           (lit "if xxx xxxx")
           (Some ([], [], []))
           (Some ([3], [6], [Demo.quoted (lit "a")]))
           (Some ([7], [11], [lit "// c"])) Demo.KEYWORD _ _ _)).
  - vm_compute. reflexivity.
  - intros j. unfold in_spans, in_span. cbn [combine existsb fst snd].
    rewrite !orb_false_r, !andb_true_iff, !Nat.leb_le, !Nat.ltb_lt. lia.
  - vm_compute. reflexivity.
Defined.

Lemma colorize_mute_nth `{RegexEngine}
      (text kind strexpr comexpr mlcomexpr masked : str) (ml s cm : option mutes) :
  colorize_mute text kind strexpr comexpr mlcomexpr = Ok (masked, ml, s, cm) ->
  length masked = length text /\
  forall j, nth_error masked j
            = if in_spans ml j || in_spans s j || in_spans cm j
              then Some "x"%char
              else nth_error text j.
Proof.
  intros Hmute.
  destruct (colorize_mute_inv _ _ _ _ _ _ _ _ _ Hmute)
    as (t1 & t2 & mls & ss & cs & H1 & H2 & H3).
  split.
  - rewrite (stage_length _ _ _ _ _ _ _ H3), (stage_length _ _ _ _ _ _ _ H2).
    apply (stage_length _ _ _ _ _ _ _ H1).
  - intros j.
    rewrite (stage_nth _ _ _ _ _ _ _ j H3), (stage_nth _ _ _ _ _ _ _ j H2),
      (stage_nth _ _ _ _ _ _ _ j H1).
    rewrite (stage_in_spans _ _ _ _ _ _ _ j H1), (stage_in_spans _ _ _ _ _ _ _ j H2),
      (stage_in_spans _ _ _ _ _ _ _ j H3).
    destruct (covered mls j), (covered ss j), (covered cs j); reflexivity.
Qed.

(** [X10] What a pass scans: the masked text of a pass is as long as the
    input and differs from it only inside the spans recorded for
    multi-line comments, strings and single-line comments, where it holds
    the letter x. *)
Theorem colorize_mute_pointwise `{RegexEngine}
        (text kind strexpr comexpr mlcomexpr masked : str) (ml s cm : option mutes) :
  colorize_mute text kind strexpr comexpr mlcomexpr = Ok (masked, ml, s, cm) ->
  length masked = length text /\
  forall j, nth_error masked j
            = if in_spans ml j || in_spans s j || in_spans cm j
              then Some "x"%char
              else nth_error text j.
Proof. apply colorize_mute_nth. Qed.

Lemma colorize_mute_pointwise_witness :
  length (lit "if xxx xxxx") = length (lit "if " ++ Demo.quoted (lit "a") ++ lit " // c") /\
  forall j, nth_error (lit "if xxx xxxx") j
            = if in_spans (Some ([], [], [])) j
                 || in_spans (Some ([3], [6], [Demo.quoted (lit "a")])) j
                 || in_spans (Some ([7], [11], [lit "// c"])) j
              then Some "x"%char
              else nth_error (lit "if " ++ Demo.quoted (lit "a") ++ lit " // c") j.
Proof.
  apply (colorize_mute_pointwise (H := reference_engine)
           (lit "if " ++ Demo.quoted (lit "a") ++ lit " // c")
           (lit "keyword") Demo.STRING_RE Demo.COMMENT_RE Demo.MLCOMMENT_RE).
  vm_compute. reflexivity.
Defined.

(** ** Reading the theme and the syntax file *)

(** [X11] Reading the theme never fails, whatever the lines hold (an empty
    line gives the empty category).  Afterwards the syntax dictionary is
    still empty, every category that a theme line names has the colour
    codes of the last line that names it, and any other category is a
    missing key. *)
Theorem build_theme_never_fails (theme : list str) :
  exists st,
    build_theme theme empty_store = Ok st /\
    syntax_dict st = [] /\
    (forall k, In k (map theme_key theme) ->
               exists r, dict_get (theme_dict st) k = Ok r /\
                         deref (objects st) r = colors_of k theme) /\
    (forall k, ~ In k (map theme_key theme) ->
               dict_get (theme_dict st) k = Raise KeyError).
Proof.
  destruct (build_theme_run theme) as (st & Hrun & (Hs & _ & _ & Hin & Hout)).
  exists st. auto.
Qed.

Lemma rule_ok_spec theme line :
  rule_ok theme line = true <->
  exists reg k, syntax_rule line = Some (reg, k) /\ In k (map theme_key theme).
Proof.
  unfold rule_ok. destruct (syntax_rule line) as [[reg k]|]; split.
  - intros Hex. apply existsb_exists in Hex. destruct Hex as (x & Hx & Heq).
    apply str_eqb_eq in Heq. subst x. exists reg, k. auto.
  - intros (reg' & k' & [= <- <-] & Hin). apply existsb_exists.
    exists k. split; [assumption|apply str_eqb_refl].
  - discriminate.
  - intros (reg' & k' & Hnone & _). discriminate.
Qed.

Lemma build_syntax_step_ok theme st0 st line :
  theme_inv theme st0 -> theme_dict st = theme_dict st0 ->
  rule_ok theme line = true ->
  exists st', build_syntax_step line st = Ok st'.
Proof.
  intros (_ & _ & _ & Hin & _) Htd Hok.
  apply rule_ok_spec in Hok. destruct Hok as (reg & k & Hrule & Hk).
  destruct (syntax_rule_inv _ _ _ Hrule) as [more Hf].
  destruct (Hin k Hk) as (r & Hr & _).
  unfold build_syntax_step. rewrite Hf. unfold index. simpl.
  rewrite Htd, Hr. simpl. eexists. reflexivity.
Qed.

Lemma build_syntax_step_rule_ok theme st0 st line st' :
  theme_inv theme st0 -> theme_dict st = theme_dict st0 ->
  build_syntax_step line st = Ok st' ->
  rule_ok theme line = true.
Proof.
  intros (_ & _ & _ & _ & Hout) Htd Hstep.
  apply build_syntax_step_inv in Hstep.
  destruct Hstep as (reg & key & r & Hrule & Hr & _).
  apply rule_ok_spec. exists reg, key. split; [assumption|].
  destruct (in_dec (list_eq_dec ascii_dec) key (map theme_key theme)) as [Hk|Hk];
    [assumption|].
  rewrite Htd, (Hout key Hk) in Hr. discriminate.
Qed.

Lemma build_syntax_ok theme st0 (syntax : list str) :
  theme_inv theme st0 ->
  forallb (rule_ok theme) syntax = true ->
  exists st, for_each syntax st0 build_syntax_step = Ok st.
Proof.
  intros Hinv. induction syntax as [|line syntax IH] using rev_ind; intros Hall.
  - exists st0. reflexivity.
  - rewrite forallb_app in Hall. apply andb_true_iff in Hall.
    destruct Hall as [Hall Hline]. simpl in Hline. rewrite andb_true_r in Hline.
    destruct (IH Hall) as (st & Hst).
    destruct (build_syntax_inv theme st0 syntax st Hinv Hst) as (Htd & _).
    destruct (build_syntax_step_ok theme st0 st line Hinv Htd Hline) as (st' & Hst').
    exists st'. rewrite for_each_app, Hst. simpl. now rewrite Hst'.
Qed.

Lemma build_syntax_all_ok theme st0 (syntax : list str) :
  theme_inv theme st0 ->
  forall st, for_each syntax st0 build_syntax_step = Ok st ->
             forallb (rule_ok theme) syntax = true.
Proof.
  intros Hinv. induction syntax as [|line syntax IH] using rev_ind; intros st' Hrun.
  - reflexivity.
  - rewrite for_each_app in Hrun.
    destruct (for_each syntax st0 build_syntax_step) as [st|] eqn:Hst;
      simpl in Hrun; [|discriminate].
    destruct (build_syntax_step line st) as [st1|] eqn:Hstep; simpl in Hrun; [|discriminate].
    destruct (build_syntax_inv theme st0 syntax st Hinv Hst) as (Htd & _).
    rewrite forallb_app, (IH st eq_refl). simpl.
    now rewrite (build_syntax_step_rule_ok theme st0 st line st1 Hinv Htd Hstep).
Qed.

(** [X12] The merge of the two files returns exactly when every line of
    the syntax file has the separator and names a category of the theme
    file. *)
Theorem merge_succeeds_iff (theme syntax : list str) :
  (exists st, merge theme syntax = Ok st) <-> forallb (rule_ok theme) syntax = true.
Proof.
  unfold merge. destruct (build_theme_run theme) as (st0 & Hrun & Hinv).
  rewrite Hrun. cbn [bind]. split.
  - intros (st & Hst). exact (build_syntax_all_ok theme st0 syntax Hinv st Hst).
  - intros Hall. exact (build_syntax_ok theme st0 syntax Hinv Hall).
Qed.

Lemma build_syntax_step_bad theme st0 st line :
  theme_inv theme st0 -> theme_dict st = theme_dict st0 ->
  rule_ok theme line = false ->
  build_syntax_step line st
  = Raise (match syntax_rule line with Some _ => KeyError | None => IndexError end).
Proof.
  intros (_ & _ & _ & _ & Hout) Htd Hbad.
  destruct (build_syntax_step line st) as [st'|e] eqn:Hstep.
  - apply build_syntax_step_inv in Hstep.
    destruct Hstep as (reg & key & r & Hrule & Hr & _).
    unfold rule_ok in Hbad. rewrite Hrule in Hbad.
    assert (~ In key (map theme_key theme)) as Hk.
    { intros Hin.
      assert (existsb (str_eqb key) (map theme_key theme) = true) as Hex
          by (apply existsb_exists; exists key; split; [assumption|apply str_eqb_refl]).
      congruence. }
    rewrite Htd, (Hout key Hk) in Hr. discriminate.
  - apply build_syntax_step_raise in Hstep.
    destruct Hstep as [[-> ->]|(reg & key & -> & _ & ->)]; reflexivity.
Qed.

(** [X13] The first line of the syntax file that the merge cannot take
    decides the exception, and the lines after it are never read: a line
    without the separator raises [IndexError], a line whose category the
    theme does not name raises [KeyError], and [colorfile] ends with that
    exception whatever the source text. *)
Theorem merge_first_bad_line `{RegexEngine} (theme before_it after_it : list str)
        (line : str) :
  forallb (rule_ok theme) before_it = true ->
  rule_ok theme line = false ->
  let e := match syntax_rule line with Some _ => KeyError | None => IndexError end in
  merge theme (before_it ++ line :: after_it) = Raise e /\
  forall source, colorfile theme (before_it ++ line :: after_it) source = Raise e.
Proof.
  intros Hall Hbad e.
  assert (merge theme (before_it ++ line :: after_it) = Raise e) as Hm.
  { unfold merge. destruct (build_theme_run theme) as (st0 & Hrun & Hinv).
    rewrite Hrun. cbn [bind]. unfold build_syntax. rewrite for_each_app.
    destruct (build_syntax_ok theme st0 before_it Hinv Hall) as (st & Hst).
    rewrite Hst. cbn [bind for_each].
    destruct (build_syntax_inv theme st0 before_it st Hinv Hst) as (Htd & _).
    now rewrite (build_syntax_step_bad theme st0 st line Hinv Htd Hbad). }
  split; [assumption|].
  intros source. unfold colorfile. now rewrite Hm.
Qed.

Lemma merge_first_bad_line_witness :
  merge [DemoFiles.theme_line "keyword: 31"]
        ([DemoFiles.syntax_line Demo.KEYWORD_RE "keyword"]
           ++ [NL] :: [DemoFiles.syntax_line (lit "\d+") "number"])
  = Raise IndexError.
Proof.
  apply (merge_first_bad_line (H := reference_engine)
           [DemoFiles.theme_line "keyword: 31"]
           [DemoFiles.syntax_line Demo.KEYWORD_RE "keyword"]
           [DemoFiles.syntax_line (lit "\d+") "number"] [NL]);
    vm_compute; reflexivity.
Defined.

(** ** The passes that [colorfile] runs *)

Lemma dict_keys_set_add {V} (d : dict V) key v :
  dict_keys (dict_set d key v) = add_key (dict_keys d) key.
Proof.
  unfold dict_keys, add_key. induction d as [|[k w] d IH]; simpl; [reflexivity|].
  destruct (str_eqb k key) eqn:Hk; simpl; [reflexivity|].
  rewrite IH. destruct (existsb _ (map fst d)); reflexivity.
Qed.

Lemma add_key_absent keys key :
  existsb (fun k => str_eqb k key) keys = false -> ~ In key keys.
Proof.
  intros Hex Hin.
  assert (existsb (fun k => str_eqb k key) keys = true) as Ht
      by (apply existsb_exists; exists key; split; [assumption|apply str_eqb_refl]).
  congruence.
Qed.

Lemma add_key_In keys key k : In k (add_key keys key) <-> In k keys \/ k = key.
Proof.
  unfold add_key. destruct (existsb _ keys) eqn:Hex.
  - apply existsb_exists in Hex. destruct Hex as (x & Hx & Heq).
    apply str_eqb_eq in Heq. subst x. split; [auto|].
    intros [Hk|Hk]; [assumption|now subst].
  - rewrite in_app_iff. simpl. split.
    + intros [Hk|[Hk|[]]]; auto.
    + intros [Hk|Hk]; auto.
Qed.

Lemma NoDup_snoc {A} (l : list A) a : NoDup l -> ~ In a l -> NoDup (l ++ [a]).
Proof.
  induction l as [|b l IH]; simpl; intros Hnd Hin.
  - constructor; [intros []|constructor].
  - inversion Hnd as [|? ? Hb Hl]; subst. constructor.
    + rewrite in_app_iff. simpl. intros [Hbl|[Hba|[]]]; [auto|]. apply Hin. auto.
    + apply IH; auto.
Qed.

Lemma add_key_NoDup keys key : NoDup keys -> NoDup (add_key keys key).
Proof.
  unfold add_key. intros Hnd. destruct (existsb _ keys) eqn:Hex; [assumption|].
  apply NoDup_snoc; [assumption|now apply add_key_absent].
Qed.

Lemma fold_add_key l : forall acc,
  NoDup acc ->
  NoDup (fold_left add_key l acc) /\
  forall k, In k (fold_left add_key l acc) <-> In k acc \/ In k l.
Proof.
  induction l as [|x l IH]; intros acc Hnd; simpl.
  - split; [assumption|]. intros k. split; [auto|]. intros [Hk|[]]. assumption.
  - destruct (IH (add_key acc x) (add_key_NoDup acc x Hnd)) as [Hnd' Hin].
    split; [assumption|]. intros k. rewrite Hin, add_key_In.
    split; [intros [[Hk|Hk]|Hk]|intros [Hk|[Hk|Hk]]]; auto.
Qed.

Lemma first_occurrences_In l k : In k (first_occurrences l) <-> In k l.
Proof.
  unfold first_occurrences.
  destruct (fold_add_key l [] (NoDup_nil _)) as [_ Hin]. rewrite Hin. simpl.
  split; [intros [[]|Hk]|]; auto.
Qed.

Lemma categories_of_snoc done line reg key :
  syntax_rule line = Some (reg, key) ->
  categories_of (done ++ [line]) = categories_of done ++ [key].
Proof.
  intros H. unfold categories_of. rewrite flat_map_app. simpl. now rewrite H.
Qed.

(** The keys of the syntax dictionary after the merge. *)
Lemma merged_keys theme syntax st :
  merge theme syntax = Ok st ->
  dict_keys (syntax_dict st) = first_occurrences (categories_of syntax).
Proof.
  unfold merge. destruct (build_theme_run theme) as (st0 & Hrun & Hinv).
  rewrite Hrun. cbn [bind]. intros Hs.
  apply (for_each_invariant
           (fun done s => dict_keys (syntax_dict s) = first_occurrences (categories_of done))
           build_syntax_step) with (xs := syntax) (done := []) (s := st0) (s' := st).
  - intros done x s s' HP Hb. apply build_syntax_step_inv in Hb.
    destruct Hb as (reg & key & r & Hrule & _ & ->). cbn [syntax_dict].
    rewrite dict_keys_set_add, HP, (categories_of_snoc _ _ _ _ Hrule).
    unfold first_occurrences. now rewrite fold_left_app.
  - destruct Hinv as (-> & _). reflexivity.
  - exact Hs.
Qed.

Lemma dict_get_absent {V} (d : dict V) key :
  ~ In key (dict_keys d) -> dict_get d key = Raise KeyError.
Proof.
  unfold dict_keys. induction d as [|[k w] d IH]; simpl; intros Hk; [reflexivity|].
  destruct (str_eqb k key) eqn:Heq.
  - apply str_eqb_eq in Heq. exfalso. apply Hk. now left.
  - apply IH. intros Hin. apply Hk. now right.
Qed.

Lemma special_regex_absent st key :
  ~ In key (dict_keys (syntax_dict st)) ->
  (l <- syntax_item st key ;; last_item l) = Raise KeyError.
Proof.
  intros Hk. unfold syntax_item. now rewrite (dict_get_absent _ _ Hk).
Qed.

(** [X14] The order of the passes: [colorfile] runs one pass for each
    category that the syntax file names, in the order in which the
    categories first occur in the file; a category named by several lines
    keeps the place of its first line and gets a single pass. *)
Theorem pass_order (theme syntax : list str) (st : store) :
  merge theme syntax = Ok st ->
  dict_keys (syntax_dict st) = first_occurrences (categories_of syntax) /\
  NoDup (dict_keys (syntax_dict st)) /\
  (forall k, In k (dict_keys (syntax_dict st)) <-> In k (categories_of syntax)).
Proof.
  intros Hm. pose proof (merged_keys _ _ _ Hm) as Hk. rewrite Hk.
  split; [reflexivity|]. split.
  - exact (proj1 (fold_add_key (categories_of syntax) [] (NoDup_nil _))).
  - intros k. apply first_occurrences_In.
Qed.

Lemma pass_order_witness :
  dict_keys (syntax_dict DemoFiles.STORE)
  = first_occurrences (categories_of DemoFiles.SYNTAX).
Proof.
  apply (pass_order DemoFiles.THEME DemoFiles.SYNTAX DemoFiles.STORE).
  vm_compute. reflexivity.
Defined.

(** [X15] The syntax file must have a rule for each of the categories
    [string], [comment] and [mlcomment]: when the merge succeeds but one of
    the three is named by no line, [colorfile] raises [KeyError] before
    the first pass, whatever the source text. *)
Theorem missing_special_category `{RegexEngine} (theme syntax : list str) (st : store)
        (key : str) :
  merge theme syntax = Ok st ->
  In key SPECIAL ->
  ~ In key (categories_of syntax) ->
  forall source, colorfile theme syntax source = Raise KeyError.
Proof.
  intros Hm Hspecial Hmissing source.
  assert (~ In key (dict_keys (syntax_dict st))) as Hk
      by (rewrite (merged_keys _ _ _ Hm), first_occurrences_In; assumption).
  unfold colorfile. rewrite Hm. cbn [bind]. unfold colorfile_paint.
  destruct (in_dec (list_eq_dec ascii_dec) (lit "string") (dict_keys (syntax_dict st)))
    as [Hs|Hs].
  2:{ now rewrite (special_regex_absent _ _ Hs). }
  rewrite (special_regex_run theme syntax st _ Hm Hs). cbn [bind].
  destruct (in_dec (list_eq_dec ascii_dec) (lit "comment") (dict_keys (syntax_dict st)))
    as [Hc|Hc].
  2:{ now rewrite (special_regex_absent _ _ Hc). }
  rewrite (special_regex_run theme syntax st _ Hm Hc). cbn [bind].
  destruct (in_dec (list_eq_dec ascii_dec) (lit "mlcomment") (dict_keys (syntax_dict st)))
    as [Hml|Hml].
  2:{ now rewrite (special_regex_absent _ _ Hml). }
  exfalso. destruct Hspecial as [<-|[<-|[<-|[]]]]; auto.
Qed.

Lemma missing_special_category_witness :
  colorfile (E := reference_engine)
            [DemoFiles.theme_line "keyword: 31"]
            [DemoFiles.syntax_line Demo.KEYWORD_RE "keyword"] [lit "if x"]
  = Raise KeyError.
Proof.
  refine (missing_special_category (H := reference_engine)
            [DemoFiles.theme_line "keyword: 31"]
            [DemoFiles.syntax_line Demo.KEYWORD_RE "keyword"]
            (match merge [DemoFiles.theme_line "keyword: 31"]
                         [DemoFiles.syntax_line Demo.KEYWORD_RE "keyword"] with
             | Ok st => st
             | Raise _ => empty_store
             end)
            (lit "comment") _ _ _ [lit "if x"]).
  - vm_compute. reflexivity.
  - right. left. reflexivity.
  - vm_compute. intros [Hk|[]]. discriminate Hk.
Defined.

(** ** What the output keeps of the source *)

Lemma colorize_ok_length `{RegexEngine}
      (text regex : str) (color : list str) (kind strexpr comexpr mlcomexpr out : str) :
  colorize text regex color kind strexpr comexpr mlcomexpr = Ok out ->
  length text <= length out.
Proof.
  intros Hrun. pose proof Hrun as Hrun'. unfold colorize in Hrun'.
  destruct (colorize_mute text kind strexpr comexpr mlcomexpr)
    as [[[[masked ml] s] cm]|] eqn:Hmute; cbn [bind] in Hrun'; [|discriminate].
  destruct (colorize_find masked regex kind) as [[[cs ce] cstr]|] eqn:Hfind;
    cbn [bind] in Hrun'; [|discriminate].
  clear Hrun'.
  destruct (colorize_find_inv _ _ _ _ Hfind) as (p & Hp & _).
  destruct (colorize_run text regex color _ _ _ _ _ _ _ _ _ Hmute Hp)
    as (restored & Hun & Hlen & Heq).
  rewrite Heq in Hrun. clear Heq.
  destruct color as [|c more].
  - rewrite colorize_paint_no_colour in Hrun.
    destruct (map group (finditer p masked)); cbn [bind] in Hrun; [|discriminate].
    injection Hrun as <-. lia.
  - assert (length masked = length restored) as Hlm.
    { destruct (colorize_unmute_run _ _ _ _ _ _ _ _ _ Hmute)
        as (t1 & t2 & mls & ss & cs' & _ & _ & _ & Hun' & Hl).
      rewrite Hun in Hun'. injection Hun' as ->. now rewrite Hl. }
    assert (chained (length restored) 0 (finditer p masked)) as Hc
        by (rewrite <- Hlm; apply finditer_chained).
    assert (Forall (fun m => length (group m) = m_end m - m_start m) (finditer p masked))
      as Hg by (apply (group_lengths masked _ 0);
                [apply finditer_chained|apply finditer_subject]).
    rewrite (colorize_paint_run _ _ _ _ Hc Hg) in Hrun. cbn [bind] in Hrun.
    injection Hrun as <-. rewrite (highlight_length _ _ _ _ Hc Hg). lia.
Qed.

(** [X17] No pass shortens the text: when [colorfile] returns, what it
    prints is the painted text followed by the newline that [print] adds,
    and the painted text is at least as long as the source lines
    together.  (A length bound only: which characters the output holds is
    the matter of the properties of the passes.) *)
Theorem colorfile_never_shrinks `{RegexEngine} (theme syntax source : list str)
        (out : str) :
  colorfile theme syntax source = Ok out ->
  exists painted,
    out = painted ++ [NL] /\ length (concat source) <= length painted.
Proof.
  unfold colorfile.
  destruct (merge theme syntax) as [st|]; cbn [bind]; [|discriminate].
  destruct (colorfile_paint st (concat source)) as [painted|] eqn:Hp;
    cbn [bind]; [|discriminate].
  intros [= <-]. exists painted. split; [reflexivity|].
  unfold colorfile_paint in Hp.
  destruct (l <- syntax_item st (lit "string") ;; last_item l) as [strexpr|];
    cbn [bind] in Hp; [|discriminate].
  destruct (l <- syntax_item st (lit "comment") ;; last_item l) as [comexpr|];
    cbn [bind] in Hp; [|discriminate].
  destruct (l <- syntax_item st (lit "mlcomment") ;; last_item l) as [mlcomexpr|];
    cbn [bind] in Hp; [|discriminate].
  apply (for_each_invariant
           (fun (_ : list str) t => length (concat source) <= length t)
           (colorfile_pass st strexpr comexpr mlcomexpr))
    with (xs := dict_keys (syntax_dict st)) (done := []) (s := concat source);
    [|lia|exact Hp].
  intros _ key t t' Ht Hpass. unfold colorfile_pass in Hpass.
  destruct (syntax_item st key) as [l|]; cbn [bind] in Hpass; [|discriminate].
  destruct (last_item l) as [regex|]; cbn [bind] in Hpass; [|discriminate].
  apply colorize_ok_length in Hpass. lia.
Qed.

Lemma colorfile_never_shrinks_witness :
  exists painted,
    ESC :: lit "[31mif" ++ ESC :: lit "[0m (x) { } "
      ++ ESC :: lit "[32m// if comment" ++ ESC :: lit "[0m" ++ [NL]
    = painted ++ [NL] /\
    length (concat [lit "if (x) { } // if comment"]) <= length painted.
Proof.
  apply (colorfile_never_shrinks (H := reference_engine)
           DemoFiles.THEME DemoFiles.SYNTAX [lit "if (x) { } // if comment"]).
  vm_compute. reflexivity.
Defined.

Lemma split_loop_chars sep s : forall skip cur piece x,
  In piece (split_loop sep s skip cur) -> In x piece -> In x cur \/ In x s.
Proof.
  induction s as [|c s IH]; intros skip cur piece x Hp Hx.
  - simpl in Hp. destruct Hp as [<-|[]]. left. now apply in_rev.
  - cbn [split_loop] in Hp. destruct skip as [|k].
    + destruct (starts_with sep (c :: s)).
      * destruct Hp as [<-|Hp].
        -- left. now apply in_rev.
        -- destruct (IH _ _ _ _ Hp Hx) as [[]|Hs]. right. now right.
      * destruct (IH _ _ _ _ Hp Hx) as [[<-|Hc]|Hs]; [right; now left|now left|].
        right. now right.
    + destruct (IH _ _ _ _ Hp Hx) as [Hc|Hs]; [now left|right; now right].
Qed.

Lemma split_chars sep s piece x : In piece (split sep s) -> In x piece -> In x s.
Proof.
  intros Hp Hx. destruct (split_loop_chars sep s 0 [] piece x Hp Hx) as [[]|Hs].
  assumption.
Qed.

Lemma remove_char_gone c l : ~ In c (remove_char c l).
Proof.
  unfold remove_char. intros H. apply filter_In in H. destruct H as [_ H].
  now rewrite Ascii.eqb_refl in H.
Qed.

(** [X18] What the two files cannot express: spaces and newlines are
    removed from a syntax line before it is split, so no pattern and no
    category holds a space or a newline; colons and newlines are removed
    from a theme line, so no category and no colour code of the theme holds
    a colon or a newline. *)
Theorem fields_characters (line : str) :
  (forall f, In f (syntax_fields line) -> ~ In " "%char f /\ ~ In NL f) /\
  (forall f, In f (theme_fields line) -> ~ In ":"%char f /\ ~ In NL f).
Proof.
  unfold syntax_fields, theme_fields. split; intros f Hf; split; intros Hx;
    pose proof (split_chars _ _ _ _ Hf Hx) as Hs.
  - apply remove_char_In in Hs. exact (remove_char_gone _ _ Hs).
  - exact (remove_char_gone _ _ Hs).
  - apply remove_char_In in Hs. exact (remove_char_gone _ _ Hs).
  - exact (remove_char_gone _ _ Hs).
Qed.

(** [X19] The rule pattern never sees what a pass has masked: whatever the
    category, every character of a recorded colour match that stands at a
    position of a recorded multi-line-comment, string or single-line-comment
    span is the letter x. *)
Theorem masked_spans_hidden `{RegexEngine}
        (text regex kind strexpr comexpr mlcomexpr masked : str)
        (ml s cm : option mutes) (p : pattern) (m : Match) (j : nat) :
  colorize_mute text kind strexpr comexpr mlcomexpr = Ok (masked, ml, s, cm) ->
  compile regex (kind_is kind "mlcomment") = Some p ->
  In m (finditer p masked) ->
  covers m j = true ->
  in_spans ml j || in_spans s j || in_spans cm j = true ->
  nth_error (group m) (j - m_start m) = Some "x"%char.
Proof.
  intros Hmute _ Hm Hcov Hin.
  destruct (colorize_mute_nth _ _ _ _ _ _ _ _ _ Hmute) as [_ Hnth].
  unfold covers in Hcov. apply andb_true_iff in Hcov. destruct Hcov as [Hs He].
  apply Nat.leb_le in Hs. apply Nat.ltb_lt in He.
  rewrite (finditer_group _ _ _ Hm), nth_error_slice.
  destruct (Nat.ltb_spec (j - m_start m) (m_end m - m_start m)); [|lia].
  replace (m_start m + (j - m_start m)) with j by lia.
  now rewrite Hnth, Hin.
Qed.

Lemma masked_spans_hidden_witness :
  nth_error (group {| m_string := lit "x = xxxxxxxxx"; m_start := 4; m_end := 13 |}) (5 - 4)
  = Some "x"%char.
Proof.
  apply (masked_spans_hidden (H := reference_engine)
           (lit "x = " ++ Demo.quoted (lit "if true")) (lit "x+") (lit "keyword")
           Demo.STRING_RE Demo.COMMENT_RE Demo.MLCOMMENT_RE
           (lit "x = xxxxxxxxx")
           (Some ([], [], []))
           (Some ([4], [13], [Demo.quoted (lit "if true")]))
           (Some ([], [], []))
           (match compile (RegexEngine := reference_engine) (lit "x+") false with
            | Some p => p
            | None => Demo.KEYWORD
            end)
           {| m_string := lit "x = xxxxxxxxx"; m_start := 4; m_end := 13 |} 5).
  - vm_compute. reflexivity.
  - vm_compute. reflexivity.
  - vm_compute. right. left. reflexivity.
  - vm_compute. reflexivity.
  - vm_compute. reflexivity.
Defined.

Lemma slice_ext (u v : str) a b :
  (forall j, a <= j -> j < b -> nth_error u j = nth_error v j) ->
  slice u a b = slice v a b.
Proof.
  intros Huv. apply nth_error_ext. intros n. rewrite !nth_error_slice.
  destruct (Nat.ltb_spec n (b - a)); [|reflexivity]. apply Huv; lia.
Qed.

Lemma content_pieces c text ms : forall i,
  chained (length text) i ms ->
  Forall (fun m => group m = slice text (m_start m) (m_end m)) ms ->
  content (pieces c text i ms) = skipn i text.
Proof.
  unfold content.
  induction ms as [|m ms IH]; intros i Hc Hg;
    inversion Hc as [|? ? ? Hst Hse Hel Hrest]; subst; cbn [pieces map concat].
  - now rewrite app_nil_r, slice_to_end.
  - rewrite (IH _ Hrest (Forall_inv_tail Hg)), (Forall_inv Hg). cbn [app].
    rewrite slice_skipn_join by assumption. now apply slice_skipn_join.
Qed.

(** [X20] A pass is faithful when its maskings stay apart and its matches
    stay clear of them: when no position lies both in a string span and in
    a comment span, and no recorded colour match covers a position of a
    masked span, every highlighted text is the text of the input at the
    span of its match, and the output without its escape sequences is the
    input. *)
Theorem pass_keeps_text `{RegexEngine}
        (text regex c : str) (more : list str) (kind strexpr comexpr mlcomexpr masked : str)
        (ml s cm : option mutes) (p : pattern) :
  colorize_mute text kind strexpr comexpr mlcomexpr = Ok (masked, ml, s, cm) ->
  spans_apart s cm ->
  compile regex (kind_is kind "mlcomment") = Some p ->
  (forall m j, In m (finditer p masked) -> covers m j = true ->
               in_spans ml j || in_spans s j || in_spans cm j = false) ->
  let ps := pieces c text 0 (finditer p masked) in
  colorize text regex (c :: more) kind strexpr comexpr mlcomexpr
  = Ok (concat (map render ps)) /\
  Forall (fun m => group m = slice text (m_start m) (m_end m)) (finditer p masked) /\
  content ps = text.
Proof.
  intros Hmute Hapart Hp Hclear ps.
  pose proof (colorize_unmute_apart _ _ _ _ _ _ _ _ _ Hmute Hapart) as Hun.
  destruct (colorize_mute_nth _ _ _ _ _ _ _ _ _ Hmute) as [Hlen Hnth].
  assert (chained (length text) 0 (finditer p masked)) as Hc
      by (rewrite <- Hlen; apply finditer_chained).
  assert (Forall (fun m => group m = slice text (m_start m) (m_end m)) (finditer p masked))
    as Hg.
  { apply Forall_forall. intros m Hm. rewrite (finditer_group _ _ _ Hm).
    apply slice_ext. intros j Hs He. rewrite Hnth, (Hclear m j Hm); [reflexivity|].
    unfold covers. apply andb_true_iff.
    split; [now apply Nat.leb_le|now apply Nat.ltb_lt]. }
  split; [|split; [assumption|]].
  - destruct (colorize_run text regex (c :: more) _ _ _ _ _ _ _ _ _ Hmute Hp)
      as (restored & Hun' & _ & ->).
    rewrite Hun in Hun'. injection Hun' as <-.
    rewrite colorize_paint_run.
    + cbn [bind]. unfold ps. now rewrite render_pieces.
    + assumption.
    + apply (group_lengths masked _ 0); [apply finditer_chained|apply finditer_subject].
  - unfold ps. now rewrite (content_pieces _ _ _ _ Hc Hg).
Qed.

Lemma pass_keeps_text_witness :
  content (pieces (lit "31") (lit "if " ++ Demo.quoted (lit "a") ++ lit " // c") 0
                  (finditer (E := reference_engine) Demo.KEYWORD (lit "if xxx xxxx")))
  = lit "if " ++ Demo.quoted (lit "a") ++ lit " // c".
Proof.
  refine (proj2 (proj2 (pass_keeps_text (H := reference_engine)
           (lit "if " ++ Demo.quoted (lit "a") ++ lit " // c") Demo.KEYWORD_RE
           (lit "31") [] (lit "keyword")
           Demo.STRING_RE Demo.COMMENT_RE Demo.MLCOMMENT_RE
           (lit "if xxx xxxx")
           (Some ([], [], []))
           (Some ([3], [6], [Demo.quoted (lit "a")]))
           (Some ([7], [11], [lit "// c"])) Demo.KEYWORD _ _ _ _))).
  - vm_compute. reflexivity.
  - intros j. unfold in_spans, in_span. cbn [combine existsb fst snd].
    rewrite !orb_false_r, !andb_true_iff, !Nat.leb_le, !Nat.ltb_lt. lia.
  - vm_compute. reflexivity.
  - intros m j Hm Hcov. vm_compute in Hm. destruct Hm as [<-|[]].
    unfold covers in Hcov. cbn [m_start m_end] in Hcov.
    apply andb_true_iff in Hcov. destruct Hcov as [_ Hj]. apply Nat.ltb_lt in Hj.
    destruct j as [|[|j]]; [reflexivity|reflexivity|lia].
Defined.

(** * The passes, from their input to their output *)

(** ** Painting, with the counts *)

(** [C5], amended: in a pass whose masking and pattern compile, the
    recorded matches are ascending and disjoint; after [k] rounds of the
    painting loop the first [k] matches are each replaced by the opening
    sequence for the first colour code, the matched text and the reset
    sequence, the text after them is untouched, and the nudge is the length
    of the [k] opening and [k] reset sequences inserted so far; the result
    of the pass is the text between the matches interleaved with these
    highlights.  The output holds as many opening as reset sequences, one
    of each for every match, when the text given to the pass has no escape
    character of its own and the colour code has neither that character
    nor the letter m. *)
Theorem colorize_splices `{RegexEngine}
        (text regex c : str) (more : list str) (kind strexpr comexpr mlcomexpr : str)
        (masked : str) (ml s cm : option mutes) (p : pattern) (restored : str) :
  colorize_mute text kind strexpr comexpr mlcomexpr = Ok (masked, ml, s, cm) ->
  compile regex (kind_is kind "mlcomment") = Some p ->
  colorize_unmute masked kind ml s cm = Ok restored ->
  let ms := finditer p masked in
  let painted := concat (map render (pieces c restored 0 ms)) in
  chained (length restored) 0 ms /\
  (forall k, k <= length ms ->
     for_range 0 k (restored, 0)
               (paint_step (c :: more) (map m_start ms) (map m_end ms) (map group ms))
     = Ok (concat (map render (pieces c restored 0 (firstn k ms))),
           k * (length (opening c) + length reset))) /\
  colorize text regex (c :: more) kind strexpr comexpr mlcomexpr = Ok painted /\
  (plain text -> plain c -> ~ In "m"%char c ->
   count_sub (opening c) painted = count_sub reset painted /\
   (c <> ["0"%char] -> count_sub reset painted = length ms)).
Proof.
  intros Hmute Hp Hun ms painted.
  destruct (colorize_unmute_run _ _ _ _ _ _ _ _ _ Hmute)
    as (t1 & t2 & mls & ss & cs & H1 & H2 & H3 & Hun' & Hlen).
  rewrite Hun in Hun'. injection Hun' as ->.
  assert (chained (length masked) 0 ms) as Hc by apply finditer_chained.
  assert (Forall (fun m => length (group m) = m_end m - m_start m) ms) as Hg
    by (apply (group_lengths masked _ 0); [assumption|apply finditer_subject]).
  rewrite <- Hlen in Hc.
  split; [assumption|]. split; [|split].
  - intros k Hk. rewrite render_pieces. now apply paint_rounds.
  - unfold colorize. rewrite Hmute. cbn [bind].
    rewrite (colorize_find_run _ _ _ _ Hp). cbn [bind]. rewrite Hun. cbn [bind].
    fold ms. rewrite colorize_paint_run by assumption. cbn [bind].
    unfold painted. now rewrite render_pieces.
  - intros Ht Hpc Hm. unfold painted. rewrite render_pieces.
    destruct (list_eq_dec ascii_dec c ["0"%char]) as [->|H0].
    { split; [reflexivity|]. intros Hne. congruence. }
    destruct (stage_plain _ _ _ _ _ _ _ H1 Ht) as [Ht1 Hg1].
    destruct (stage_plain _ _ _ _ _ _ _ H2 Ht1) as [Ht2 Hg2].
    destruct (stage_plain _ _ _ _ _ _ _ H3 Ht2) as [Ht3 Hg3].
    assert (Forall (fun m => plain (group m)) ms) as Hgp
      by (apply (plain_groups masked); [assumption|apply finditer_subject]).
    assert (plain (fold_left restore mls (fold_left restore cs (fold_left restore ss masked))))
      as Hr by (repeat apply plain_fold_restore; assumption).
    destruct (count_sub_painted c _ ms 0 Hr Hgp Hpc Hm H0) as [Ho Hre].
    split; [congruence|]. intros _. exact Hre.
Qed.

Lemma colorize_splices_witness :
  Demo.paint_keyword (lit "if x") Demo.KEYWORD_RE
  = Ok (concat (map render
                  (pieces (lit "31") (lit "if x") 0
                          [{| m_string := lit "if x"; m_start := 0; m_end := 2 |}]))).
Proof.
  unfold Demo.paint_keyword.
  refine (proj1 (proj2 (proj2
            (colorize_splices (H := reference_engine)
               (lit "if x") Demo.KEYWORD_RE (lit "31") [] (lit "keyword")
               Demo.STRING_RE Demo.COMMENT_RE Demo.MLCOMMENT_RE
               (lit "if x") (Some ([], [], [])) (Some ([], [], [])) (Some ([], [], []))
               Demo.KEYWORD (lit "if x") _ _ _))));
    vm_compute; reflexivity.
Defined.

(** [C5] fails as it stands: a pass that is given a text which an earlier
    pass has painted scans the escape sequences too.  After the keyword
    pass has painted the word if in the text of the word if, a space and
    the digit 1, the pass for a number pattern matches the colour code 31
    inside the opening sequence and the digit 1: its output holds two
    opening sequences of its colour and three reset sequences, and the
    opening sequence of the keyword is broken. *)
Lemma splices_unbalanced_on_painted_text : ~ splices_balanced reference_engine.
Proof.
  intros Hclaim.
  assert (colorize (E := reference_engine)
                   (ESC :: lit "[31mif" ++ ESC :: lit "[0m 1") (lit "[1-9]\d*")
                   [lit "32"] (lit "number")
                   Demo.STRING_RE Demo.COMMENT_RE Demo.MLCOMMENT_RE
          = Ok (ESC :: lit "[" ++ ESC :: lit "[32m31" ++ ESC :: lit "[0mmif"
                  ++ ESC :: lit "[0m " ++ ESC :: lit "[32m1" ++ ESC :: lit "[0m")) as Hrun
      by (vm_compute; reflexivity).
  apply Hclaim in Hrun. vm_compute in Hrun. discriminate.
Qed.

(** The text that the number pass is given there is the output of the
    keyword pass. *)
Example keyword_pass_output :
  Demo.paint_keyword (lit "if 1") Demo.KEYWORD_RE
  = Ok (ESC :: lit "[31mif" ++ ESC :: lit "[0m 1").
Proof. vm_compute. reflexivity. Qed.

(** ** Which spans a pass masks, and how *)

Section GateFacts.
Context {E : RegexEngine}.

Lemma mute_expression_ok text expr is_multiline p :
  compile expr is_multiline = Some p ->
  mute_expression text expr is_multiline
  = Ok (sub p repl text, map m_start (finditer p text), map m_end (finditer p text),
        map group (finditer p text)).
Proof.
  intros Hp. unfold mute_expression, re_compile.
  destruct is_multiline; rewrite Hp; reflexivity.
Qed.

Lemma colorize_mute_ok text kind strexpr comexpr mlcomexpr :
  compile mlcomexpr true <> None ->
  compile strexpr false <> None ->
  compile comexpr false <> None ->
  exists r, colorize_mute text kind strexpr comexpr mlcomexpr = Ok r.
Proof.
  intros Hml Hs Hc.
  destruct (compile mlcomexpr true) as [pml|] eqn:Eml; [|congruence].
  destruct (compile strexpr false) as [ps|] eqn:Es; [|congruence].
  destruct (compile comexpr false) as [pc|] eqn:Ec; [|congruence].
  unfold colorize_mute.
  destruct (kind_is kind "mlcomment"), (kind_is kind "string"), (kind_is kind "comment");
    cbn [negb andb bind];
    repeat (first [ rewrite (mute_expression_ok _ _ _ _ Eml)
                  | rewrite (mute_expression_ok _ _ _ _ Es)
                  | rewrite (mute_expression_ok _ _ _ _ Ec) ];
            cbn [bind]);
    eexists; reflexivity.
Qed.

Lemma colorize_returns text regex c more kind strexpr comexpr mlcomexpr :
  compile mlcomexpr true <> None ->
  compile strexpr false <> None ->
  compile comexpr false <> None ->
  compile regex (kind_is kind "mlcomment") <> None ->
  exists out, colorize text regex (c :: more) kind strexpr comexpr mlcomexpr = Ok out.
Proof.
  intros Hml Hs Hc Hr.
  destruct (colorize_mute_ok text kind strexpr comexpr mlcomexpr Hml Hs Hc)
    as ([[[masked ml] s] cm] & Hmute).
  destruct (compile regex (kind_is kind "mlcomment")) as [p|] eqn:Hp; [|congruence].
  destruct (colorize_run text regex (c :: more) _ _ _ _ _ _ _ _ _ Hmute Hp)
    as (restored & Hun & Hlen & ->).
  assert (length masked = length restored) as Hlm.
  { destruct (colorize_unmute_run _ _ _ _ _ _ _ _ _ Hmute)
      as (t1 & t2 & mls & ss & cs & _ & _ & _ & Hun' & Hl).
    rewrite Hun in Hun'. injection Hun' as ->. now rewrite Hl. }
  rewrite colorize_paint_run.
  - cbn [bind]. eexists. reflexivity.
  - rewrite <- Hlm. apply finditer_chained.
  - apply (group_lengths masked _ 0); [apply finditer_chained|apply finditer_subject].
Qed.

Lemma colorize_ok_compiles text regex color kind strexpr comexpr mlcomexpr out :
  colorize text regex color kind strexpr comexpr mlcomexpr = Ok out ->
  compile regex (kind_is kind "mlcomment") <> None.
Proof.
  unfold colorize.
  destruct (colorize_mute text kind strexpr comexpr mlcomexpr)
    as [[[[masked ml] s] cm]|]; cbn [bind]; [|discriminate].
  destruct (colorize_find masked regex kind) as [r|] eqn:Hfind; cbn [bind]; [|discriminate].
  intros _. destruct (colorize_find_inv _ _ _ _ Hfind) as (p & Hp & _). congruence.
Qed.

End GateFacts.

(** [C4], amended: the category of a pass decides which maskings run, on
    which text and with which flag: the multi-line comments are masked
    first, with [re.DOTALL], unless the category is [mlcomment]; then the
    strings, without the flag, unless the category is [string] or
    [mlcomment]; then the single-line comments, without the flag, unless
    the category is [comment].  A masking that runs compiles its pattern
    with that flag, records the matches of the pattern in the text left by
    the masking before it and replaces them by the letter x; a masking that
    is skipped records nothing.  The masked text is as long as the input
    and holds the letter x exactly at the positions of the recorded spans.
    The rule's own pattern is compiled with [re.DOTALL] exactly when the
    category is [mlcomment].  What the flag means is the engine's matter;
    in the reference engine, as in [re], it changes the dot only, which
    matches a newline with the flag and not without it: a span is not
    confined to a line by the absence of the flag. *)
Theorem colorize_gating `{RegexEngine}
        (text regex kind strexpr comexpr mlcomexpr masked : str) (ml s c : option mutes) :
  colorize_mute text kind strexpr comexpr mlcomexpr = Ok (masked, ml, s, c) ->
  (kind = lit "mlcomment" ->
   ml = None /\ s = None /\
   exists pc,
     compile comexpr false = Some pc /\
     c = Some (recorded (finditer pc text)) /\
     masked = sub pc repl text) /\
  (kind = lit "string" ->
   s = None /\
   exists pml pc,
     compile mlcomexpr true = Some pml /\ compile comexpr false = Some pc /\
     ml = Some (recorded (finditer pml text)) /\
     c = Some (recorded (finditer pc (sub pml repl text))) /\
     masked = sub pc repl (sub pml repl text)) /\
  (kind = lit "comment" ->
   c = None /\
   exists pml ps,
     compile mlcomexpr true = Some pml /\ compile strexpr false = Some ps /\
     ml = Some (recorded (finditer pml text)) /\
     s = Some (recorded (finditer ps (sub pml repl text))) /\
     masked = sub ps repl (sub pml repl text)) /\
  (kind <> lit "mlcomment" -> kind <> lit "string" -> kind <> lit "comment" ->
   exists pml ps pc,
     compile mlcomexpr true = Some pml /\ compile strexpr false = Some ps /\
     compile comexpr false = Some pc /\
     ml = Some (recorded (finditer pml text)) /\
     s = Some (recorded (finditer ps (sub pml repl text))) /\
     c = Some (recorded (finditer pc (sub ps repl (sub pml repl text)))) /\
     masked = sub pc repl (sub ps repl (sub pml repl text))) /\
  length masked = length text /\
  (forall j, nth_error masked j
             = if in_spans ml j || in_spans s j || in_spans c j
               then Some "x"%char
               else nth_error text j) /\
  (forall t, colorize_find t regex kind = scan_with (kind_is kind "mlcomment") t regex) /\
  (kind_is kind "mlcomment" = true <-> kind = lit "mlcomment") /\
  (forall a ch,
     RefEngine.atom_matches true a ch
     = RefEngine.atom_matches false a ch
       || match a with RefEngine.AAny => Ascii.eqb ch NL | _ => false end).
Proof.
  intros Hmute.
  destruct (colorize_mute_inv _ _ _ _ _ _ _ _ _ Hmute)
    as (t1 & t2 & mls & ss & cs & H1 & H2 & H3).
  destruct (colorize_mute_nth _ _ _ _ _ _ _ _ _ Hmute) as [Hlen Hnth].
  clear Hmute.
  split; [|split; [|split; [|split; [|split; [|split; [|split; [|split]]]]]]].
  - intros Hk. subst kind.
    change (kind_is (lit "mlcomment") "mlcomment") with true in H1, H2.
    change (kind_is (lit "mlcomment") "comment") with false in H3.
    rewrite andb_false_r in H2. cbn [negb stage] in H1, H2, H3.
    destruct H1 as (Ht1 & Hml & _). destruct H2 as (Ht2 & Hs & _).
    destruct H3 as (pc & Hpc & Hcs & Hm & Hc).
    subst t2 t1 cs. split; [assumption|]. split; [assumption|].
    exists pc. auto.
  - intros Hk. subst kind.
    change (kind_is (lit "string") "mlcomment") with false in H1, H2.
    change (kind_is (lit "string") "string") with true in H2.
    change (kind_is (lit "string") "comment") with false in H3.
    cbn [negb andb stage] in H1, H2, H3.
    destruct H1 as (pml & Hpml & Hmls & Ht1 & Hml). destruct H2 as (Ht2 & Hs & _).
    destruct H3 as (pc & Hpc & Hcs & Hm & Hc).
    subst t2 t1 cs mls. split; [assumption|].
    exists pml, pc. auto.
  - intros Hk. subst kind.
    change (kind_is (lit "comment") "mlcomment") with false in H1, H2.
    change (kind_is (lit "comment") "string") with false in H2.
    change (kind_is (lit "comment") "comment") with true in H3.
    cbn [negb andb stage] in H1, H2, H3.
    destruct H1 as (pml & Hpml & Hmls & Ht1 & Hml).
    destruct H2 as (ps & Hps & Hss & Ht2 & Hs). destruct H3 as (Hm & Hc & _).
    subst masked t2 t1 ss mls. split; [assumption|].
    exists pml, ps. auto.
  - intros Hk1 Hk2 Hk3.
    rewrite (kind_is_other kind "mlcomment" Hk1) in H1, H2.
    rewrite (kind_is_other kind "string" Hk2) in H2.
    rewrite (kind_is_other kind "comment" Hk3) in H3.
    cbn [negb andb stage] in H1, H2, H3.
    destruct H1 as (pml & Hpml & Hmls & Ht1 & Hml).
    destruct H2 as (ps & Hps & Hss & Ht2 & Hs).
    destruct H3 as (pc & Hpc & Hcs & Hm & Hc).
    subst t2 t1 cs ss mls.
    exists pml, ps, pc. auto 10.
  - exact Hlen.
  - exact Hnth.
  - intros t. unfold colorize_find, scan_with.
    destruct (kind_is kind "mlcomment"); reflexivity.
  - unfold kind_is. apply str_eqb_eq.
  - intros a ch. destruct a; cbn [RefEngine.atom_matches orb].
    + now rewrite orb_false_r.
    + now destruct (Ascii.eqb ch NL).
    + now rewrite orb_false_r.
Qed.

Lemma colorize_gating_witness :
  exists pml ps pc,
    compile (RegexEngine := reference_engine) Demo.MLCOMMENT_RE true = Some pml /\
    compile Demo.STRING_RE false = Some ps /\
    compile Demo.COMMENT_RE false = Some pc /\
    Some ([], [], [])
    = Some (recorded (finditer pml (lit "if " ++ Demo.quoted (lit "a") ++ lit " // c"))) /\
    Some ([3], [6], [Demo.quoted (lit "a")])
    = Some (recorded
              (finditer ps (sub pml repl (lit "if " ++ Demo.quoted (lit "a") ++ lit " // c")))) /\
    Some ([7], [11], [lit "// c"])
    = Some (recorded
              (finditer pc
                 (sub ps repl
                    (sub pml repl (lit "if " ++ Demo.quoted (lit "a") ++ lit " // c"))))) /\
    lit "if xxx xxxx"
    = sub pc repl
        (sub ps repl (sub pml repl (lit "if " ++ Demo.quoted (lit "a") ++ lit " // c"))).
Proof.
  refine (proj1 (proj2 (proj2 (proj2
            (colorize_gating (H := reference_engine)
               (lit "if " ++ Demo.quoted (lit "a") ++ lit " // c") Demo.KEYWORD_RE
               (lit "keyword") Demo.STRING_RE Demo.COMMENT_RE Demo.MLCOMMENT_RE
               (lit "if xxx xxxx")
               (Some ([], [], []))
               (Some ([3], [6], [Demo.quoted (lit "a")]))
               (Some ([7], [11], [lit "// c"])) _)))) _ _ _).
  - vm_compute. reflexivity.
  - discriminate.
  - discriminate.
  - discriminate.
Defined.

(** [C4] fails as it stands: the strings are not masked line by line.  The
    string pattern of the example, compiled without [re.DOTALL], matches
    the letter a, a newline and the letter b between double quotes, and the
    recorded span holds the newline. *)
Lemma string_mask_crosses_newline : ~ string_spans_line_oriented reference_engine.
Proof.
  intros Hclaim.
  apply (Hclaim (Demo.quoted (lit "a" ++ [NL] ++ lit "b")) (lit "keyword")
                Demo.STRING_RE Demo.COMMENT_RE Demo.MLCOMMENT_RE
                (lit "xxxxx") (Some ([], [], [])) [0] [5]
                [Demo.quoted (lit "a" ++ [NL] ++ lit "b")] (Some ([], [], []))
                0 0 5 2).
  - vm_compute. reflexivity.
  - reflexivity.
  - reflexivity.
  - lia.
  - lia.
  - reflexivity.
Qed.

(** What the flag does in the reference engine, as in [re]: without it
    the dot of the comment pattern stops at the newline; the dot of the
    multi-line pattern crosses the newline with the flag and not without
    it. *)
Example dot_stops_at_newline :
  mute_expression (E := reference_engine) (lit "//a" ++ [NL] ++ lit "b") Demo.COMMENT_RE false
  = Ok (lit "xxx" ++ [NL] ++ lit "b", [0], [3], [lit "//a"]).
Proof. vm_compute. reflexivity. Qed.

Example dotall_dot_crosses_newline :
  mute_expression (E := reference_engine) (lit "/*a" ++ [NL] ++ lit "b*/")
                  Demo.MLCOMMENT_RE true
  = Ok (lit "xxxxxxx", [0], [7], [lit "/*a" ++ [NL] ++ lit "b*/"]).
Proof. vm_compute. reflexivity. Qed.

Example no_dotall_dot_stops :
  mute_expression (E := reference_engine) (lit "/*a" ++ [NL] ++ lit "b*/")
                  Demo.MLCOMMENT_RE false
  = Ok (lit "/*a" ++ [NL] ++ lit "b*/", [], [], []).
Proof. vm_compute. reflexivity. Qed.

(** ** Strings and comments in the output of a keyword pass *)





(** ** The colour code *)

(** [C9] Only the first colour code is used: the output of a pass with the
    colour list [c :: more] is the unmuted text in which every match of
    the rule's pattern in the masked text is replaced by the escape
    character, an opening bracket, the code [c], the letter m, the matched
    text and the reset sequence; the further codes [more] do not occur in
    it.  For a category whose theme line lists the codes [c :: rest], the
    pass that [colorfile] runs is the pass with the single code [c]. *)
Theorem first_color_only `{RegexEngine}
        (text regex c : str) (more : list str) (kind strexpr comexpr mlcomexpr masked : str)
        (ml s cm : option mutes) (p : pattern) (restored : str) :
  colorize_mute text kind strexpr comexpr mlcomexpr = Ok (masked, ml, s, cm) ->
  compile regex (kind_is kind "mlcomment") = Some p ->
  colorize_unmute masked kind ml s cm = Ok restored ->
  colorize text regex (c :: more) kind strexpr comexpr mlcomexpr
  = Ok (sub_loop (fun m => (ESC :: "["%char :: c ++ ["m"%char]) ++ group m
                             ++ [ESC; "["%char; "0"%char; "m"%char])
                 restored 0 (finditer p masked)) /\
  (forall theme syntax st key rest,
     merge theme syntax = Ok st ->
     In key (dict_keys (syntax_dict st)) ->
     colors_of key theme = c :: rest ->
     forall text' strexpr' comexpr' mlcomexpr',
       colorfile_pass st strexpr' comexpr' mlcomexpr' key text'
       = colorize text' (tl (pattern_of key syntax)) [c] key
                  (tl strexpr') (tl comexpr') (tl mlcomexpr')).
Proof.
  intros Hmute Hp Hun. split.
  - destruct (colorize_run text regex (c :: more) _ _ _ _ _ _ _ _ _ Hmute Hp)
      as (restored' & Hun' & Hlen & ->).
    rewrite Hun in Hun'. injection Hun' as <-.
    assert (length masked = length restored) as Hlm.
    { destruct (colorize_unmute_run _ _ _ _ _ _ _ _ _ Hmute)
        as (t1 & t2 & mls & ss & cs & _ & _ & _ & Hun' & Hl).
      rewrite Hun in Hun'. injection Hun' as ->. now rewrite Hl. }
    rewrite colorize_paint_run; [reflexivity| |].
    + rewrite <- Hlm. apply finditer_chained.
    + apply (group_lengths masked _ 0); [apply finditer_chained|apply finditer_subject].
  - intros theme syntax st key rest Hm Hkey Hc text' strexpr' comexpr' mlcomexpr'.
    rewrite (colorfile_pass_run theme syntax st key text' _ _ _ Hm Hkey).
    unfold color_list_of. rewrite Hc. reflexivity.
Qed.

Lemma first_color_only_witness :
  colorize (E := reference_engine) (lit "if x") Demo.KEYWORD_RE [lit "31"; lit "1"]
           (lit "keyword") Demo.STRING_RE Demo.COMMENT_RE Demo.MLCOMMENT_RE
  = Ok (sub_loop (fun m => (ESC :: "["%char :: lit "31" ++ ["m"%char]) ++ group m
                             ++ [ESC; "["%char; "0"%char; "m"%char])
                 (lit "if x") 0
                 (finditer (E := reference_engine) Demo.KEYWORD (lit "if x"))).
Proof.
  refine (proj1 (first_color_only (H := reference_engine)
            (lit "if x") Demo.KEYWORD_RE (lit "31") [lit "1"] (lit "keyword")
            Demo.STRING_RE Demo.COMMENT_RE Demo.MLCOMMENT_RE (lit "if x")
            (Some ([], [], [])) (Some ([], [], [])) (Some ([], [], []))
            Demo.KEYWORD (lit "if x") _ _ _));
    vm_compute; reflexivity.
Defined.

(** What that pass prints: the second code of the list is not in it. *)
Example second_code_unused :
  colorize (E := reference_engine) (lit "if x") Demo.KEYWORD_RE [lit "31"; lit "1"]
           (lit "keyword") Demo.STRING_RE Demo.COMMENT_RE Demo.MLCOMMENT_RE
  = Ok (ESC :: lit "[31mif" ++ ESC :: lit "[0m x").
Proof. vm_compute. reflexivity. Qed.

(** ** When a pass and a run return *)

(** [X5] Unmuting cannot fail after the masking of the same pass: the
    guards of the two phases agree, so every variable that the unmuting
    reads was bound by the masking, the three lists it indexes are equally
    long, and it returns a text as long as the input of the pass. *)
Theorem colorize_unmute_returns `{RegexEngine}
        (text kind strexpr comexpr mlcomexpr masked : str) (ml s cm : option mutes) :
  colorize_mute text kind strexpr comexpr mlcomexpr = Ok (masked, ml, s, cm) ->
  exists restored,
    colorize_unmute masked kind ml s cm = Ok restored /\
    length restored = length text.
Proof.
  intros Hmute.
  destruct (colorize_unmute_run _ _ _ _ _ _ _ _ _ Hmute)
    as (t1 & t2 & mls & ss & cs & H1 & H2 & H3 & Hun & Hlen).
  eexists. split; [exact Hun|]. rewrite Hlen.
  rewrite (stage_length _ _ _ _ _ _ _ H3), (stage_length _ _ _ _ _ _ _ H2).
  apply (stage_length _ _ _ _ _ _ _ H1).
Qed.

Lemma colorize_unmute_returns_witness :
  exists restored,
    colorize_unmute (lit "if xxx xxxx") (lit "keyword")
                    (Some ([], [], []))
                    (Some ([3], [6], [Demo.quoted (lit "a")]))
                    (Some ([7], [11], [lit "// c"]))
    = Ok restored /\
    length restored = length (lit "if " ++ Demo.quoted (lit "a") ++ lit " // c").
Proof.
  apply (colorize_unmute_returns (H := reference_engine)
           (lit "if " ++ Demo.quoted (lit "a") ++ lit " // c") (lit "keyword")
           Demo.STRING_RE Demo.COMMENT_RE Demo.MLCOMMENT_RE).
  vm_compute. reflexivity.
Defined.

Lemma for_each_ok {A St} (xs : list A) (body : A -> St -> result St) :
  (forall x s, In x xs -> exists s', body x s = Ok s') ->
  forall s, exists s', for_each xs s body = Ok s'.
Proof.
  induction xs as [|x xs IH]; intros Hbody s; cbn [for_each].
  - now exists s.
  - destruct (Hbody x s (or_introl eq_refl)) as (s1 & ->). cbn [bind].
    apply IH. intros y t Hy. apply Hbody. now right.
Qed.

Lemma for_each_ok_inv {A St} (xs : list A) (body : A -> St -> result St) :
  forall s s', for_each xs s body = Ok s' ->
  forall x, In x xs -> exists s1 s2, body x s1 = Ok s2.
Proof.
  induction xs as [|x xs IH]; intros s s' Hrun y Hy; [destruct Hy|].
  cbn [for_each] in Hrun.
  destruct (body x s) as [s1|] eqn:Hb; cbn [bind] in Hrun; [|discriminate].
  destruct Hy as [<-|Hy]; [now exists s, s1|].
  exact (IH _ _ Hrun y Hy).
Qed.

Lemma merge_ok theme syntax :
  forallb (rule_ok theme) syntax = true -> exists st, merge theme syntax = Ok st.
Proof.
  intros Hall. unfold merge. destruct (build_theme_run theme) as (st0 & Hrun & Hinv).
  rewrite Hrun. cbn [bind]. exact (build_syntax_ok theme st0 syntax Hinv Hall).
Qed.

Lemma merge_ok_inv theme syntax st :
  merge theme syntax = Ok st -> forallb (rule_ok theme) syntax = true.
Proof.
  unfold merge. destruct (build_theme_run theme) as (st0 & Hrun & Hinv).
  rewrite Hrun. cbn [bind]. intros Hst.
  exact (build_syntax_all_ok theme st0 syntax Hinv st Hst).
Qed.

(** [X16] When [colorfile] returns.  It returns, whatever the source lines,
    when every line of the syntax file can be merged, the syntax file
    names the categories [string], [comment] and [mlcomment], and every
    category it names has a colour code and a pattern that compiles (with
    [re.DOTALL] for [mlcomment], without for the others).  And when it
    returns on some source, the lines could be merged, the three categories
    are named, and the pattern of every category compiles. *)
Theorem colorfile_returns `{RegexEngine} (theme syntax : list str) :
  (forallb (rule_ok theme) syntax = true ->
   (forall key, In key SPECIAL -> In key (categories_of syntax)) ->
   (forall key, In key (categories_of syntax) ->
                color_list_of key theme syntax <> [] /\
                compile (tl (pattern_of key syntax)) (kind_is key "mlcomment") <> None) ->
   forall source, exists out, colorfile theme syntax source = Ok out) /\
  (forall source out,
     colorfile theme syntax source = Ok out ->
     forallb (rule_ok theme) syntax = true /\
     (forall key, In key SPECIAL -> In key (categories_of syntax)) /\
     (forall key, In key (categories_of syntax) ->
                  compile (tl (pattern_of key syntax)) (kind_is key "mlcomment") <> None)).
Proof.
  split.
  - intros Hall Hspecial Hrules source.
    destruct (merge_ok theme syntax Hall) as (st & Hm).
    pose proof (merged_keys _ _ _ Hm) as Hkeys.
    assert (forall key, In key (categories_of syntax) ->
                        In key (dict_keys (syntax_dict st))) as Hin
        by (intros key Hk; rewrite Hkeys; now apply first_occurrences_In).
    assert (In (lit "string") (categories_of syntax)) as Hs
        by (apply Hspecial; left; reflexivity).
    assert (In (lit "comment") (categories_of syntax)) as Hc
        by (apply Hspecial; right; left; reflexivity).
    assert (In (lit "mlcomment") (categories_of syntax)) as Hml
        by (apply Hspecial; right; right; left; reflexivity).
    unfold colorfile. rewrite Hm. cbn [bind]. unfold colorfile_paint.
    rewrite (special_regex_run theme syntax st _ Hm (Hin _ Hs)). cbn [bind].
    rewrite (special_regex_run theme syntax st _ Hm (Hin _ Hc)). cbn [bind].
    rewrite (special_regex_run theme syntax st _ Hm (Hin _ Hml)). cbn [bind].
    match goal with
    | |- exists out, (t <- for_each ?xs ?s ?body ;; _) = _ =>
        assert (exists painted : str, for_each (St := str) xs s body = Ok painted)
          as (painted & Hp)
    end.
    + apply for_each_ok. intros key t Hkey.
      rewrite (colorfile_pass_run theme syntax st key t _ _ _ Hm Hkey).
      assert (In key (categories_of syntax)) as Hcat.
      { apply first_occurrences_In. rewrite <- Hkeys. exact Hkey. }
      destruct (Hrules key Hcat) as [Hcol Hreg].
      destruct (color_list_of key theme syntax) as [|c more]; [congruence|].
      apply colorize_returns.
      * exact (proj2 (Hrules _ Hml)).
      * exact (proj2 (Hrules _ Hs)).
      * exact (proj2 (Hrules _ Hc)).
      * exact Hreg.
    + rewrite Hp. cbn [bind]. eexists. reflexivity.
  - intros source out Hrun. unfold colorfile in Hrun.
    destruct (merge theme syntax) as [st|] eqn:Hm; cbn [bind] in Hrun; [|discriminate].
    pose proof (merged_keys _ _ _ Hm) as Hkeys.
    destruct (colorfile_paint st (concat source)) as [painted|] eqn:Hp;
      cbn [bind] in Hrun; [|discriminate].
    clear Hrun. unfold colorfile_paint in Hp.
    split; [exact (merge_ok_inv _ _ _ Hm)|].
    destruct (in_dec (list_eq_dec ascii_dec) (lit "string") (dict_keys (syntax_dict st)))
      as [Hs|Hs]; [|rewrite (special_regex_absent _ _ Hs) in Hp; discriminate].
    rewrite (special_regex_run theme syntax st _ Hm Hs) in Hp. cbn [bind] in Hp.
    destruct (in_dec (list_eq_dec ascii_dec) (lit "comment") (dict_keys (syntax_dict st)))
      as [Hc|Hc]; [|rewrite (special_regex_absent _ _ Hc) in Hp; discriminate].
    rewrite (special_regex_run theme syntax st _ Hm Hc) in Hp. cbn [bind] in Hp.
    destruct (in_dec (list_eq_dec ascii_dec) (lit "mlcomment") (dict_keys (syntax_dict st)))
      as [Hml|Hml]; [|rewrite (special_regex_absent _ _ Hml) in Hp; discriminate].
    rewrite (special_regex_run theme syntax st _ Hm Hml) in Hp. cbn [bind] in Hp.
    rewrite Hkeys in Hs, Hc, Hml.
    apply (proj1 (first_occurrences_In _ _)) in Hs.
    apply (proj1 (first_occurrences_In _ _)) in Hc.
    apply (proj1 (first_occurrences_In _ _)) in Hml.
    split.
    + intros key [<-|[<-|[<-|[]]]]; [exact Hs|exact Hc|exact Hml].
    + intros key Hcat.
      assert (In key (dict_keys (syntax_dict st))) as Hkey
          by (rewrite Hkeys; now apply first_occurrences_In).
      destruct (for_each_ok_inv _ _ _ _ Hp key Hkey) as (t & t' & Hpass).
      rewrite (colorfile_pass_run theme syntax st key t _ _ _ Hm Hkey) in Hpass.
      exact (colorize_ok_compiles _ _ _ _ _ _ _ _ Hpass).
Qed.

Lemma colorfile_returns_witness :
  exists out,
    colorfile (E := reference_engine) DemoFiles.THEME DemoFiles.SYNTAX
              [lit "if (x) { } // if comment"] = Ok out.
Proof.
  refine (proj1 (colorfile_returns (H := reference_engine) DemoFiles.THEME DemoFiles.SYNTAX)
                _ _ _ [lit "if (x) { } // if comment"]).
  - vm_compute. reflexivity.
  - intros key Hk. vm_compute in Hk. vm_compute.
    destruct Hk as [<-|[<-|[<-|[]]]]; auto.
  - intros key Hk. vm_compute in Hk.
    destruct Hk as [<-|[<-|[<-|[<-|[]]]]]; split; vm_compute; discriminate.
Defined.
